(** * Cache-aside chat orchestration: ChatService over Mongo models and Redis

    A shallow embedding of
      - src/BackendHealth/src/services/chatService.js  (ChatService and,
        in the same file after the separator, CacheService),
      - the Conversation and Message schemas,
      - src/BackendHealth/src/services/storageService.js (uploadFile),
    with the external servers (Redis, MongoDB, S3) modelled by their
    documented command semantics: the client objects come from
    ../config/redis and ../config/cloudstorage, and their methods are
    read as the Redis commands, Mongoose operations and S3 requests of
    the same names.  Every service method is a function in a
    state-and-error monad over [World]; what the environment supplies
    during a call (the clock, the uuids drawn, the ObjectId minted by
    [new Model(...)]) is passed in as an [Env].  No service method
    catches an exception, so a rejected call ends the method with the
    world as it is at that point. *)

From stdpp Require Import base option list gmap strings sorting.
From stdpp Require Import pretty.
From Stdlib Require Import ZArith Lia.

Local Open Scope Z_scope.

(** ** Errors and results *)

Inductive error : Type :=
| ConversationNotFound   (* new Error('Conversation not found') *)
| ValidationError        (* mongoose schema validation (enum, required) *)
| DuplicateKey           (* E11000 on a unique index *)
| BadValue               (* MongoDB: skip value must be non-negative *)
| RedisUnavailable       (* the redis client rejects the command *)
| WrongType              (* redis WRONGTYPE *)
| InvalidExpire          (* redis: invalid expire time in 'setex' *)
| UploadFailed.          (* new Error(`Failed to upload file: ...`) *)

Inductive result (A : Type) : Type :=
| Ok (a : A)
| Err (e : error).
Arguments Ok {A} a.
Arguments Err {A} e.

Global Instance error_eq_dec : EqDecision error.
Proof. solve_decision. Defined.

(** ** Data model *)

Definition ObjectId := nat.

(** The projection of a conversation that chatService caches
    (createConversation l.23-29, getConversation l.42-48). *)
Record CachedConversation : Type := {
  cc_id : ObjectId;
  cc_sessionId : string;
  cc_userId : string;
  cc_type : string;
  cc_createdAt : Z
}.

Record Image : Type := {
  img_url : string;
  img_cloudStorageKey : string;
  img_size : Z;
  img_mimeType : string
}.

Record Attachment : Type := {
  att_fileName : string;
  att_url : string;
  att_cloudStorageKey : string;
  att_size : Z;
  att_mimeType : string
}.

(** [messageData] of addMessage (l.64-74): what is both saved and cached. *)
Record MessageData : Type := {
  md_conversationId : ObjectId;
  md_sessionId : string;
  md_messageId : string;
  md_role : string;
  md_text : string;
  md_images : list Image;
  md_attachments : list Attachment;
  md_timestamp : Z;
  md_tokenCount : Z
}.

Record Metadata : Type := {
  userAgent : option string;
  ipAddress : option string;
  language : option string;
  platform : option string
}.

(** What the environment hands to one service call. [now] is the clock
    in milliseconds ([new Date()], [Date.now()], and the redis clock),
    [uuid i] is the i-th value returned by [uuidv4()] during the call and
    [objectId] the [_id] minted by [new Conversation(..)]/[new Message(..)]. *)
Record Env : Type := {
  now : Z;
  uuid : nat → string;
  objectId : ObjectId
}.

(** ** Redis *)

Module Redis.

(** Only two shapes of value are ever written by CacheService on the
    keys used by the chat code: a JSON string holding a conversation
    projection (SETEX) and a list of JSON strings holding messages
    (LPUSH).  [JSON.parse (JSON.stringify x)] is taken to be [x]. *)
Inductive value : Type :=
| RString (c : CachedConversation)
| RList (l : list MessageData).

Record entry : Type := { val : value; expireAt : option Z }.

Record t : Type := { up : bool; keys : gmap string entry }.

Inductive command : Type :=
| GET (k : string)
| SETEX (k : string) (seconds : Z) (v : CachedConversation)
| DEL (k : string)
| LPUSH (k : string) (v : MessageData)
| EXPIRE (k : string) (seconds : Z)
| LTRIM (k : string) (start stop : Z)
| LRANGE (k : string) (start stop : Z).

Inductive reply : Type :=
| Nil
| Bulk (c : CachedConversation)
| Int (n : Z)
| Status
| Multi (l : list MessageData).

Definition live (now : Z) (e : entry) : bool :=
  match expireAt e with
  | None => true
  | Some t => bool_decide (now < t)
  end.

(** A key whose expiry has passed is absent for every command. *)
Definition lookup (now : Z) (k : string) (db : gmap string entry) : option entry :=
  match db !! k with
  | Some e => if live now e then Some e else None
  | None => None
  end.

(** Index normalisation shared by LRANGE and LTRIM: negative offsets
    count from the tail, the range is inclusive, out-of-range bounds
    are clamped and an inverted range is empty. *)
Definition range {A : Type} (l : list A) (start stop : Z) : list A :=
  let llen := Z.of_nat (length l) in
  let start := if bool_decide (start < 0) then llen + start else start in
  let stop := if bool_decide (stop < 0) then llen + stop else stop in
  let start := if bool_decide (start < 0) then 0 else start in
  if bool_decide (start > stop ∨ start >= llen) then []
  else
    let stop := if bool_decide (stop >= llen) then llen - 1 else stop in
    take (Z.to_nat (stop - start + 1)) (drop (Z.to_nat start) l).

Definition exec (now : Z) (c : command) (db : gmap string entry)
  : result reply * gmap string entry :=
  match c with
  | GET k =>
      match lookup now k db with
      | None => (Ok Nil, db)
      | Some e =>
          match val e with
          | RString v => (Ok (Bulk v), db)
          | RList _ => (Err WrongType, db)
          end
      end
  | SETEX k seconds v =>
      if bool_decide (seconds <= 0) then (Err InvalidExpire, db)
      else (Ok Status,
            <[k := {| val := RString v; expireAt := Some (now + seconds * 1000) |}]> db)
  | DEL k =>
      match lookup now k db with
      | None => (Ok (Int 0), delete k db)
      | Some _ => (Ok (Int 1), delete k db)
      end
  | LPUSH k v =>
      match lookup now k db with
      | None => (Ok (Int 1), <[k := {| val := RList [v]; expireAt := None |}]> db)
      | Some e =>
          match val e with
          | RList l =>
              (Ok (Int (Z.of_nat (S (length l)))),
               <[k := {| val := RList (v :: l); expireAt := expireAt e |}]> db)
          | RString _ => (Err WrongType, db)
          end
      end
  | EXPIRE k seconds =>
      match lookup now k db with
      | None => (Ok (Int 0), db)
      | Some e =>
          if bool_decide (seconds <= 0) then (Ok (Int 1), delete k db)
          else (Ok (Int 1),
                <[k := {| val := val e; expireAt := Some (now + seconds * 1000) |}]> db)
      end
  | LTRIM k start stop =>
      match lookup now k db with
      | None => (Ok Status, db)
      | Some e =>
          match val e with
          | RList l =>
              match range l start stop with
              | [] => (Ok Status, delete k db)
              | l' => (Ok Status, <[k := {| val := RList l'; expireAt := expireAt e |}]> db)
              end
          | RString _ => (Err WrongType, db)
          end
      end
  | LRANGE k start stop =>
      match lookup now k db with
      | None => (Ok (Multi []), db)
      | Some e =>
          match val e with
          | RList l => (Ok (Multi (range l start stop)), db)
          | RString _ => (Err WrongType, db)
          end
      end
  end.

(** One awaited client call: rejected when the server is unreachable. *)
Definition call (now : Z) (c : command) (r : t) : result reply * t :=
  if up r then
    let '(rep, db) := exec now c (keys r) in
    (rep, {| up := up r; keys := db |})
  else (Err RedisUnavailable, r).

(** Commands reaching the server one after the other, with the replies
    they get; the run stops at the first rejected command (there is no
    try/catch anywhere in the services). *)
Fixpoint run (now : Z) (cs : list command) (r : t) : result (list reply) * t :=
  match cs with
  | [] => (Ok [], r)
  | c :: cs' =>
      match call now c r with
      | (Ok rep, r') =>
          match run now cs' r' with
          | (Ok reps, r'') => (Ok (rep :: reps), r'')
          | (Err e, r'') => (Err e, r'')
          end
      | (Err e, r') => (Err e, r')
      end
  end.

(** The list held under a key as a client can read it: empty when the
    key is absent, expired or not a list. *)
Definition window (now : Z) (k : string) (r : t) : list MessageData :=
  match lookup now k (keys r) with
  | Some {| val := RList l |} => l
  | _ => []
  end.

Definition empty : t := {| up := true; keys := ∅ |}.

End Redis.

(** ** MongoDB collections *)

(** [.sort({field: -1})]: descending on a numeric field. *)
Definition desc {A : Type} (key : A → Z) : relation A :=
  λ a b, key b <= key a.

Global Instance desc_dec {A : Type} (key : A → Z) (a b : A) : Decision (desc key a b) :=
  Z_le_dec (key b) (key a).

Definition sort_desc {A : Type} (key : A → Z) (l : list A) : list A :=
  merge_sort (desc key) l.

(** [.skip(skip).limit(limit)] on an already sorted cursor.  The server
    rejects a negative skip; limit 0 means no limit and a negative limit
    is read as its absolute value. *)
Definition paginate {A : Type} (skip limit : Z) (l : list A) : result (list A) :=
  if bool_decide (skip < 0) then Err BadValue
  else
    let rest := drop (Z.to_nat skip) l in
    Ok (if bool_decide (limit = 0) then rest else take (Z.to_nat (Z.abs limit)) rest).

Module Conversation.

(** A stored conversation.  Of the two fields added by [timestamps: true]
    only createdAt is kept; updatedAt is never read. *)
Record t : Type := {
  _id : ObjectId;
  sessionId : string;      (* required, unique *)
  userId : string;         (* required *)
  title : string;          (* default 'New Conversation' *)
  type : string;           (* enum, default 'general' *)
  metadata : Metadata;
  isActive : bool;         (* default true *)
  lastActivity : Z;
  messageCount : Z;        (* default 0 *)
  createdAt : Z            (* timestamps: true *)
}.

Definition types : list string := ["general"; "plant_doctor"; "knowledge"]%string.

(** Schema validation run by [save]: required strings are non-empty,
    [type] is one of the enum values. *)
Definition validate (c : t) : bool :=
  bool_decide (sessionId c ≠ ""%string)
  && bool_decide (userId c ≠ ""%string)
  && bool_decide (type c ∈ types).

(** [new Conversation({sessionId, userId, type, metadata, lastActivity})]
    with the schema defaults filled in. *)
Definition new (env : Env) (sid uid ty : string) (md : Metadata) : t :=
  {| _id := objectId env; sessionId := sid; userId := uid;
     title := "New Conversation"; type := ty; metadata := md;
     isActive := true; lastActivity := now env; messageCount := 0;
     createdAt := now env |}.

(** [doc.save()]: validation, then insertion under the unique indexes
    on [_id] and [sessionId]. *)
Definition save (c : t) (coll : list t) : result (list t) :=
  if negb (validate c) then Err ValidationError
  else if bool_decide (_id c ∈ (_id <$> coll) ∨ sessionId c ∈ (sessionId <$> coll))
  then Err DuplicateKey
  else Ok (coll ++ [c]).

(** [findOne(filter)]: the first matching document. *)
Definition findOne (filter : t → bool) (coll : list t) : option t :=
  List.find filter coll.

(** [findByIdAndUpdate(id, update)]: applies the update to the document
    with that [_id]; a missing id is not an error. *)
Fixpoint findByIdAndUpdate (id : ObjectId) (update : t → t) (coll : list t) : list t :=
  match coll with
  | [] => []
  | c :: cs =>
      if bool_decide (_id c = id) then update c :: cs
      else c :: findByIdAndUpdate id update cs
  end.

(** [{ lastActivity: new Date(), $inc: { messageCount: 1 } }] *)
Definition touch (now : Z) (c : t) : t :=
  {| _id := _id c; sessionId := sessionId c; userId := userId c;
     title := title c; type := type c; metadata := metadata c;
     isActive := isActive c; lastActivity := now;
     messageCount := messageCount c + 1; createdAt := createdAt c |}.

(** [{ isActive: false }] *)
Definition deactivate (c : t) : t :=
  {| _id := _id c; sessionId := sessionId c; userId := userId c;
     title := title c; type := type c; metadata := metadata c;
     isActive := false; lastActivity := lastActivity c;
     messageCount := messageCount c; createdAt := createdAt c |}.

(** [.select('sessionId title type lastActivity messageCount createdAt')] *)
Record summary : Type := {
  s_id : ObjectId;
  s_sessionId : string;
  s_title : string;
  s_type : string;
  s_lastActivity : Z;
  s_messageCount : Z;
  s_createdAt : Z
}.

Definition select (c : t) : summary :=
  {| s_id := _id c; s_sessionId := sessionId c; s_title := title c;
     s_type := type c; s_lastActivity := lastActivity c;
     s_messageCount := messageCount c; s_createdAt := createdAt c |}.

(** The cached projection built in createConversation and getConversation. *)
Definition project (c : t) : CachedConversation :=
  {| cc_id := _id c; cc_sessionId := sessionId c; cc_userId := userId c;
     cc_type := type c; cc_createdAt := createdAt c |}.

End Conversation.

Module Message.

(** A stored message: the saved [messageData] plus what the store adds. *)
Record t : Type := {
  _id : ObjectId;
  data : MessageData;
  createdAt : Z            (* timestamps: true *)
}.

Definition roles : list string := ["user"; "assistant"; "system"]%string.

Definition validate (m : t) : bool :=
  bool_decide (md_sessionId (data m) ≠ ""%string)
  && bool_decide (md_messageId (data m) ≠ ""%string)
  && bool_decide (md_role (data m) ∈ roles).

Definition new (env : Env) (messageData : MessageData) : t :=
  {| _id := objectId env; data := messageData; createdAt := now env |}.

Definition messageId (m : t) : string := md_messageId (data m).
Definition conversationId (m : t) : ObjectId := md_conversationId (data m).

(** [doc.save()] under the unique indexes on [_id] and [messageId]. *)
Definition save (m : t) (coll : list t) : result (list t) :=
  if negb (validate m) then Err ValidationError
  else if bool_decide (_id m ∈ (_id <$> coll) ∨ messageId m ∈ (messageId <$> coll))
  then Err DuplicateKey
  else Ok (coll ++ [m]).

(** [find({ conversationId })]: direct store query for the messages a
    conversation owns, in insertion order. *)
Definition find (id : ObjectId) (coll : list t) : list t :=
  List.filter (λ m, bool_decide (conversationId m = id)) coll.

End Message.

(** ** Object storage *)

Record File : Type := {
  originalname : string;
  mimetype : string;
  size : Z
}.

Module S3.
Record t : Type := {
  bucketName : string;
  region : string;
  up : bool;
  objects : list string     (* keys of the objects put so far *)
}.
Definition empty : t :=
  {| bucketName := "bucket"; region := "region"; up := true; objects := [] |}.
End S3.

(** ** The world and the monad of service calls *)

Record World : Type := {
  conversations : list Conversation.t;
  messages : list Message.t;
  redis : Redis.t;
  s3 : S3.t
}.

Definition empty_world : World :=
  {| conversations := []; messages := []; redis := Redis.empty; s3 := S3.empty |}.

Definition M (A : Type) : Type := World → result A * World.

Definition ret {A : Type} (a : A) : M A := λ w, (Ok a, w).

Definition throw {A : Type} (e : error) : M A := λ w, (Err e, w).

Definition bind {A B : Type} (m : M A) (k : A → M B) : M B :=
  λ w, match m w with
       | (Ok a, w') => k a w'
       | (Err e, w') => (Err e, w')
       end.

Notation "'await' x ':=' m 'in' k" := (bind m (λ x, k))
  (at level 10, x name, m at level 100, k at level 200).

Definition set_conversations (cs : list Conversation.t) (w : World) : World :=
  {| conversations := cs; messages := messages w; redis := redis w; s3 := s3 w |}.
Definition set_messages (ms : list Message.t) (w : World) : World :=
  {| conversations := conversations w; messages := ms; redis := redis w; s3 := s3 w |}.
Definition set_redis (r : Redis.t) (w : World) : World :=
  {| conversations := conversations w; messages := messages w; redis := r; s3 := s3 w |}.
Definition set_s3 (s : S3.t) (w : World) : World :=
  {| conversations := conversations w; messages := messages w; redis := redis w; s3 := s |}.

Definition redis_call (env : Env) (c : Redis.command) : M Redis.reply :=
  λ w, let '(rep, r) := Redis.call (now env) c (redis w) in (rep, set_redis r w).

Definition Conversation_save (c : Conversation.t) : M Conversation.t :=
  λ w, match Conversation.save c (conversations w) with
       | Ok cs => (Ok c, set_conversations cs w)
       | Err e => (Err e, w)
       end.

Definition Conversation_findOne (filter : Conversation.t → bool) : M (option Conversation.t) :=
  λ w, (Ok (Conversation.findOne filter (conversations w)), w).

Definition Conversation_findByIdAndUpdate (id : ObjectId) (update : Conversation.t → Conversation.t)
  : M unit :=
  λ w, (Ok (), set_conversations (Conversation.findByIdAndUpdate id update (conversations w)) w).

Definition Message_save (m : Message.t) : M Message.t :=
  λ w, match Message.save m (messages w) with
       | Ok ms => (Ok m, set_messages ms w)
       | Err e => (Err e, w)
       end.

(** ** storageService.js *)

Module StorageService.

Record UploadResult : Type := {
  key : string;
  url : string;
  ur_size : Z;
  mimeType : string
}.

(** [uploadFile(file, folder)]; [i] says which draw of [uuidv4()] of
    the enclosing call this upload consumes. *)
Definition uploadFile (env : Env) (i : nat) (file : File) (folder : string)
  : M UploadResult :=
  λ w,
    let key := (folder +:+ "/" +:+ uuid env i +:+ "-" +:+ originalname file)%string in
    if S3.up (s3 w) then
      (Ok {| key := key;
             url := ("https://" +:+ S3.bucketName (s3 w) +:+ ".s3."
                     +:+ S3.region (s3 w) +:+ ".amazonaws.com/" +:+ key)%string;
             ur_size := size file;
             mimeType := mimetype file |},
       set_s3 {| S3.bucketName := S3.bucketName (s3 w); S3.region := S3.region (s3 w);
                 S3.up := S3.up (s3 w); S3.objects := S3.objects (s3 w) ++ [key] |} w)
    else (Err UploadFailed, w).

End StorageService.

(** ** cacheService (second half of chatService.js) *)

Module CacheService.

Definition sessionKey (sessionId : string) : string := ("session:" +:+ sessionId)%string.
Definition conversationKey (sessionId : string) : string :=
  ("conversation:" +:+ sessionId)%string.
Definition messagesKey (sessionId : string) : string := ("messages:" +:+ sessionId)%string.

Definition deleteSession (env : Env) (sessionId : string) : M unit :=
  let key := sessionKey sessionId in
  await _ := redis_call env (Redis.DEL key) in
  ret ().

Definition cacheConversation (env : Env) (sessionId : string)
    (conversation : CachedConversation) : M unit :=
  let key := conversationKey sessionId in
  await _ := redis_call env (Redis.SETEX key 3600 conversation) in
  ret ().

Definition getCachedConversation (env : Env) (sessionId : string)
  : M (option CachedConversation) :=
  let key := conversationKey sessionId in
  await data := redis_call env (Redis.GET key) in
  match data with
  | Redis.Bulk c => ret (Some c)
  | _ => ret None
  end.

Definition addMessage (env : Env) (sessionId : string) (message : MessageData) : M unit :=
  let key := messagesKey sessionId in
  await _ := redis_call env (Redis.LPUSH key message) in
  await _ := redis_call env (Redis.EXPIRE key 3600) in
  (* Keep only last 50 messages in cache *)
  await _ := redis_call env (Redis.LTRIM key 0 49) in
  ret ().

Definition getRecentMessages (env : Env) (sessionId : string) (count : Z)
  : M (list MessageData) :=
  let key := messagesKey sessionId in
  await messages := redis_call env (Redis.LRANGE key 0 (count - 1)) in
  match messages with
  | Redis.Multi l => ret l
  | _ => ret []
  end.

(** The commands one [addMessage] sends, in program order. *)
Definition addMessage_commands (sessionId : string) (message : MessageData)
  : list Redis.command :=
  let key := messagesKey sessionId in
  [Redis.LPUSH key message; Redis.EXPIRE key 3600; Redis.LTRIM key 0 49].

End CacheService.

(** ** chatService.js *)

Module ChatService.

Definition createConversation (env : Env) (userId type : string) (metadata : Metadata)
  : M Conversation.t :=
  let sessionId := uuid env 0 in
  let conversation := Conversation.new env sessionId userId type metadata in
  await conversation := Conversation_save conversation in
  await _ := CacheService.cacheConversation env sessionId
               {| cc_id := Conversation._id conversation;
                  cc_sessionId := sessionId;
                  cc_userId := userId;
                  cc_type := type;
                  cc_createdAt := Conversation.createdAt conversation |} in
  ret conversation.

Definition getConversation (env : Env) (sessionId : string)
  : M (option CachedConversation) :=
  (* Try cache first *)
  await conversation := CacheService.getCachedConversation env sessionId in
  match conversation with
  | Some c => ret (Some c)
  | None =>
      (* Fallback to database *)
      await dbConversation :=
        Conversation_findOne
          (λ c, bool_decide (Conversation.sessionId c = sessionId)
                && bool_decide (Conversation.isActive c = true)) in
      match dbConversation with
      | Some d =>
          let conversation := Conversation.project d in
          await _ := CacheService.cacheConversation env sessionId conversation in
          ret (Some conversation)
      | None => ret None
      end
  end.

(** The upload loop of addMessage (l.77-100): the i-th file consumes
    the (1+i)-th uuid of the call. *)
Fixpoint uploadFiles (env : Env) (sessionId : string) (i : nat) (files : list File)
    (images : list Image) (attachments : list Attachment)
  : M (list Image * list Attachment) :=
  match files with
  | [] => ret (images, attachments)
  | file :: rest =>
      await uploadResult :=
        StorageService.uploadFile env i file ("conversations/" +:+ sessionId)%string in
      if String.prefix "image/" (mimetype file) then
        uploadFiles env sessionId (S i) rest
          (images ++ [{| img_url := StorageService.url uploadResult;
                         img_cloudStorageKey := StorageService.key uploadResult;
                         img_size := StorageService.ur_size uploadResult;
                         img_mimeType := StorageService.mimeType uploadResult |}])
          attachments
      else
        uploadFiles env sessionId (S i) rest images
          (attachments ++ [{| att_fileName := originalname file;
                              att_url := StorageService.url uploadResult;
                              att_cloudStorageKey := StorageService.key uploadResult;
                              att_size := StorageService.ur_size uploadResult;
                              att_mimeType := StorageService.mimeType uploadResult |}])
  end.

Definition addMessage (env : Env) (sessionId role content : string) (files : list File)
  : M Message.t :=
  await conversation := getConversation env sessionId in
  match conversation with
  | None => throw ConversationNotFound
  | Some conversation =>
      let messageId := uuid env 0 in
      (* Handle file uploads *)
      await uploaded := uploadFiles env sessionId 1 files [] [] in
      let messageData :=
        {| md_conversationId := cc_id conversation;
           md_sessionId := sessionId;
           md_messageId := messageId;
           md_role := role;
           md_text := content;
           md_images := uploaded.1;
           md_attachments := uploaded.2;
           md_timestamp := now env;
           md_tokenCount := Z.of_nat (String.length content) |} in
      (* Save to database *)
      await message := Message_save (Message.new env messageData) in
      (* Cache the message for real-time access *)
      await _ := CacheService.addMessage env sessionId messageData in
      (* Update conversation activity *)
      await _ := Conversation_findByIdAndUpdate (cc_id conversation)
                   (Conversation.touch (now env)) in
      ret message
  end.

(** What getMessages hands back: cached [messageData] objects on the
    cache path, stored documents on the store path. *)
Inductive view : Type :=
| FromCache (m : MessageData)
| FromStore (m : Message.t).

Definition view_time (v : view) : Z :=
  match v with
  | FromCache m => md_timestamp m
  | FromStore m => Message.createdAt m
  end.

Definition view_data (v : view) : MessageData :=
  match v with
  | FromCache m => m
  | FromStore m => Message.data m
  end.

(** Lines 127-140: the store path of getMessages. *)
Definition getMessages_store (env : Env) (sessionId : string) (page limit : Z)
  : M (list view) :=
  await conversation := getConversation env sessionId in
  match conversation with
  | None => throw ConversationNotFound
  | Some conversation =>
      let skip := (page - 1) * limit in
      λ w,
        match paginate skip limit
                (sort_desc Message.createdAt (Message.find (cc_id conversation) (messages w)))
        with
        | Ok messages => (Ok (FromStore <$> reverse messages), w)
        | Err e => (Err e, w)
        end
  end.

Definition getMessages (env : Env) (sessionId : string) (page limit : Z) : M (list view) :=
  (* For recent messages, try cache first *)
  if bool_decide (page = 1) && bool_decide (limit <= 10) then
    await cachedMessages := CacheService.getRecentMessages env sessionId limit in
    if bool_decide (0 < length cachedMessages)%nat then ret (FromCache <$> cachedMessages)
    else getMessages_store env sessionId page limit
  else getMessages_store env sessionId page limit.

Definition getUserConversations (env : Env) (userId : string) (page limit : Z)
  : M (list Conversation.summary) :=
  let skip := (page - 1) * limit in
  λ w,
    match paginate skip limit
            (sort_desc Conversation.lastActivity
               (List.filter (λ c, bool_decide (Conversation.userId c = userId)
                                  && bool_decide (Conversation.isActive c = true))
                  (conversations w)))
    with
    | Ok conversations => (Ok (Conversation.select <$> conversations), w)
    | Err e => (Err e, w)
    end.

Definition deleteConversation (env : Env) (sessionId userId : string) : M bool :=
  await conversation :=
    Conversation_findOne
      (λ c, bool_decide (Conversation.sessionId c = sessionId)
            && bool_decide (Conversation.userId c = userId)) in
  match conversation with
  | None => throw ConversationNotFound
  | Some conversation =>
      (* Mark as inactive instead of deleting (for data retention) *)
      await _ := Conversation_findByIdAndUpdate (Conversation._id conversation)
                   Conversation.deactivate in
      (* Clean up cache *)
      await _ := CacheService.deleteSession env sessionId in
      ret true
  end.

End ChatService.

(** ** Sequential histories of service calls

    A history is what the ingress layer and the environment do to the
    world, one step after the other.  The availability of Redis and S3
    changes between calls only. *)

Inductive call : Type :=
| CreateConversation (env : Env) (userId type : string) (metadata : Metadata)
| GetConversation (env : Env) (sessionId : string)
| AddMessage (env : Env) (sessionId role content : string) (files : list File)
| GetMessages (env : Env) (sessionId : string) (page limit : Z)
| GetUserConversations (env : Env) (userId : string) (page limit : Z)
| DeleteConversation (env : Env) (sessionId userId : string)
| SetRedisUp (b : bool)
| SetS3Up (b : bool).

Definition step (w : World) (c : call) : World :=
  match c with
  | CreateConversation env userId type metadata =>
      (ChatService.createConversation env userId type metadata w).2
  | GetConversation env sessionId => (ChatService.getConversation env sessionId w).2
  | AddMessage env sessionId role content files =>
      (ChatService.addMessage env sessionId role content files w).2
  | GetMessages env sessionId page limit =>
      (ChatService.getMessages env sessionId page limit w).2
  | GetUserConversations env userId page limit =>
      (ChatService.getUserConversations env userId page limit w).2
  | DeleteConversation env sessionId userId =>
      (ChatService.deleteConversation env sessionId userId w).2
  | SetRedisUp b =>
      set_redis {| Redis.up := b; Redis.keys := Redis.keys (redis w) |} w
  | SetS3Up b =>
      set_s3 {| S3.bucketName := S3.bucketName (s3 w); S3.region := S3.region (s3 w);
                S3.up := b; S3.objects := S3.objects (s3 w) |} w
  end.

Definition run (history : list call) : World := foldl step empty_world history.



(** All ways in which the commands of two clients can reach the server. *)
Fixpoint interleavings {A : Type} (l1 : list A) : list A → list (list A) :=
  fix inner (l2 : list A) : list (list A) :=
    match l1, l2 with
    | [], _ => [l2]
    | _, [] => [l1]
    | a :: l1', b :: l2' =>
        ((a ::.) <$> interleavings l1' l2) ++ ((b ::.) <$> inner l2')
    end.

(** The same as a relation: [l] is an interleaving of [l1] and [l2]. *)
Inductive interleaved {A : Type} : list A → list A → list A → Prop :=
| interleaved_nil : interleaved [] [] []
| interleaved_left a l1 l2 l : interleaved l1 l2 l → interleaved (a :: l1) l2 (a :: l)
| interleaved_right b l1 l2 l : interleaved l1 l2 l → interleaved l1 (b :: l2) (b :: l).

(** Direct store queries used to state the properties. *)
Definition conversation_of (sessionId : string) (w : World) : option Conversation.t :=
  Conversation.findOne (λ c, bool_decide (Conversation.sessionId c = sessionId))
    (conversations w).

Definition active_conversation_of (sessionId : string) (w : World) : option Conversation.t :=
  Conversation.findOne
    (λ c, bool_decide (Conversation.sessionId c = sessionId)
          && bool_decide (Conversation.isActive c = true))
    (conversations w).

Definition cache_window (now : Z) (sessionId : string) (w : World) : list MessageData :=
  Redis.window now (CacheService.messagesKey sessionId) (redis w).

(** Chronological ascending order of what getMessages returns. *)
Definition ascending (l : list ChatService.view) : Prop :=
  Sorted Z.le (ChatService.view_time <$> l).

(** The commands that read or update the list under [k] without ever
    removing it by expiry, and what each does to the list. *)
Inductive window_command (k : string) : Redis.command → Prop :=
| wc_lpush v : window_command k (Redis.LPUSH k v)
| wc_expire seconds : 0 < seconds → window_command k (Redis.EXPIRE k seconds)
| wc_ltrim start stop : window_command k (Redis.LTRIM k start stop)
| wc_lrange start stop : window_command k (Redis.LRANGE k start stop).

Definition window_effect (l : list MessageData) (c : Redis.command) : list MessageData :=
  match c with
  | Redis.LPUSH _ v => v :: l
  | Redis.LTRIM _ start stop => Redis.range l start stop
  | _ => l
  end.

(** No string is readable under [k]: the key is absent, expired, or a list. *)
Definition list_or_absent (now : Z) (k : string) (r : Redis.t) : Prop :=
  ∀ e c, Redis.lookup now k (Redis.keys r) = Some e → Redis.val e ≠ Redis.RString c.

(** How a [result] of replies is turned into the [undefined] a
    CacheService writer resolves to. *)
Definition discard {A : Type} (r : result A) : result unit :=
  match r with
  | Ok _ => Ok ()
  | Err e => Err e
  end.

(** ** Coherence of the store and the cache

    What every world reached by a sequential history satisfies: the
    unique indexes hold, every cached conversation projection names a
    stored conversation of that session, every cached list sits under a
    messages key and is bounded, every conversation counts the messages
    it owns, and every message is owned by a stored conversation. *)

Definition ident (c : Conversation.t) : ObjectId * string :=
  (Conversation._id c, Conversation.sessionId c).

Definition owned (c : Conversation.t) (w : World) : list Message.t :=
  Message.find (Conversation._id c) (messages w).

Record coherent (w : World) : Prop := {
  coh_ids : NoDup (Conversation._id <$> conversations w);
  coh_sessions : NoDup (Conversation.sessionId <$> conversations w);
  coh_cache : ∀ k e, Redis.keys (redis w) !! k = Some e →
    match Redis.val e with
    | Redis.RString cc =>
        ∃ sid, k = CacheService.conversationKey sid
               ∧ (cc_id cc, sid) ∈ (ident <$> conversations w)
    | Redis.RList l =>
        (∃ sid, k = CacheService.messagesKey sid) ∧ (length l ≤ 50)%nat
    end;
  coh_count : ∀ c, c ∈ conversations w →
    Conversation.messageCount c = Z.of_nat (length (owned c w));
  coh_owner : ∀ m, m ∈ messages w →
    Message.conversationId m ∈ (Conversation._id <$> conversations w)
}.

(** ** A small scenario

    One user creates a conversation, two messages are appended, and the
    conversation is deleted by its owner. *)

Definition no_metadata : Metadata :=
  {| userAgent := None; ipAddress := None; language := None; platform := None |}.

Definition env_at (t : Z) (u : string) (o : ObjectId) : Env :=
  {| now := t; uuid := λ _, u; objectId := o |}.

Definition scenario : list call :=
  [ CreateConversation (env_at 1000 "S" 1%nat) "u1" "general" no_metadata;
    AddMessage (env_at 2000 "m1" 2%nat) "S" "user" "hello" [];
    AddMessage (env_at 3000 "m2" 3%nat) "S" "assistant" "hi" [];
    DeleteConversation (env_at 4000 "-" 0%nat) "S" "u1" ].

Definition w_created : World := run (take 1 scenario).
Definition w_two : World := run (take 3 scenario).
Definition w_deleted : World := run scenario.

Definition message_at (t : Z) : MessageData :=
  {| md_conversationId := 1%nat; md_sessionId := "S"; md_messageId := "m";
     md_role := "user"; md_text := "hello"; md_images := []; md_attachments := [];
     md_timestamp := t; md_tokenCount := 5 |}.

(** A cache whose window for session S is full. *)
Definition full_window : list MessageData :=
  (λ i, message_at (Z.of_nat (100 - i))) <$> seq 0 50.

Definition r_full : Redis.t :=
  {| Redis.up := true;
     Redis.keys := {[ CacheService.messagesKey "S" :=
                        {| Redis.val := Redis.RList full_window; Redis.expireAt := None |} ]} |}.

(** The same scenario with one message only. *)
Definition scenario_short : list call :=
  [ CreateConversation (env_at 1000 "S" 1%nat) "u1" "general" no_metadata;
    AddMessage (env_at 2000 "m1" 2%nat) "S" "user" "hello" [];
    DeleteConversation (env_at 3000 "-" 0%nat) "S" "u1" ].

Definition w_short : World := run scenario_short.


(** ** Worlds after a cache write or a soft delete *)

(** What SETEX key 3600 leaves under a conversation key, and the world
    after cacheConversation. *)
Definition cached_entry (env : Env) (c : CachedConversation) : Redis.entry :=
  {| Redis.val := Redis.RString c; Redis.expireAt := Some (now env + 3600 * 1000) |}.

Definition cache_put (env : Env) (sid : string) (c : CachedConversation) (w : World) : World :=
  set_redis {| Redis.up := true;
               Redis.keys := <[CacheService.conversationKey sid := cached_entry env c]>
                               (Redis.keys (redis w)) |} w.

(** What LPUSH, EXPIRE 3600, LTRIM 0 49 leave under a messages key, and
    the world after cacheService.addMessage. *)
Definition window_entry (env : Env) (l : list MessageData) : Redis.entry :=
  {| Redis.val := Redis.RList l; Redis.expireAt := Some (now env + 3600 * 1000) |}.

Definition window_put (env : Env) (sid : string) (l : list MessageData) (w : World) : World :=
  set_redis {| Redis.up := true;
               Redis.keys := <[CacheService.messagesKey sid := window_entry env l]>
                               (Redis.keys (redis w)) |} w.

(** The filter [{ sessionId, userId }] of deleteConversation, the store
    after its update and the cache after its deleteSession. *)
Definition owned_by (sessionId userId : string) (c : Conversation.t) : bool :=
  bool_decide (Conversation.sessionId c = sessionId)
  && bool_decide (Conversation.userId c = userId).

Definition deactivated (c : Conversation.t) (w : World) : World :=
  set_conversations
    (Conversation.findByIdAndUpdate (Conversation._id c) Conversation.deactivate
       (conversations w)) w.

Definition session_purged (sid : string) (w : World) : World :=
  set_redis {| Redis.up := true;
               Redis.keys := delete (CacheService.sessionKey sid) (Redis.keys (redis w)) |} w.

(** Case analysis on the schedules listed by [interleavings]. *)
Ltac schedule_cases H :=
  repeat (apply elem_of_cons in H as [-> | H]); [.. | by apply elem_of_nil in H].

(** The world of the scenario after creation, with the cache unreachable. *)
Definition w_cache_down : World := step w_created (SetRedisUp false).

(** ** routes/chat.js: the upload filter *)

Definition allowedMimes : list string :=
  ["image/jpeg"; "image/png"; "image/gif"; "image/webp";
   "application/pdf"; "text/plain"; "application/json"]%string.

(** [fileFilter]: true when the callback is called with [cb(null, true)]. *)
Definition fileFilter (file : File) : bool :=
  bool_decide (mimetype file ∈ allowedMimes).

(** ** The upload loop, as a function of the files

    What [uploadFile] returns for the file that consumes the i-th uuid
    of the call, and the entries the loop of addMessage builds from it. *)

Definition upload_key (env : Env) (folder : string) (i : nat) (file : File) : string :=
  (folder +:+ "/" +:+ uuid env i +:+ "-" +:+ originalname file)%string.

Definition upload_url (s : S3.t) (key : string) : string :=
  ("https://" +:+ S3.bucketName s +:+ ".s3." +:+ S3.region s
   +:+ ".amazonaws.com/" +:+ key)%string.

Definition is_image (file : File) : bool := String.prefix "image/" (mimetype file).

Definition image_of (s : S3.t) (env : Env) (folder : string) (i : nat) (file : File) : Image :=
  {| img_url := upload_url s (upload_key env folder i file);
     img_cloudStorageKey := upload_key env folder i file;
     img_size := size file;
     img_mimeType := mimetype file |}.

Definition attachment_of (s : S3.t) (env : Env) (folder : string) (i : nat) (file : File)
  : Attachment :=
  {| att_fileName := originalname file;
     att_url := upload_url s (upload_key env folder i file);
     att_cloudStorageKey := upload_key env folder i file;
     att_size := size file;
     att_mimeType := mimetype file |}.

(** The files of one call with the index of the uuid each one consumes. *)
Definition numbered (i : nat) (files : list File) : list (nat * File) :=
  zip (seq i (length files)) files.

Definition images_of (s : S3.t) (env : Env) (folder : string) (i : nat) (files : list File)
  : list Image :=
  (λ jf, image_of s env folder jf.1 jf.2)
    <$> List.filter (λ jf, is_image jf.2) (numbered i files).

Definition attachments_of (s : S3.t) (env : Env) (folder : string) (i : nat)
    (files : list File) : list Attachment :=
  (λ jf, attachment_of s env folder jf.1 jf.2)
    <$> List.filter (λ jf, negb (is_image jf.2)) (numbered i files).

Definition keys_of (env : Env) (folder : string) (i : nat) (files : list File) : list string :=
  (λ jf, upload_key env folder jf.1 jf.2) <$> numbered i files.

Definition s3_put (keys : list string) (w : World) : World :=
  set_s3 {| S3.bucketName := S3.bucketName (s3 w); S3.region := S3.region (s3 w);
            S3.up := S3.up (s3 w); S3.objects := S3.objects (s3 w) ++ keys |} w.

(** ** backupConversation (chatService.js l.174-190, storageService.js l.62-74) *)

(** [backupData]: what is handed to the object storage. *)
Record Snapshot : Type := {
  snap_conversation : CachedConversation;
  snap_messages : list ChatService.view;
  snap_backedUpAt : Z
}.

(** storageService.backupConversation: the key is built from the
    conversation id and [Date.now()], both printed in decimal here; the
    rejection of the S3 client is not wrapped and is rendered as [None]. *)
Definition StorageService_backupConversation (env : Env) (conversationId : ObjectId)
    (data : Snapshot) : World → option string * World :=
  λ w,
    let key := ("backups/conversations/" +:+ pretty (conversationId : nat) +:+ "/"
                +:+ pretty (now env) +:+ ".json")%string in
    if S3.up (s3 w) then (Some key, s3_put [key] w) else (None, w).

(** Lines 175-186 of chatService.backupConversation: resolve the
    conversation, fetch the messages, assemble the snapshot. *)
Definition ChatService_backupData (env : Env) (sessionId : string) : M Snapshot :=
  await conversation := ChatService.getConversation env sessionId in
  match conversation with
  | None => throw ConversationNotFound
  | Some conversation =>
      await messages := ChatService.getMessages env sessionId 1 1000 in
      ret {| snap_conversation := conversation;
             snap_messages := messages;
             snap_backedUpAt := now env |}
  end.

Inductive backup_outcome : Type :=
| BackupKey (key : string)       (* resolved with the storage key *)
| BackupFailed (e : error)       (* rejected by the chat service *)
| BackupRejected.                (* rejected by the S3 client *)

Definition ChatService_backupConversation (env : Env) (sessionId : string)
  : World → backup_outcome * World :=
  λ w,
    match ChatService_backupData env sessionId w with
    | (Ok backupData, w') =>
        match StorageService_backupConversation env
                (cc_id (snap_conversation backupData)) backupData w' with
        | (Some backupKey, w'') => (BackupKey backupKey, w'')
        | (None, w'') => (BackupRejected, w'')
        end
    | (Err e, w') => (BackupFailed e, w')
    end.

(** ** What a later world keeps of a stored conversation *)

Record persists (c c' : Conversation.t) : Prop := {
  p_id : Conversation._id c' = Conversation._id c;
  p_sessionId : Conversation.sessionId c' = Conversation.sessionId c;
  p_userId : Conversation.userId c' = Conversation.userId c;
  p_type : Conversation.type c' = Conversation.type c;
  p_title : Conversation.title c' = Conversation.title c;
  p_createdAt : Conversation.createdAt c' = Conversation.createdAt c;
  p_count : Conversation.messageCount c <= Conversation.messageCount c';
  p_inactive : Conversation.isActive c = false → Conversation.isActive c' = false
}.

(** The conversations [cs] are all still there in [cs'], each in its
    place, followed by whatever was created since. *)
Definition retained (cs cs' : list Conversation.t) : Prop :=
  ∃ l added, cs' = l ++ added ∧ Forall2 persists cs l.

(** [messageData] as addMessage builds it. *)
Definition messageData_of (env : Env) (sid role content : string) (c : CachedConversation)
    (up : list Image * list Attachment) : MessageData :=
  {| md_conversationId := cc_id c; md_sessionId := sid; md_messageId := uuid env 0;
     md_role := role; md_text := content; md_images := up.1; md_attachments := up.2;
     md_timestamp := now env; md_tokenCount := Z.of_nat (String.length content) |}.

(** Two files for the upload loop: one image, one document. *)
Definition two_files : list File :=
  [ {| originalname := "scan.png"; mimetype := "image/png"; size := 2048 |};
    {| originalname := "report.pdf"; mimetype := "application/pdf"; size := 4096 |} ].

(** ** The cache window against the store *)

(** The message data a session has in the store, in insertion order. *)
Definition session_messages (sid : string) (w : World) : list MessageData :=
  Message.data
    <$> List.filter (λ m, bool_decide (md_sessionId (Message.data m) = sid)) (messages w).

(** Every window is a front part of what the store holds for the
    session, newest first. *)
Definition windows_mirror_store (w : World) : Prop :=
  ∀ now sid, cache_window now sid w `prefix_of` reverse (session_messages sid w).

(** Every stored message is filed under the conversation of its session. *)
Definition filed (w : World) : Prop :=
  ∀ m, m ∈ messages w →
       (Message.conversationId m, md_sessionId (Message.data m)) ∈ (ident <$> conversations w).

(** * Properties *)

(** ** Keys: the three prefixes keep the key families apart *)

Section keys.
Import CacheService.

Lemma conversationKey_inj s s' : conversationKey s = conversationKey s' → s = s'.
Proof. apply String.app_inj. Qed.

Lemma messagesKey_inj s s' : messagesKey s = messagesKey s' → s = s'.
Proof. apply String.app_inj. Qed.

Lemma messagesKey_conversationKey s s' : messagesKey s ≠ conversationKey s'.
Proof. unfold messagesKey, conversationKey. discriminate. Qed.

Lemma sessionKey_conversationKey s s' : sessionKey s ≠ conversationKey s'.
Proof. unfold sessionKey, conversationKey. discriminate. Qed.

Lemma sessionKey_messagesKey s s' : sessionKey s ≠ messagesKey s'.
Proof. unfold sessionKey, messagesKey. discriminate. Qed.
End keys.

(** ** Redis ranges *)

Lemma range_from_0 {A : Type} (l : list A) (stop : Z) :
  0 <= stop → Redis.range l 0 stop = take (Z.to_nat (stop + 1)) l.
Proof.
  intros Hstop. unfold Redis.range.
  repeat case_bool_decide; try lia.
  - destruct l as [|a l]; [by rewrite take_nil|]. simpl length in *. lia.
  - rewrite drop_0, !take_ge; [done | lia | lia].
  - rewrite drop_0. f_equal. lia.
Qed.

Lemma range_from_0_neg {A : Type} (l : list A) (stop : Z) :
  stop < 0 → Redis.range l 0 stop = take (Z.to_nat (Z.of_nat (length l) + stop + 1)) l.
Proof.
  intros Hstop. unfold Redis.range.
  repeat case_bool_decide; try lia.
  - destruct (decide (0 > Z.of_nat (length l) + stop)).
    + replace (Z.to_nat _) with 0%nat by lia. by rewrite take_0.
    + destruct l; [by rewrite take_nil | simpl length in *; lia].
  - rewrite drop_0. f_equal. lia.
Qed.

Lemma range_nil {A : Type} (start stop : Z) : Redis.range (@nil A) start stop = [].
Proof. unfold Redis.range. case_bool_decide; [done|]. by rewrite drop_nil, take_nil. Qed.

Lemma range_trim_50 {A : Type} (l : list A) : Redis.range l 0 49 = take 50 l.
Proof. by rewrite range_from_0. Qed.

(** The range that getRecentMessages asks for is empty exactly when the
    requested count is at most minus the length of the list. *)
Lemma range_recent_nonempty {A : Type} (l : list A) (count : Z) :
  l ≠ [] → - Z.of_nat (length l) < count → Redis.range l 0 (count - 1) ≠ [].
Proof.
  intros Hl Hcount. destruct l as [|a l]; [done|].
  destruct (decide (0 <= count - 1)) as [Hpos|Hneg].
  - rewrite range_from_0 by done.
    replace (Z.to_nat (count - 1 + 1)) with (S (Z.to_nat (count - 1))) by lia. done.
  - rewrite range_from_0_neg by lia. simpl length in *.
    replace (Z.to_nat _) with (S (Z.to_nat (Z.of_nat (S (length l)) + (count - 1)))) by lia.
    done.
Qed.

Lemma range_recent_empty {A : Type} (l : list A) (count : Z) :
  count <= - Z.of_nat (length l) → Redis.range l 0 (count - 1) = [].
Proof.
  intros Hcount. rewrite range_from_0_neg by lia.
  replace (Z.to_nat _) with 0%nat by lia. by rewrite take_0.
Qed.

(** ** Redis: what the list commands do to the window under one key *)

Lemma lookup_Some now k db e :
  Redis.lookup now k db = Some e ↔ db !! k = Some e ∧ Redis.live now e = true.
Proof.
  unfold Redis.lookup. destruct (db !! k) as [e'|] eqn:Hk.
  - destruct (Redis.live now e') eqn:Hlive; split.
    + by intros [= <-].
    + by intros [[= <-] _].
    + done.
    + intros [[= <-] Hl]. congruence.
  - split; [done|]. by intros [? _].
Qed.

Lemma lookup_insert_live now k db e :
  Redis.live now e = true → Redis.lookup now k (<[k := e]> db) = Some e.
Proof. intros Hlive. unfold Redis.lookup. by rewrite lookup_insert_eq, Hlive. Qed.

Lemma lookup_insert_other now k k' db e :
  k ≠ k' → Redis.lookup now k' (<[k := e]> db) = Redis.lookup now k' db.
Proof. intros Hne. unfold Redis.lookup. by rewrite lookup_insert_ne. Qed.

Lemma lookup_delete_same now k db : Redis.lookup now k (delete k db) = None.
Proof. unfold Redis.lookup. by rewrite lookup_delete_eq. Qed.

Lemma live_refreshed now seconds v :
  0 < seconds → Redis.live now {| Redis.val := v; Redis.expireAt := Some (now + seconds * 1000) |} = true.
Proof. intros Hs. unfold Redis.live. simpl. apply bool_decide_eq_true_2. lia. Qed.

Lemma window_lookup now k r e l :
  Redis.lookup now k (Redis.keys r) = Some e → Redis.val e = Redis.RList l →
  Redis.window now k r = l.
Proof. unfold Redis.window. intros -> Hval. destruct e as [v t]. simpl in *. by subst. Qed.

Lemma window_absent now k r :
  Redis.lookup now k (Redis.keys r) = None → Redis.window now k r = [].
Proof. unfold Redis.window. by intros ->. Qed.

Lemma lpush_window now k v r :
  Redis.up r = true → list_or_absent now k r →
  ∃ n r', Redis.call now (Redis.LPUSH k v) r = (Ok (Redis.Int n), r')
          ∧ Redis.up r' = true
          ∧ list_or_absent now k r'
          ∧ Redis.window now k r' = v :: Redis.window now k r.
Proof.
  intros Hup Hlist. unfold Redis.call. rewrite Hup. simpl.
  destruct (Redis.lookup now k (Redis.keys r)) as [e|] eqn:Hk.
  - destruct (Redis.val e) as [c|l] eqn:Hval; [by destruct (Hlist e c)|].
    apply lookup_Some in Hk as Hk'. destruct Hk' as [_ Hlive].
    eexists _, _. split; [done|]. split; [done|].
    assert (Redis.lookup now k
              (<[k:={| Redis.val := Redis.RList (v :: l); Redis.expireAt := Redis.expireAt e |}]>
                 (Redis.keys r))
            = Some {| Redis.val := Redis.RList (v :: l); Redis.expireAt := Redis.expireAt e |})
      as Hnew by (by apply lookup_insert_live).
    split.
    + intros e' c'. simpl. rewrite Hnew. by intros [= <-].
    + erewrite (window_lookup now k {| Redis.up := _ |}) by (simpl; done).
      by erewrite (window_lookup now k r) by done.
  - eexists _, _. split; [done|]. split; [done|].
    assert (Redis.lookup now k
              (<[k:={| Redis.val := Redis.RList [v]; Redis.expireAt := None |}]> (Redis.keys r))
            = Some {| Redis.val := Redis.RList [v]; Redis.expireAt := None |})
      as Hnew by (by apply lookup_insert_live).
    split.
    + intros e' c'. simpl. rewrite Hnew. by intros [= <-].
    + erewrite (window_lookup now k {| Redis.up := _ |}) by (simpl; done).
      by rewrite window_absent.
Qed.

Lemma expire_window now k seconds r :
  0 < seconds → Redis.up r = true →
  ∃ n r', Redis.call now (Redis.EXPIRE k seconds) r = (Ok (Redis.Int n), r')
          ∧ Redis.up r' = true
          ∧ (list_or_absent now k r → list_or_absent now k r')
          ∧ Redis.window now k r' = Redis.window now k r.
Proof.
  intros Hs Hup. unfold Redis.call. rewrite Hup. simpl.
  destruct (Redis.lookup now k (Redis.keys r)) as [e|] eqn:Hk.
  - rewrite bool_decide_eq_false_2 by lia.
    eexists _, _. split; [done|]. split; [done|].
    pose proof (lookup_insert_live now k (Redis.keys r) _ (live_refreshed now seconds (Redis.val e) Hs))
      as Hnew.
    split.
    + intros Hlist e' c'. simpl. rewrite Hnew. intros [= <-]. simpl. by apply Hlist.
    + unfold Redis.window. simpl. rewrite Hnew, Hk. by destruct e.
  - eexists _, _. split; [done|]. split; [done|]. split; [|by destruct r].
    intros Hlist e c. simpl. by rewrite Hk.
Qed.

Lemma ltrim_window now k start stop r :
  Redis.up r = true → list_or_absent now k r →
  ∃ r', Redis.call now (Redis.LTRIM k start stop) r = (Ok Redis.Status, r')
        ∧ Redis.up r' = true
        ∧ list_or_absent now k r'
        ∧ Redis.window now k r' = Redis.range (Redis.window now k r) start stop.
Proof.
  intros Hup Hlist. unfold Redis.call. rewrite Hup. simpl.
  destruct (Redis.lookup now k (Redis.keys r)) as [e|] eqn:Hk.
  - destruct (Redis.val e) as [c|l] eqn:Hval; [by destruct (Hlist e c)|].
    apply lookup_Some in Hk as Hk'. destruct Hk' as [_ Hlive].
    rewrite (window_lookup now k r e l) by done.
    destruct (Redis.range l start stop) as [|a l'] eqn:Hrange.
    + eexists. split; [done|]. split; [done|]. split.
      * intros e' c'. simpl. by rewrite lookup_delete_same.
      * apply window_absent. simpl. apply lookup_delete_same.
    + eexists. split; [done|]. split; [done|].
      assert (Redis.lookup now k
                (<[k:={| Redis.val := Redis.RList (a :: l'); Redis.expireAt := Redis.expireAt e |}]>
                   (Redis.keys r))
              = Some {| Redis.val := Redis.RList (a :: l'); Redis.expireAt := Redis.expireAt e |})
        as Hnew by (by apply lookup_insert_live).
      split.
      * intros e' c'. simpl. rewrite Hnew. by intros [= <-].
      * by erewrite (window_lookup now k {| Redis.up := _ |}) by (simpl; done).
  - eexists. split; [done|]. split; [done|]. split.
    + intros e c. simpl. by rewrite Hk.
    + rewrite !window_absent by (by destruct r). by rewrite range_nil.
Qed.

Lemma lrange_window now k start stop r :
  Redis.up r = true → list_or_absent now k r →
  Redis.call now (Redis.LRANGE k start stop) r
  = (Ok (Redis.Multi (Redis.range (Redis.window now k r) start stop)), r).
Proof.
  intros Hup Hlist. unfold Redis.call. rewrite Hup. simpl.
  destruct (Redis.lookup now k (Redis.keys r)) as [e|] eqn:Hk.
  - destruct (Redis.val e) as [c|l] eqn:Hval; [by destruct (Hlist e c)|].
    rewrite (window_lookup now k r e l) by done.
    destruct r; simpl in *; by subst.
  - rewrite window_absent by done. rewrite range_nil.
    destruct r; simpl in *; by subst.
Qed.

Lemma run_window now k cs r :
  Forall (window_command k) cs → Redis.up r = true → list_or_absent now k r →
  ∃ reps r', Redis.run now cs r = (Ok reps, r')
             ∧ Redis.up r' = true
             ∧ list_or_absent now k r'
             ∧ Redis.window now k r' = foldl window_effect (Redis.window now k r) cs.
Proof.
  intros Hcs. revert r. induction Hcs as [|c cs Hc _ IH]; intros r Hup Hlist.
  - by exists [], r.
  - assert (∃ rep r1, Redis.call now c r = (Ok rep, r1)
                      ∧ Redis.up r1 = true ∧ list_or_absent now k r1
                      ∧ Redis.window now k r1 = window_effect (Redis.window now k r) c)
      as (rep & r1 & Hcall & Hup1 & Hlist1 & Hwin1).
    { destruct Hc as [v|seconds Hs|start stop|start stop].
      - destruct (lpush_window now k v r Hup Hlist) as (n & r1 & ? & ? & ? & ?). eauto 10.
      - destruct (expire_window now k seconds r Hs Hup) as (n & r1 & ? & ? & ? & ?). eauto 10.
      - destruct (ltrim_window now k start stop r Hup Hlist) as (r1 & ? & ? & ? & ?). eauto 10.
      - exists (Redis.Multi (Redis.range (Redis.window now k r) start stop)), r.
        by rewrite lrange_window. }
    destruct (IH r1 Hup1 Hlist1) as (reps & r' & Hrun & Hup' & Hlist' & Hwin').
    exists (rep :: reps), r'. simpl. rewrite Hcall, Hrun, Hwin', Hwin1. done.
Qed.

Lemma addMessage_commands_window k sid m :
  k = CacheService.messagesKey sid →
  Forall (window_command k) (CacheService.addMessage_commands sid m).
Proof.
  intros ->. unfold CacheService.addMessage_commands.
  repeat constructor; lia.
Qed.

(** cacheService.addMessage is its three commands sent one after the other. *)
Lemma addMessage_as_commands env sid m w :
  CacheService.addMessage env sid m w
  = (discard (Redis.run (now env) (CacheService.addMessage_commands sid m) (redis w)).1,
     set_redis (Redis.run (now env) (CacheService.addMessage_commands sid m) (redis w)).2 w).
Proof.
  unfold CacheService.addMessage, CacheService.addMessage_commands, bind, redis_call, ret.
  simpl.
  destruct (Redis.call (now env) (Redis.LPUSH _ m) (redis w)) as [[rep1|e1] r1]; [|done].
  simpl.
  destruct (Redis.call (now env) (Redis.EXPIRE _ 3600) r1) as [[rep2|e2] r2]; [|done].
  simpl.
  destruct (Redis.call (now env) (Redis.LTRIM _ 0 49) r2) as [[rep3|e3] r3]; [|done].
  simpl. by destruct w.
Qed.

Lemma call_down now c r : Redis.up r = false → Redis.call now c r = (Err RedisUnavailable, r).
Proof. intros Hup. unfold Redis.call. by rewrite Hup. Qed.

Lemma lpush_wrongtype now k v r e c :
  Redis.up r = true → Redis.lookup now k (Redis.keys r) = Some e → Redis.val e = Redis.RString c →
  Redis.call now (Redis.LPUSH k v) r = (Err WrongType, r).
Proof.
  intros Hup Hk Hval. unfold Redis.call. rewrite Hup. simpl. rewrite Hk, Hval.
  destruct r; simpl in *; by subst.
Qed.

(** A successful cacheService.addMessage: the server was up and no string
    was in the way. *)
Lemma addMessage_Ok_inv env sid m w w' :
  CacheService.addMessage env sid m w = (Ok (), w') →
  Redis.up (redis w) = true
  ∧ list_or_absent (now env) (CacheService.messagesKey sid) (redis w).
Proof.
  intros Hadd. rewrite addMessage_as_commands in Hadd.
  unfold CacheService.addMessage_commands in Hadd. simpl in Hadd.
  destruct (Redis.up (redis w)) eqn:Hup.
  - split; [done|]. intros e c Hk Hval.
    rewrite (lpush_wrongtype _ _ _ _ e c Hup Hk Hval) in Hadd. done.
  - rewrite call_down in Hadd by done. done.
Qed.

(** ** getConversation *)

Lemma cacheConversation_up env sid c w :
  Redis.up (redis w) = true →
  CacheService.cacheConversation env sid c w = (Ok (), cache_put env sid c w).
Proof.
  intros Hup. unfold CacheService.cacheConversation, bind, redis_call, Redis.call, ret.
  rewrite Hup. simpl. done.
Qed.

Lemma cacheConversation_down env sid c w :
  Redis.up (redis w) = false →
  CacheService.cacheConversation env sid c w = (Err RedisUnavailable, w).
Proof.
  intros Hup. unfold CacheService.cacheConversation, bind, redis_call.
  rewrite call_down by done. by destruct w.
Qed.

Lemma set_redis_id w : set_redis (redis w) w = w.
Proof. by destruct w. Qed.

Lemma redis_rebuild r : Redis.up r = true → {| Redis.up := true; Redis.keys := Redis.keys r |} = r.
Proof. destruct r. simpl. by intros ->. Qed.

(** The outcome of getConversation in every situation. *)
Lemma getConversation_spec env sid w :
  ChatService.getConversation env sid w =
  if Redis.up (redis w) then
    match Redis.lookup (now env) (CacheService.conversationKey sid) (Redis.keys (redis w)) with
    | Some e =>
        match Redis.val e with
        | Redis.RString c => (Ok (Some c), w)
        | Redis.RList _ => (Err WrongType, w)
        end
    | None =>
        match active_conversation_of sid w with
        | Some d => (Ok (Some (Conversation.project d)),
                     cache_put env sid (Conversation.project d) w)
        | None => (Ok None, w)
        end
    end
  else (Err RedisUnavailable, w).
Proof.
  unfold ChatService.getConversation, CacheService.getCachedConversation, bind.
  destruct (Redis.up (redis w)) eqn:Hup.
  - unfold redis_call at 1. unfold Redis.call. rewrite Hup. simpl.
    destruct (Redis.lookup _ _ _) as [e|] eqn:Hk.
    + destruct (Redis.val e) as [c|l]; simpl.
      * unfold ret. by rewrite redis_rebuild, set_redis_id.
      * by rewrite redis_rebuild, set_redis_id.
    + simpl. rewrite redis_rebuild, set_redis_id by done.
      unfold Conversation_findOne, active_conversation_of.
      destruct (Conversation.findOne _ _) as [d|]; [|done].
      by rewrite cacheConversation_up.
  - unfold redis_call. rewrite call_down by done. by rewrite set_redis_id.
Qed.

(** ** Coherence is kept by every step *)

Lemma findOne_Some filter coll c :
  Conversation.findOne filter coll = Some c → c ∈ coll ∧ filter c = true.
Proof.
  unfold Conversation.findOne. intros H. apply List.find_some in H as [Hin Hf].
  split; [by apply list_elem_of_In | done].
Qed.

Lemma active_conversation_ident sid w d :
  active_conversation_of sid w = Some d →
  (cc_id (Conversation.project d), sid) ∈ (ident <$> conversations w).
Proof.
  intros Hd. apply findOne_Some in Hd as [Hin Hf].
  apply andb_prop in Hf as [Hsid _]. apply bool_decide_eq_true_1 in Hsid.
  apply list_elem_of_fmap. exists d. split; [|done]. unfold ident. simpl. by rewrite Hsid.
Qed.

Lemma coherent_cache_put env sid c w :
  coherent w → (cc_id c, sid) ∈ (ident <$> conversations w) →
  coherent (cache_put env sid c w).
Proof.
  intros [Hids Hsess Hcache Hcount Howner] Hin.
  split; try done. intros k e. simpl.
  destruct (decide (CacheService.conversationKey sid = k)) as [<-|Hne].
  - rewrite lookup_insert_eq. intros [= <-]. simpl. by exists sid.
  - rewrite lookup_insert_ne by done. apply Hcache.
Qed.

Lemma coherent_redis_flag b w :
  coherent w →
  coherent (set_redis {| Redis.up := b; Redis.keys := Redis.keys (redis w) |} w).
Proof. intros [Hids Hsess Hcache Hcount Howner]. by split. Qed.

Lemma coherent_cached env sid w e c :
  coherent w →
  Redis.lookup (now env) (CacheService.conversationKey sid) (Redis.keys (redis w)) = Some e →
  Redis.val e = Redis.RString c →
  (cc_id c, sid) ∈ (ident <$> conversations w).
Proof.
  intros Hcoh Hk Hval. apply lookup_Some in Hk as [Hk _].
  pose proof (coh_cache w Hcoh _ _ Hk) as Hc. rewrite Hval in Hc.
  destruct Hc as (sid' & Hkey & Hin). apply conversationKey_inj in Hkey. by subst.
Qed.

Lemma coherent_list_or_absent now sid w :
  coherent w → list_or_absent now (CacheService.messagesKey sid) (redis w).
Proof.
  intros Hcoh e c Hk Hval. apply lookup_Some in Hk as [Hk _].
  pose proof (coh_cache w Hcoh _ _ Hk) as Hc. rewrite Hval in Hc.
  destruct Hc as (sid' & Hkey & _). by apply messagesKey_conversationKey in Hkey.
Qed.

(** getConversation keeps coherence, leaves the store alone, needs the
    cache to answer, and what it returns names a stored conversation of
    the session. *)
Lemma getConversation_coherent env sid w :
  coherent w →
  coherent (ChatService.getConversation env sid w).2
  ∧ conversations (ChatService.getConversation env sid w).2 = conversations w
  ∧ messages (ChatService.getConversation env sid w).2 = messages w
  ∧ s3 (ChatService.getConversation env sid w).2 = s3 w
  ∧ Redis.up (redis (ChatService.getConversation env sid w).2) = Redis.up (redis w)
  ∧ (∀ r, (ChatService.getConversation env sid w).1 = Ok r → Redis.up (redis w) = true)
  ∧ (∀ c, (ChatService.getConversation env sid w).1 = Ok (Some c) →
          (cc_id c, sid) ∈ (ident <$> conversations w)).
Proof.
  intros Hcoh. rewrite getConversation_spec.
  destruct (Redis.up (redis w)) eqn:Hup; [|by split_and!].
  destruct (Redis.lookup _ _ _) as [e|] eqn:Hk.
  - destruct (Redis.val e) as [c|l] eqn:Hval; simpl; split_and!; try done.
    intros c' [= <-]. by eapply coherent_cached.
  - destruct (active_conversation_of sid w) as [d|] eqn:Hd; simpl; split_and!; try done.
    + apply coherent_cache_put; [done|]. by apply active_conversation_ident.
    + intros c' [= <-]. by apply active_conversation_ident.
Qed.

(** ** cacheService.addMessage, exactly *)

Lemma addMessage_spec env sid m w :
  Redis.up (redis w) = true →
  list_or_absent (now env) (CacheService.messagesKey sid) (redis w) →
  CacheService.addMessage env sid m w
  = (Ok (), window_put env sid (take 50 (m :: cache_window (now env) sid w)) w).
Proof.
  intros Hup Hlist.
  unfold CacheService.addMessage, bind, redis_call, Redis.call, ret, window_put, window_entry.
  rewrite Hup. simpl.
  set (k := CacheService.messagesKey sid).
  assert (∀ l t db, Redis.lookup (now env) k
            (<[k := {| Redis.val := Redis.RList l; Redis.expireAt := t |}]> db)
          = if Redis.live (now env) {| Redis.val := Redis.RList l; Redis.expireAt := t |}
            then Some {| Redis.val := Redis.RList l; Redis.expireAt := t |} else None) as Hput.
  { intros l t db. unfold Redis.lookup. by rewrite lookup_insert_eq. }
  destruct (Redis.lookup (now env) k (Redis.keys (redis w))) as [e|] eqn:Hk.
  - destruct (Redis.val e) as [c|l] eqn:Hval; [by destruct (Hlist e c)|].
    apply lookup_Some in Hk as Hk'. destruct Hk' as [_ Hlive].
    unfold cache_window. fold k. rewrite (window_lookup _ _ _ e l) by done.
    simpl. rewrite Hput.
    replace (Redis.live (now env) {| Redis.val := Redis.RList (m :: l);
                                      Redis.expireAt := Redis.expireAt e |}) with true
      by (by destruct e).
    simpl. rewrite Hput. rewrite live_refreshed by lia. simpl.
    rewrite range_trim_50. simpl. by rewrite !insert_insert_eq.
  - unfold cache_window. fold k. rewrite window_absent by done.
    simpl. rewrite Hput. simpl. rewrite Hput. rewrite live_refreshed by lia. simpl.
    by rewrite !insert_insert_eq.
Qed.

Lemma cache_window_put env sid l w :
  cache_window (now env) sid (window_put env sid l w) = l.
Proof.
  unfold cache_window, window_put, Redis.window, Redis.lookup. simpl.
  rewrite lookup_insert_eq.
  unfold window_entry. rewrite live_refreshed by lia. done.
Qed.

(** ** The store operations *)

Lemma Conversation_save_Ok c coll cs :
  Conversation.save c coll = Ok cs →
  cs = coll ++ [c]
  ∧ Conversation.validate c = true
  ∧ (Conversation._id c ∉ (Conversation._id <$> coll))
  ∧ (Conversation.sessionId c ∉ (Conversation.sessionId <$> coll)).
Proof.
  unfold Conversation.save. destruct (Conversation.validate c); simpl; [|done].
  case_bool_decide as Hdup; [done|]. intros [= <-]. naive_solver.
Qed.

Lemma Message_save_Ok m coll ms :
  Message.save m coll = Ok ms →
  ms = coll ++ [m]
  ∧ Message.validate m = true
  ∧ (Message.messageId m ∉ (Message.messageId <$> coll)).
Proof.
  unfold Message.save. destruct (Message.validate m); simpl; [|done].
  case_bool_decide as Hdup; [done|]. intros [= <-]. naive_solver.
Qed.

Lemma update_fmap {B : Type} (g : Conversation.t → B) id update coll :
  (∀ c, g (update c) = g c) →
  g <$> Conversation.findByIdAndUpdate id update coll = g <$> coll.
Proof.
  intros Hg. induction coll as [|c cs IH]; [done|].
  cbn [Conversation.findByIdAndUpdate].
  case_bool_decide; rewrite !fmap_cons; [by rewrite Hg | by rewrite IH].
Qed.

(** Under the unique index on [_id], the update touches the document
    with that id and nothing else. *)
Lemma update_elem_of id update coll c' :
  NoDup (Conversation._id <$> coll) →
  c' ∈ Conversation.findByIdAndUpdate id update coll →
  (c' ∈ coll ∧ Conversation._id c' ≠ id)
  ∨ (∃ c, c ∈ coll ∧ Conversation._id c = id ∧ c' = update c).
Proof.
  induction coll as [|c cs IH]; simpl; [by intros _ ?%elem_of_nil|].
  intros [Hc Hcs]%NoDup_cons. case_bool_decide as Hid.
  - intros [->|Hin]%elem_of_cons.
    + right. exists c. split; [left | done].
    + left. split; [by right|]. intros Heq. apply Hc.
      apply list_elem_of_fmap. exists c'. split; [congruence | done].
  - intros [->|Hin]%elem_of_cons.
    + left. split; [left | done].
    + destruct (IH Hcs Hin) as [[? ?]|(c0 & ? & ? & ?)].
      * left. split; [by right | done].
      * right. exists c0. split; [by right | done].
Qed.

Lemma update_elem_of_weak id update coll c' :
  c' ∈ Conversation.findByIdAndUpdate id update coll →
  c' ∈ coll ∨ (∃ c, c ∈ coll ∧ Conversation._id c = id ∧ c' = update c).
Proof.
  induction coll as [|c cs IH]; simpl; [by intros ?%elem_of_nil|].
  case_bool_decide as Hid.
  - intros [->|Hin]%elem_of_cons.
    + right. exists c. split; [left | done].
    + left. by right.
  - intros [->|Hin]%elem_of_cons.
    + left. left.
    + destruct (IH Hin) as [?|(c0 & ? & ? & ?)].
      * left. by right.
      * right. exists c0. split; [by right | done].
Qed.

Lemma find_app id ms ms' :
  Message.find id (ms ++ ms') = Message.find id ms ++ Message.find id ms'.
Proof. unfold Message.find. apply List.filter_app. Qed.

Lemma find_unowned id ms :
  (∀ m, m ∈ ms → Message.conversationId m ≠ id) → Message.find id ms = [].
Proof.
  unfold Message.find. induction ms as [|m ms IH]; [done|]. intros Hms. simpl.
  rewrite bool_decide_eq_false_2 by (apply Hms; left).
  apply IH. intros m' Hm'. apply Hms. by right.
Qed.

(** The upload loop only touches the object storage. *)
Lemma uploadFiles_frame env sid files : ∀ i images attachments w,
  conversations (ChatService.uploadFiles env sid i files images attachments w).2 = conversations w
  ∧ messages (ChatService.uploadFiles env sid i files images attachments w).2 = messages w
  ∧ redis (ChatService.uploadFiles env sid i files images attachments w).2 = redis w.
Proof.
  induction files as [|file rest IH]; intros i images attachments w; [done|].
  simpl. unfold bind, StorageService.uploadFile.
  destruct (S3.up (s3 w)); [|done].
  destruct (String.prefix _ _).
  - match goal with |- context [ChatService.uploadFiles _ _ _ _ ?im ?att ?w'] =>
      destruct (IH (S i) im att w') as (-> & -> & ->) end. done.
  - match goal with |- context [ChatService.uploadFiles _ _ _ _ ?im ?att ?w'] =>
      destruct (IH (S i) im att w') as (-> & -> & ->) end. done.
Qed.

Lemma coherent_ext w w' :
  conversations w' = conversations w → messages w' = messages w →
  Redis.keys (redis w') = Redis.keys (redis w) →
  coherent w → coherent w'.
Proof.
  intros Hc Hm Hr [Hids Hsess Hcache Hcount Howner].
  split; unfold owned in *; rewrite ?Hc, ?Hm, ?Hr; done.
Qed.

Lemma ident_id cid sid (coll : list Conversation.t) :
  (cid, sid) ∈ (ident <$> coll) → cid ∈ (Conversation._id <$> coll).
Proof.
  intros (c & [= -> ->] & Hin)%list_elem_of_fmap.
  apply list_elem_of_fmap. by exists c.
Qed.

Lemma coherent_add_conversation c cs w :
  coherent w → Conversation.save c (conversations w) = Ok cs →
  Conversation.messageCount c = 0 →
  coherent (set_conversations cs w).
Proof.
  intros [Hids Hsess Hcache Hcount Howner] (-> & _ & Hid & Hsid)%Conversation_save_Ok Hzero.
  split; simpl.
  - rewrite fmap_app. apply NoDup_app. split; [done|]. split; [|apply NoDup_singleton].
    intros x Hx [->|[]%elem_of_nil]%elem_of_cons. done.
  - rewrite fmap_app. apply NoDup_app. split; [done|]. split; [|apply NoDup_singleton].
    intros x Hx [->|[]%elem_of_nil]%elem_of_cons. done.
  - intros k e Hk. specialize (Hcache k e Hk). destruct (Redis.val e) as [cc|l]; [|done].
    destruct Hcache as (sid & -> & Hin). exists sid. split; [done|].
    rewrite fmap_app. apply elem_of_app. by left.
  - intros c' [Hc'|[->|[]%elem_of_nil]%elem_of_cons]%elem_of_app.
    + by apply Hcount.
    + rewrite Hzero. unfold owned. simpl. rewrite find_unowned; [done|].
      intros m Hm Heq. apply Hid. rewrite <- Heq. by apply Howner.
  - intros m Hm. rewrite fmap_app. apply elem_of_app. left. by apply Howner.
Qed.

Lemma coherent_append env sid cid m l w :
  coherent w → (cid, sid) ∈ (ident <$> conversations w) →
  Message.conversationId m = cid → (length l ≤ 50)%nat →
  coherent (set_conversations
              (Conversation.findByIdAndUpdate cid (Conversation.touch (now env)) (conversations w))
              (window_put env sid l (set_messages (messages w ++ [m]) w))).
Proof.
  intros [Hids Hsess Hcache Hcount Howner] Hcid Hm Hlen.
  split; simpl.
  - by rewrite update_fmap.
  - by rewrite update_fmap.
  - intros k e. rewrite (update_fmap ident) by done.
    destruct (decide (CacheService.messagesKey sid = k)) as [<-|Hne].
    + rewrite lookup_insert_eq. intros [= <-]. simpl. split; [by exists sid | done].
    + rewrite lookup_insert_ne by done. apply Hcache.
  - intros c' Hc'. unfold owned. simpl. rewrite find_app.
    apply update_elem_of in Hc' as [[Hin Hne]|(c & Hin & Hid & ->)]; [| |done].
    + rewrite (find_unowned _ [m]).
      * rewrite app_nil_r. by apply Hcount.
      * intros m' ->%list_elem_of_singleton. congruence.
    + assert (Message.find (Conversation._id (Conversation.touch (now env) c)) [m] = [m]) as ->.
      { unfold Message.find. simpl. by rewrite bool_decide_eq_true_2 by congruence. }
      rewrite length_app. simpl. rewrite (Hcount c Hin). unfold owned. lia.
  - intros m' [Hm'|Hm'%list_elem_of_singleton]%elem_of_app.
    + rewrite update_fmap by done. by apply Howner.
    + subst m'. rewrite update_fmap by done. rewrite Hm. by eapply ident_id.
Qed.

Lemma coherent_deactivate id w :
  coherent w →
  coherent (set_conversations
              (Conversation.findByIdAndUpdate id Conversation.deactivate (conversations w)) w).
Proof.
  intros [Hids Hsess Hcache Hcount Howner].
  split; simpl.
  - by rewrite update_fmap.
  - by rewrite update_fmap.
  - intros k e. rewrite (update_fmap ident) by done. apply Hcache.
  - intros c' Hc'. unfold owned. simpl.
    apply update_elem_of_weak in Hc' as [Hin|(c & Hin & Hid & ->)].
    + by apply Hcount.
    + simpl. by apply Hcount.
  - intros m' Hm'. rewrite update_fmap by done. by apply Howner.
Qed.

Lemma coherent_del k w :
  coherent w →
  coherent (set_redis {| Redis.up := true; Redis.keys := delete k (Redis.keys (redis w)) |} w).
Proof.
  intros [Hids Hsess Hcache Hcount Howner].
  split; simpl; try done.
  intros k' e. destruct (decide (k = k')) as [<-|Hne].
  - by rewrite lookup_delete_eq.
  - rewrite lookup_delete_ne by done. apply Hcache.
Qed.

Lemma coherent_empty : coherent empty_world.
Proof.
  split; simpl; try apply NoDup_nil_2.
  - intros k e. by rewrite lookup_empty.
  - by intros c ?%elem_of_nil.
  - by intros m ?%elem_of_nil.
Qed.

Lemma cache_window_cache_put env now' sid sid' c w :
  cache_window now' sid' (cache_put env sid c w) = cache_window now' sid' w.
Proof.
  unfold cache_window, cache_put, Redis.window. simpl.
  rewrite lookup_insert_other; [done|]. apply not_eq_sym, messagesKey_conversationKey.
Qed.

Lemma getConversation_window env sid now' sid' w :
  cache_window now' sid' (ChatService.getConversation env sid w).2 = cache_window now' sid' w.
Proof.
  rewrite getConversation_spec.
  destruct (Redis.up (redis w)); [|done].
  destruct (Redis.lookup _ _ _) as [e|].
  - by destruct (Redis.val e).
  - destruct (active_conversation_of sid w); [|done]. apply cache_window_cache_put.
Qed.

(** ** createConversation *)

Lemma createConversation_spec env uid ty md w :
  ChatService.createConversation env uid ty md w =
  match Conversation.save (Conversation.new env (uuid env 0) uid ty md) (conversations w) with
  | Err e => (Err e, w)
  | Ok cs =>
      if Redis.up (redis w)
      then (Ok (Conversation.new env (uuid env 0) uid ty md),
            cache_put env (uuid env 0)
              (Conversation.project (Conversation.new env (uuid env 0) uid ty md))
              (set_conversations cs w))
      else (Err RedisUnavailable, set_conversations cs w)
  end.
Proof.
  unfold ChatService.createConversation, bind, Conversation_save.
  destruct (Conversation.save _ _) as [cs|e]; [|done].
  destruct (Redis.up (redis w)) eqn:Hup.
  - by rewrite cacheConversation_up.
  - by rewrite cacheConversation_down.
Qed.

Lemma createConversation_coherent env uid ty md w :
  coherent w → coherent (ChatService.createConversation env uid ty md w).2.
Proof.
  intros Hcoh. rewrite createConversation_spec.
  destruct (Conversation.save _ _) as [cs|e] eqn:Hsave; [|done].
  pose proof (coherent_add_conversation _ _ _ Hcoh Hsave eq_refl) as Hcoh'.
  destruct (Redis.up (redis w)); [|done]. simpl.
  apply coherent_cache_put; [done|].
  apply Conversation_save_Ok in Hsave as (-> & _). simpl.
  rewrite fmap_app. apply elem_of_app. right. by left.
Qed.

(** ** addMessage *)

(** A successful addMessage in a coherent world: it found the stored
    conversation of the session, appended exactly one message owned by
    it, sent the push-expire-trim to the cache, and applied the
    increment to that conversation. *)
Lemma chat_addMessage_Ok env sid role content files w m w' :
  coherent w →
  ChatService.addMessage env sid role content files w = (Ok m, w') →
  ∃ cid, (cid, sid) ∈ (ident <$> conversations w)
    ∧ Message.conversationId m = cid
    ∧ messages w' = messages w ++ [m]
    ∧ conversations w' =
        Conversation.findByIdAndUpdate cid (Conversation.touch (now env)) (conversations w)
    ∧ cache_window (now env) sid w' = take 50 (Message.data m :: cache_window (now env) sid w)
    ∧ Redis.up (redis w') = true
    ∧ coherent w'.
Proof.
  intros Hcoh. unfold ChatService.addMessage, bind.
  destruct (getConversation_coherent env sid w Hcoh)
    as (Hcoh1 & Hc1 & Hm1 & _ & Hup1 & Hok1 & Hid1).
  destruct (ChatService.getConversation env sid w) as [[[c|]|e] w1] eqn:Hget; try done.
  simpl in *. specialize (Hid1 c eq_refl). specialize (Hok1 _ eq_refl).
  pose proof (uploadFiles_frame env sid files 1%nat [] [] w1) as (Hc2 & Hm2 & Hr2).
  destruct (ChatService.uploadFiles env sid 1 files [] [] w1) as [[up|e] w2]; [|done].
  simpl in *. unfold Message_save.
  destruct (Message.save _ (messages w2)) as [ms|e] eqn:Hsave; [|done].
  apply Message_save_Ok in Hsave as (-> & _ & _).
  set (md := {| md_conversationId := cc_id c; md_messageId := uuid env 0 |}).
  set (w3 := set_messages _ w2).
  assert (coherent w2) as Hcoh2.
  { apply (coherent_ext w1); [done | done | by rewrite Hr2 | done]. }
  assert (Redis.up (redis w3) = true) as Hup3 by (simpl; congruence).
  assert (list_or_absent (now env) (CacheService.messagesKey sid) (redis w3)) as Hlist3.
  { simpl. by apply coherent_list_or_absent. }
  rewrite (addMessage_spec env sid md w3 Hup3 Hlist3).
  unfold Conversation_findByIdAndUpdate, ret. intros [= <- <-].
  assert (cache_window (now env) sid w3 = cache_window (now env) sid w) as Hwin.
  { rewrite <- (getConversation_window env sid (now env) sid w), Hget.
    unfold cache_window. simpl. by rewrite Hr2. }
  exists (cc_id c). split_and!.
  - done.
  - done.
  - simpl. by rewrite Hm2, Hm1.
  - simpl. by rewrite Hc2, Hc1.
  - rewrite <- Hwin. apply (cache_window_put env sid).
  - done.
  - apply (coherent_append env sid (cc_id c) (Message.new env md) _ w2 Hcoh2).
    + by rewrite Hc2, Hc1.
    + done.
    + change (length (take 50 (md :: cache_window (now env) sid w3)) ≤ 50)%nat.
      rewrite length_take. lia.
Qed.

Lemma chat_addMessage_coherent env sid role content files w :
  coherent w → coherent (ChatService.addMessage env sid role content files w).2.
Proof.
  intros Hcoh.
  destruct (ChatService.addMessage env sid role content files w) as [[m|e] w'] eqn:Hadd.
  - by destruct (chat_addMessage_Ok _ _ _ _ _ _ _ _ Hcoh Hadd) as (cid & _ & _ & _ & _ & _ & _ & ?).
  - revert Hadd. unfold ChatService.addMessage, bind.
    destruct (getConversation_coherent env sid w Hcoh)
      as (Hcoh1 & Hc1 & Hm1 & _ & Hup1 & Hok1 & Hid1).
    destruct (ChatService.getConversation env sid w) as [[[c|]|e1] w1] eqn:Hget;
      simpl in *; [| by intros [= _ <-] | by intros [= _ <-]].
    specialize (Hok1 _ eq_refl).
    pose proof (uploadFiles_frame env sid files 1%nat [] [] w1) as (Hc2 & Hm2 & Hr2).
    assert (coherent (ChatService.uploadFiles env sid 1 files [] [] w1).2) as Hcoh2.
    { apply (coherent_ext w1); [done | done | by rewrite Hr2 | done]. }
    destruct (ChatService.uploadFiles env sid 1 files [] [] w1) as [[up|e2] w2];
      simpl in *; [| by intros [= _ <-]].
    unfold Message_save.
    destruct (Message.save _ (messages w2)) as [ms|e3] eqn:Hsave; [| by intros [= _ <-]].
    set (md := {| md_conversationId := cc_id c; md_messageId := uuid env 0 |}).
    set (w3 := set_messages _ w2).
    assert (Redis.up (redis w3) = true) as Hup3 by (simpl; congruence).
    assert (list_or_absent (now env) (CacheService.messagesKey sid) (redis w3)) as Hlist3.
    { simpl. by apply coherent_list_or_absent. }
    rewrite (addMessage_spec env sid md w3 Hup3 Hlist3). done.
Qed.

(** ** deleteConversation *)

Lemma deleteConversation_spec env sid uid w :
  ChatService.deleteConversation env sid uid w =
  match Conversation.findOne (owned_by sid uid) (conversations w) with
  | None => (Err ConversationNotFound, w)
  | Some c =>
      if Redis.up (redis w) then (Ok true, session_purged sid (deactivated c w))
      else (Err RedisUnavailable, deactivated c w)
  end.
Proof.
  unfold ChatService.deleteConversation, bind, Conversation_findOne.
  change (λ c, bool_decide (Conversation.sessionId c = sid)
               && bool_decide (Conversation.userId c = uid)) with (owned_by sid uid).
  destruct (Conversation.findOne _ _) as [c|]; [|done].
  unfold Conversation_findByIdAndUpdate, CacheService.deleteSession, bind, redis_call. simpl.
  destruct (Redis.up (redis w)) eqn:Hup.
  - unfold Redis.call. simpl. rewrite Hup. simpl.
    by destruct (Redis.lookup _ _ _).
  - by rewrite call_down.
Qed.

Lemma deleteConversation_coherent env sid uid w :
  coherent w → coherent (ChatService.deleteConversation env sid uid w).2.
Proof.
  intros Hcoh. rewrite deleteConversation_spec.
  destruct (Conversation.findOne _ _) as [c|]; [|done].
  pose proof (coherent_deactivate (Conversation._id c) w Hcoh) as Hcoh'.
  destruct (Redis.up (redis w)); [|done]. by apply coherent_del.
Qed.

(** ** getMessages *)

Lemma getRecentMessages_world env sid count w :
  (CacheService.getRecentMessages env sid count w).2 = w.
Proof.
  unfold CacheService.getRecentMessages, bind, redis_call.
  destruct (Redis.up (redis w)) eqn:Hup.
  - unfold Redis.call. rewrite Hup. simpl.
    destruct (Redis.lookup _ _ _) as [e|]; [destruct (Redis.val e)|];
      simpl; by rewrite redis_rebuild, set_redis_id.
  - rewrite call_down by done. by rewrite set_redis_id.
Qed.

Lemma getRecentMessages_spec env sid count w :
  Redis.up (redis w) = true →
  list_or_absent (now env) (CacheService.messagesKey sid) (redis w) →
  CacheService.getRecentMessages env sid count w
  = (Ok (Redis.range (cache_window (now env) sid w) 0 (count - 1)), w).
Proof.
  intros Hup Hlist. unfold CacheService.getRecentMessages, bind, redis_call.
  rewrite lrange_window by done. unfold ret. by rewrite set_redis_id.
Qed.

Lemma getMessages_store_world env sid page limit w :
  (ChatService.getMessages_store env sid page limit w).2
  = (ChatService.getConversation env sid w).2.
Proof.
  unfold ChatService.getMessages_store, bind.
  destruct (ChatService.getConversation env sid w) as [[[c|]|e] w1]; try done.
  by destruct (paginate _ _ _).
Qed.

Lemma getMessages_world env sid page limit w :
  (ChatService.getMessages env sid page limit w).2 = w
  ∨ (ChatService.getMessages env sid page limit w).2 = (ChatService.getConversation env sid w).2.
Proof.
  unfold ChatService.getMessages.
  destruct (bool_decide (page = 1) && bool_decide (limit <= 10)).
  - unfold bind. pose proof (getRecentMessages_world env sid limit w) as Hw.
    destruct (CacheService.getRecentMessages env sid limit w) as [[l|e] w1];
      simpl in Hw; subst w1; [|by left].
    case_bool_decide; [by left|]. right. apply getMessages_store_world.
  - right. apply getMessages_store_world.
Qed.

(** ** Every history leads to a coherent world *)

Lemma step_coherent w c : coherent w → coherent (step w c).
Proof.
  intros Hcoh. destruct c; simpl.
  - by apply createConversation_coherent.
  - by apply getConversation_coherent.
  - by apply chat_addMessage_coherent.
  - destruct (getMessages_world env sessionId page limit w) as [-> | ->]; [done|].
    by apply getConversation_coherent.
  - unfold ChatService.getUserConversations. by destruct (paginate _ _ _).
  - by apply deleteConversation_coherent.
  - by apply coherent_redis_flag.
  - by apply (coherent_ext w).
Qed.

Lemma run_coherent history : coherent (run history).
Proof.
  unfold run. induction history as [|c history IH] using rev_ind.
  - apply coherent_empty.
  - rewrite foldl_app. simpl. by apply step_coherent.
Qed.

(** ** The cache recency window *)



(** ** Concurrent appends to one window *)

Lemma take_cons_take {A : Type} n (x : A) l :
  take (S n) (x :: take (S n) l) = take (S n) (x :: l).
Proof. simpl. f_equal. rewrite take_take. f_equal. lia. Qed.

Lemma interleaved_nil_l {A : Type} (l2 l : list A) : interleaved [] l2 l → l = l2.
Proof.
  revert l. induction l2 as [|b l2 IH]; intros l Hl; inversion Hl; subst; [done|].
  f_equal. by apply IH.
Qed.

Lemma interleaved_nil_r {A : Type} (l1 l : list A) : interleaved l1 [] l → l = l1.
Proof.
  revert l. induction l1 as [|a l1 IH]; intros l Hl; inversion Hl; subst; [done|].
  f_equal. by apply IH.
Qed.

Lemma interleavings_cons {A : Type} (a b : A) l1 l2 :
  interleavings (a :: l1) (b :: l2)
  = ((a ::.) <$> interleavings l1 (b :: l2)) ++ ((b ::.) <$> interleavings (a :: l1) l2).
Proof. done. Qed.

(** [interleavings] lists every interleaving. *)
Lemma interleavings_complete {A : Type} (l1 l2 l : list A) :
  interleaved l1 l2 l → l ∈ interleavings l1 l2.
Proof.
  induction 1 as [|a l1 l2 l Hl IH|b l1 l2 l Hl IH].
  - simpl. left.
  - destruct l2 as [|b l2].
    + apply interleaved_nil_r in Hl as ->. destruct l1; simpl; left.
    + rewrite interleavings_cons. apply elem_of_app. left.
      apply list_elem_of_fmap. by exists l.
  - destruct l1 as [|a l1].
    + apply interleaved_nil_l in Hl as ->. simpl. left.
    + rewrite interleavings_cons. apply elem_of_app. right.
      apply list_elem_of_fmap. by exists l.
Qed.

(** C8, as the code has it. The window update of an append is not one
    cache operation: cacheService.addMessage sends LPUSH, EXPIRE 3600 and
    LTRIM 0 49 as three separate commands, one after the other.  Each
    command is atomic at the server, and whatever the order in which the
    commands of two appends to the same session reach it, the window ends
    as it would after the two appends run one after the other in one of
    the two orders: the two new messages in front of the previous entries,
    cut to 50, nothing duplicated and nothing dropped. *)
Theorem cache_append_three_commands :
  (∀ env sid m w,
     CacheService.addMessage env sid m w
     = (discard (Redis.run (now env)
                   [Redis.LPUSH (CacheService.messagesKey sid) m;
                    Redis.EXPIRE (CacheService.messagesKey sid) 3600;
                    Redis.LTRIM (CacheService.messagesKey sid) 0 49] (redis w)).1,
        set_redis (Redis.run (now env)
                     [Redis.LPUSH (CacheService.messagesKey sid) m;
                      Redis.EXPIRE (CacheService.messagesKey sid) 3600;
                      Redis.LTRIM (CacheService.messagesKey sid) 0 49] (redis w)).2 w))
  ∧ (∀ now sid m1 m2 r schedule,
       Redis.up r = true →
       list_or_absent now (CacheService.messagesKey sid) r →
       interleaved (CacheService.addMessage_commands sid m1)
                   (CacheService.addMessage_commands sid m2) schedule →
       ∃ replies r',
         Redis.run now schedule r = (Ok replies, r')
         ∧ (Redis.window now (CacheService.messagesKey sid) r'
            = take 50 (m2 :: m1 :: Redis.window now (CacheService.messagesKey sid) r)
            ∨ Redis.window now (CacheService.messagesKey sid) r'
              = take 50 (m1 :: m2 :: Redis.window now (CacheService.messagesKey sid) r)))
  ∧ (∀ now sid m1 m2 r,
       Redis.up r = true →
       list_or_absent now (CacheService.messagesKey sid) r →
       ∃ replies r',
         Redis.run now (CacheService.addMessage_commands sid m1
                        ++ CacheService.addMessage_commands sid m2) r = (Ok replies, r')
         ∧ Redis.window now (CacheService.messagesKey sid) r'
           = take 50 (m2 :: m1 :: Redis.window now (CacheService.messagesKey sid) r)).
Proof.
  split_and!.
  - intros env sid m w. apply addMessage_as_commands.
  - intros now sid m1 m2 r schedule Hup Hlist Hin%interleavings_complete.
    set (k := CacheService.messagesKey sid) in *.
    assert (Forall (window_command k) schedule
            ∧ (foldl window_effect (Redis.window now k r) schedule
               = take 50 (m2 :: m1 :: Redis.window now k r)
               ∨ foldl window_effect (Redis.window now k r) schedule
                 = take 50 (m1 :: m2 :: Redis.window now k r))) as [Hcs Heff].
    { unfold CacheService.addMessage_commands in Hin. fold k in Hin.
      cbn [interleavings fmap list_fmap app] in Hin.
      schedule_cases Hin;
        (split; [repeat constructor; lia|]);
        cbn [foldl window_effect];
        rewrite !range_trim_50, ?take_idemp, ?take_cons_take, ?take_idemp;
        first [by left | by right]. }
    destruct (run_window now k schedule r Hcs Hup Hlist) as (replies & r' & Hrun & _ & _ & Hwin).
    exists replies, r'. split; [done|]. by rewrite Hwin.
  - intros now sid m1 m2 r Hup Hlist.
    set (k := CacheService.messagesKey sid) in *.
    destruct (run_window now k (CacheService.addMessage_commands sid m1
                                ++ CacheService.addMessage_commands sid m2) r)
      as (replies & r' & Hrun & _ & _ & Hwin); [|done|done|].
    { apply Forall_app. split; by apply addMessage_commands_window. }
    exists replies, r'. split; [done|]. rewrite Hwin.
    unfold CacheService.addMessage_commands. cbn [app foldl window_effect].
    by rewrite !range_trim_50, take_cons_take.
Qed.

Lemma r_full_list_or_absent now : list_or_absent now (CacheService.messagesKey "S") r_full.
Proof.
  intros e c Hk Hval. apply lookup_Some in Hk as [Hk _].
  unfold r_full in Hk. simpl in Hk. rewrite lookup_singleton_eq in Hk.
  injection Hk as <-. done.
Qed.

Lemma cache_append_three_commands_witness :
  let k := CacheService.messagesKey "S" in
  let schedule :=
    [Redis.LPUSH k (message_at 5000); Redis.LPUSH k (message_at 5001);
     Redis.EXPIRE k 3600; Redis.EXPIRE k 3600; Redis.LTRIM k 0 49; Redis.LTRIM k 0 49] in
  interleaved (CacheService.addMessage_commands "S" (message_at 5000))
              (CacheService.addMessage_commands "S" (message_at 5001)) schedule
  ∧ ∃ replies r',
      Redis.run 5002 schedule r_full = (Ok replies, r')
      ∧ (Redis.window 5002 k r'
         = take 50 (message_at 5001 :: message_at 5000 :: Redis.window 5002 k r_full)
         ∨ Redis.window 5002 k r'
           = take 50 (message_at 5000 :: message_at 5001 :: Redis.window 5002 k r_full)).
Proof.
  intros k schedule.
  assert (interleaved (CacheService.addMessage_commands "S" (message_at 5000))
                      (CacheService.addMessage_commands "S" (message_at 5001)) schedule)
    as Hin.
  { unfold CacheService.addMessage_commands. subst schedule k.
    apply interleaved_left, interleaved_right, interleaved_left, interleaved_right,
      interleaved_left, interleaved_right, interleaved_nil. }
  split; [exact Hin|].
  exact (proj1 (proj2 cache_append_three_commands) 5002 "S"%string
           (message_at 5000) (message_at 5001) r_full schedule
           eq_refl (r_full_list_or_absent 5002) Hin).
Defined.

(** C8, as stated, fails: between the LPUSH and the LTRIM of one append
    the server serves other clients.  With a full window, a reader that
    asks for the whole list in that gap (the LRANGE 0 -1 that
    getRecentMessages sends for count 0) is handed 51 entries, a window
    that exists neither before nor after the append. *)
Lemma cache_append_is_divisible :
  let k := CacheService.messagesKey "S" in
  let reader := [Redis.LRANGE k 0 (-1)] in
  ∃ schedule replies r' seen,
    interleaved (CacheService.addMessage_commands "S" (message_at 5000)) reader schedule
    ∧ Redis.run 5000 schedule r_full = (Ok replies, r')
    ∧ replies !! 1%nat = Some (Redis.Multi seen)
    ∧ length seen = 51%nat
    ∧ length (Redis.window 5000 k r_full) = 50%nat
    ∧ length (Redis.window 5000 k r') = 50%nat
    ∧ length (CacheService.addMessage_commands "S" (message_at 5000)) = 3%nat.
Proof.
  intros k reader.
  exists [Redis.LPUSH k (message_at 5000); Redis.LRANGE k 0 (-1);
          Redis.EXPIRE k 3600; Redis.LTRIM k 0 49].
  eexists _, _, _. split_and!.
  - unfold CacheService.addMessage_commands. subst reader k.
    apply interleaved_left, interleaved_right, interleaved_left, interleaved_left,
      interleaved_nil.
  - vm_compute. reflexivity.
  - reflexivity.
  - vm_compute. reflexivity.
  - vm_compute. reflexivity.
  - vm_compute. reflexivity.
  - reflexivity.
Qed.

(** ** Reading a conversation through the cache *)

(** C2, as the code has it. getConversation asks the cache first.  A
    cached projection is returned as it is.  On a miss it queries the
    store for the conversation of that session with isActive = true,
    puts the projection of what it finds into the cache for 3600 s, and
    reports not-found (null) only when the store has no such
    conversation.  A cache error is not caught: it is raised to the
    caller, the store is not asked, and the answer is never not-found. *)
Theorem getConversation_read_through env sid w :
  (∀ e c, Redis.up (redis w) = true →
          Redis.lookup (now env) (CacheService.conversationKey sid) (Redis.keys (redis w)) = Some e →
          Redis.val e = Redis.RString c →
          ChatService.getConversation env sid w = (Ok (Some c), w))
  ∧ (∀ d, Redis.up (redis w) = true →
          Redis.lookup (now env) (CacheService.conversationKey sid) (Redis.keys (redis w)) = None →
          active_conversation_of sid w = Some d →
          ChatService.getConversation env sid w
          = (Ok (Some (Conversation.project d)), cache_put env sid (Conversation.project d) w)
          ∧ Redis.keys (redis (cache_put env sid (Conversation.project d) w))
              !! CacheService.conversationKey sid
            = Some {| Redis.val := Redis.RString (Conversation.project d);
                      Redis.expireAt := Some (now env + 3600 * 1000) |})
  ∧ (Redis.up (redis w) = true →
     Redis.lookup (now env) (CacheService.conversationKey sid) (Redis.keys (redis w)) = None →
     active_conversation_of sid w = None →
     ChatService.getConversation env sid w = (Ok None, w))
  ∧ (∀ w', ChatService.getConversation env sid w = (Ok None, w') →
           active_conversation_of sid w = None ∧ w' = w)
  ∧ (Redis.up (redis w) = false →
     ChatService.getConversation env sid w = (Err RedisUnavailable, w)).
Proof.
  rewrite getConversation_spec. split_and!.
  - intros e c -> -> ->. done.
  - intros d -> -> ->. split; [done|]. simpl. by rewrite lookup_insert_eq.
  - intros -> -> ->. done.
  - intros w'. destruct (Redis.up (redis w)); [|done].
    destruct (Redis.lookup _ _ _) as [e|]; [by destruct (Redis.val e)|].
    destruct (active_conversation_of sid w); [done|]. by intros [= <-].
  - intros ->. done.
Qed.

Lemma getConversation_read_through_witness :
  ChatService.getConversation (env_at 1500 "-" 0%nat) "S" w_created
  = (Ok (Some {| cc_id := 1%nat; cc_sessionId := "S"; cc_userId := "u1";
                 cc_type := "general"; cc_createdAt := 1000 |}), w_created)
  ∧ (ChatService.getConversation (env_at 3700000 "-" 0%nat) "S" w_created).1
    = Ok (Some {| cc_id := 1%nat; cc_sessionId := "S"; cc_userId := "u1";
                  cc_type := "general"; cc_createdAt := 1000 |})
  ∧ ChatService.getConversation (env_at 1500 "-" 0%nat) "T" w_created = (Ok None, w_created)
  ∧ ChatService.getConversation (env_at 1500 "-" 0%nat) "S" w_cache_down
    = (Err RedisUnavailable, w_cache_down).
Proof.
  split_and!.
  - eapply (proj1 (getConversation_read_through (env_at 1500 "-" 0%nat) "S" w_created)).
    + reflexivity.
    + vm_compute. reflexivity.
    + reflexivity.
  - pose proof (proj1 (proj2 (getConversation_read_through
                                (env_at 3700000 "-" 0%nat) "S" w_created))) as Hmiss.
    edestruct Hmiss as [-> _].
    + reflexivity.
    + vm_compute. reflexivity.
    + vm_compute. reflexivity.
    + reflexivity.
  - apply (proj1 (proj2 (proj2 (getConversation_read_through
                                  (env_at 1500 "-" 0%nat) "T" w_created)))).
    + reflexivity.
    + vm_compute. reflexivity.
    + vm_compute. reflexivity.
  - apply (proj2 (proj2 (proj2 (proj2 (getConversation_read_through
                                         (env_at 1500 "-" 0%nat) "S" w_cache_down))))).
    reflexivity.
Defined.

(** C2, as stated, fails on a cache error: with the cache unreachable and
    the conversation active in the store, getConversation does not fall
    back to the store; the cache error is what the caller gets. *)
Lemma getConversation_cache_error_is_raised :
  (CacheService.getCachedConversation (env_at 1500 "-" 0%nat) "S" w_cache_down).1
  = Err RedisUnavailable
  ∧ (∃ d, active_conversation_of "S" w_cache_down = Some d)
  ∧ ChatService.getConversation (env_at 1500 "-" 0%nat) "S" w_cache_down
    = (Err RedisUnavailable, w_cache_down)
  ∧ ¬ (∃ c w', ChatService.getConversation (env_at 1500 "-" 0%nat) "S" w_cache_down
               = (Ok (Some c), w')).
Proof.
  assert (ChatService.getConversation (env_at 1500 "-" 0%nat) "S" w_cache_down
          = (Err RedisUnavailable, w_cache_down)) as Hget by (vm_compute; reflexivity).
  split_and!.
  - vm_compute. reflexivity.
  - eexists. vm_compute. reflexivity.
  - exact Hget.
  - intros (c & w' & Hc). rewrite Hget in Hc. discriminate.
Qed.

(** ** Soft delete *)

Lemma findOne_update filter id update coll c :
  NoDup (Conversation._id <$> coll) →
  (∀ x, filter (update x) = filter x) →
  Conversation.findOne filter coll = Some c →
  Conversation.findOne filter (Conversation.findByIdAndUpdate id update coll)
  = Some (if bool_decide (Conversation._id c = id) then update c else c).
Proof.
  intros Hnd Hf. unfold Conversation.findOne. induction coll as [|x xs IH]; [done|].
  apply NoDup_cons in Hnd as [Hx Hxs].
  cbn [Conversation.findByIdAndUpdate].
  destruct (decide (Conversation._id x = id)) as [Hidx|Hidx].
  - rewrite (bool_decide_eq_true_2 _ Hidx). cbn [List.find]. rewrite Hf.
    destruct (filter x) eqn:Hfx.
    + intros [= <-]. by rewrite bool_decide_eq_true_2.
    + intros Hc. rewrite Hc. rewrite bool_decide_eq_false_2; [done|].
      intros Heq. apply Hx. apply list_elem_of_fmap. exists c.
      split; [congruence|]. apply List.find_some in Hc as [Hc _]. by apply list_elem_of_In.
  - rewrite (bool_decide_eq_false_2 _ Hidx). cbn [List.find].
    destruct (filter x) eqn:Hfx.
    + intros [= <-]. by rewrite bool_decide_eq_false_2.
    + by apply IH.
Qed.

Lemma update_idemp id update coll :
  (∀ x, Conversation._id (update x) = Conversation._id x) →
  (∀ x, update (update x) = update x) →
  Conversation.findByIdAndUpdate id update (Conversation.findByIdAndUpdate id update coll)
  = Conversation.findByIdAndUpdate id update coll.
Proof.
  intros Hid Hidem. induction coll as [|x xs IH]; [done|]. simpl.
  case_bool_decide as Hx; simpl.
  - rewrite bool_decide_eq_true_2 by (by rewrite Hid). by rewrite Hidem.
  - rewrite bool_decide_eq_false_2 by done. by rewrite IH.
Qed.

Lemma owned_by_deactivate sid uid x :
  owned_by sid uid (Conversation.deactivate x) = owned_by sid uid x.
Proof. done. Qed.

Lemma owned_by_absent sid uid (coll : list Conversation.t) :
  sid ∉ (Conversation.sessionId <$> coll) →
  Conversation.findOne (owned_by sid uid) coll = None.
Proof.
  unfold Conversation.findOne, owned_by.
  induction coll as [|x xs IH]; [done|]. rewrite fmap_cons, not_elem_of_cons.
  intros [Hx Hxs]. cbn [List.find].
  rewrite (bool_decide_eq_false_2 (Conversation.sessionId x = sid)) by congruence.
  by apply IH.
Qed.

(** Under the unique index on sessionId, the conversation of a session
    decides what the owner filter finds. *)
Lemma owned_by_unique sid uid w c :
  NoDup (Conversation.sessionId <$> conversations w) →
  conversation_of sid w = Some c →
  Conversation.findOne (owned_by sid uid) (conversations w)
  = if bool_decide (Conversation.userId c = uid) then Some c else None.
Proof.
  unfold conversation_of.
  induction (conversations w) as [|x xs IH]; [done|].
  intros [Hx Hxs]%NoDup_cons. unfold Conversation.findOne in *. cbn [List.find].
  destruct (decide (Conversation.sessionId x = sid)) as [Hsid|Hsid].
  - rewrite (bool_decide_eq_true_2 _ Hsid). intros [= <-].
    unfold owned_by at 1. rewrite (bool_decide_eq_true_2 _ Hsid). cbn [andb].
    destruct (decide (Conversation.userId x = uid)) as [Hu|Hu].
    + by rewrite (bool_decide_eq_true_2 _ Hu).
    + rewrite (bool_decide_eq_false_2 _ Hu).
      apply (owned_by_absent sid uid xs). by rewrite <- Hsid.
  - rewrite (bool_decide_eq_false_2 _ Hsid).
    unfold owned_by at 1. rewrite (bool_decide_eq_false_2 _ Hsid). cbn [andb].
    by apply IH.
Qed.

Lemma owned_by_none sid uid w :
  conversation_of sid w = None →
  Conversation.findOne (owned_by sid uid) (conversations w) = None.
Proof.
  unfold conversation_of, Conversation.findOne.
  induction (conversations w) as [|x xs IH]; [done|]. cbn [List.find].
  destruct (decide (Conversation.sessionId x = sid)) as [Hsid|Hsid].
  - by rewrite (bool_decide_eq_true_2 _ Hsid).
  - rewrite (bool_decide_eq_false_2 _ Hsid).
    unfold owned_by at 1. rewrite (bool_decide_eq_false_2 _ Hsid). cbn [andb]. apply IH.
Qed.




Lemma owned_by_found sid uid w c :
  NoDup (Conversation.sessionId <$> conversations w) →
  Conversation.findOne (owned_by sid uid) (conversations w) = Some c →
  conversation_of sid w = Some c ∧ Conversation.userId c = uid.
Proof.
  intros Hnd Hc. destruct (conversation_of sid w) as [c'|] eqn:Hc'.
  - rewrite (owned_by_unique sid uid w c' Hnd Hc') in Hc.
    case_bool_decide; [|done]. by injection Hc as <-.
  - by rewrite owned_by_none in Hc.
Qed.

(** C10. deleteConversation does not ask for an active conversation: after
    a successful delete, deleting the same session again as the same user
    succeeds again instead of reporting not-found, and changes nothing:
    the conversation stays inactive. *)
Theorem deleteConversation_twice env env' sid uid w w1 :
  coherent w →
  ChatService.deleteConversation env sid uid w = (Ok true, w1) →
  ChatService.deleteConversation env' sid uid w1 = (Ok true, w1)
  ∧ ∃ c, conversation_of sid w1 = Some c
         ∧ Conversation.userId c = uid
         ∧ Conversation.isActive c = false.
Proof.
  intros Hcoh. rewrite !deleteConversation_spec.
  destruct (Conversation.findOne (owned_by sid uid) (conversations w)) as [c|] eqn:Hc; [|done].
  destruct (Redis.up (redis w)) eqn:Hup; [|done]. intros [= <-].
  pose proof (findOne_update (owned_by sid uid) (Conversation._id c) Conversation.deactivate
                _ c (coh_ids w Hcoh) (owned_by_deactivate sid uid) Hc) as Hc1.
  rewrite bool_decide_eq_true_2 in Hc1 by done.
  destruct (owned_by_found sid uid w c (coh_sessions w Hcoh) Hc) as [Hsid Huid].
  split.
  - simpl. rewrite Hc1. f_equal.
    unfold session_purged, deactivated, set_redis, set_conversations. simpl.
    rewrite update_idemp by done. by rewrite delete_delete_eq.
  - exists (Conversation.deactivate c). split_and!; try done.
    unfold conversation_of. simpl.
    rewrite (findOne_update _ _ _ _ c (coh_ids w Hcoh)); [|done|done].
    by rewrite bool_decide_eq_true_2.
Qed.

Lemma deleteConversation_twice_witness :
  ChatService.deleteConversation (env_at 4000 "-" 0%nat) "S" "u1" w_two = (Ok true, w_deleted)
  ∧ ChatService.deleteConversation (env_at 4500 "-" 0%nat) "S" "u1" w_deleted
    = (Ok true, w_deleted)
  ∧ ∃ c, conversation_of "S" w_deleted = Some c
         ∧ Conversation.userId c = "u1"%string
         ∧ Conversation.isActive c = false.
Proof.
  assert (ChatService.deleteConversation (env_at 4000 "-" 0%nat) "S" "u1" w_two
          = (Ok true, w_deleted)) as Hfirst.
  { vm_compute. reflexivity. }
  split; [exact Hfirst|].
  exact (deleteConversation_twice (env_at 4000 "-" 0%nat) (env_at 4500 "-" 0%nat)
           "S" "u1" w_two w_deleted (run_coherent (take 3 scenario)) Hfirst).
Defined.

(** ** messageCount *)

Lemma conversation_of_ident sid w c cid :
  coherent w → conversation_of sid w = Some c →
  (cid, sid) ∈ (ident <$> conversations w) → cid = Conversation._id c.
Proof.
  intros Hcoh Hc Hin. pose proof (coh_sessions w Hcoh) as Hnd.
  unfold conversation_of, Conversation.findOne in Hc.
  induction (conversations w) as [|x xs IH]; [done|].
  apply NoDup_cons in Hnd as [Hx Hxs]. cbn [List.find] in Hc.
  rewrite fmap_cons in Hin. apply elem_of_cons in Hin as [Heq|Hin].
  - injection Heq as -> ->. rewrite bool_decide_eq_true_2 in Hc by done. by injection Hc as <-.
  - destruct (decide (Conversation.sessionId x = sid)) as [Hsid|Hsid].
    + exfalso. apply Hx. rewrite Hsid.
      apply list_elem_of_fmap in Hin as (y & [= _ ->] & Hy).
      apply list_elem_of_fmap. by exists y.
    + rewrite (bool_decide_eq_false_2 _ Hsid) in Hc. by apply IH.
Qed.

(** One successful append moves the conversation of the session from [c]
    to [touch c]: messageCount + 1, and one more owned message. *)
Lemma append_counts env sid role content files w c m w' :
  coherent w → conversation_of sid w = Some c →
  ChatService.addMessage env sid role content files w = (Ok m, w') →
  coherent w'
  ∧ conversation_of sid w' = Some (Conversation.touch (now env) c)
  ∧ conversations w'
    = Conversation.findByIdAndUpdate (Conversation._id c) (Conversation.touch (now env))
        (conversations w)
  ∧ owned c w' = owned c w ++ [m].
Proof.
  intros Hcoh Hc Hadd.
  destruct (chat_addMessage_Ok _ _ _ _ _ _ _ _ Hcoh Hadd)
    as (cid & Hin & Hm & Hmsgs & Hconvs & _ & _ & Hcoh').
  pose proof (conversation_of_ident sid w c cid Hcoh Hc Hin) as ->.
  split_and!; try done.
  - unfold conversation_of. rewrite Hconvs.
    rewrite (findOne_update _ _ _ _ c (coh_ids w Hcoh)); [|done|done].
    by rewrite bool_decide_eq_true_2.
  - unfold owned. rewrite Hmsgs, find_app. f_equal.
    unfold Message.find. simpl. by rewrite bool_decide_eq_true_2.
Qed.


Lemma findOne_snoc filter (coll : list Conversation.t) c :
  (∀ x, x ∈ coll → filter x = false) → filter c = true →
  Conversation.findOne filter (coll ++ [c]) = Some c.
Proof.
  intros Hcoll Hc. unfold Conversation.findOne.
  induction coll as [|x xs IH]; simpl.
  - by rewrite Hc.
  - rewrite (Hcoll x) by left. apply IH. intros y Hy. apply Hcoll. by right.
Qed.




(** ** getMessages *)

Lemma window_nonempty_list now sid w :
  cache_window now sid w ≠ [] → list_or_absent now (CacheService.messagesKey sid) (redis w).
Proof.
  unfold cache_window, Redis.window. intros Hne e c Hk Hval.
  rewrite Hk in Hne. destruct e as [v t]. simpl in Hval. by subst v.
Qed.

Lemma cache_window_store env sid cs ms w :
  cache_window (now env) sid (set_messages ms (set_conversations cs w))
  = cache_window (now env) sid w.
Proof. done. Qed.

(** C9, as the code has it. When the cache answers and holds n > 0
    entries for the session, getMessages with page 1 and a limit with
    -n < limit <= 10 returns cached entries (the range 0 .. limit-1 of the
    window, which is its first [limit] entries when limit >= 1 and the
    whole window when limit = 0), whatever the store holds: the store is
    not consulted, no conversation is looked up, the world is unchanged
    and not-found is not reported.  For limit <= -n the range is empty
    and the call goes on to the store path. *)
Theorem getMessages_cache_path env sid limit w :
  Redis.up (redis w) = true →
  cache_window (now env) sid w ≠ [] →
  limit <= 10 →
  (- Z.of_nat (length (cache_window (now env) sid w)) < limit →
   ∀ cs ms,
     ChatService.getMessages env sid 1 limit (set_messages ms (set_conversations cs w))
     = (Ok (ChatService.FromCache <$> Redis.range (cache_window (now env) sid w) 0 (limit - 1)),
        set_messages ms (set_conversations cs w))
     ∧ Redis.range (cache_window (now env) sid w) 0 (limit - 1) ≠ []
     ∧ (1 <= limit →
        Redis.range (cache_window (now env) sid w) 0 (limit - 1)
        = take (Z.to_nat limit) (cache_window (now env) sid w)))
  ∧ (limit <= - Z.of_nat (length (cache_window (now env) sid w)) →
     ChatService.getMessages env sid 1 limit w
     = ChatService.getMessages_store env sid 1 limit w).
Proof.
  intros Hup Hne Hlimit. split.
  - intros Hlow cs ms. split_and!.
    + unfold ChatService.getMessages.
      rewrite bool_decide_eq_true_2 by done. rewrite bool_decide_eq_true_2 by done.
      cbn [andb]. unfold bind.
      rewrite getRecentMessages_spec; [|done|by apply window_nonempty_list].
      rewrite cache_window_store.
      pose proof (range_recent_nonempty _ limit Hne Hlow) as Hrange.
      destruct (Redis.range _ 0 (limit - 1)) as [|a l]; [done|].
      rewrite bool_decide_eq_true_2 by (simpl; lia). done.
    + by apply range_recent_nonempty.
    + intros Hpos. rewrite range_from_0 by lia. f_equal. lia.
  - intros Hlow. unfold ChatService.getMessages.
    rewrite bool_decide_eq_true_2 by done. rewrite bool_decide_eq_true_2 by done.
    cbn [andb]. unfold bind.
    rewrite getRecentMessages_spec; [|done|by apply window_nonempty_list].
    rewrite range_recent_empty by done.
    rewrite bool_decide_eq_false_2 by (simpl; lia). done.
Qed.

Lemma getMessages_cache_path_witness :
  (∀ cs ms,
     ChatService.getMessages (env_at 3601500 "-" 0%nat) "S" 1 5
       (set_messages ms (set_conversations cs w_short))
     = (Ok (ChatService.FromCache
              <$> Redis.range (cache_window 3601500 "S" w_short) 0 (5 - 1)),
        set_messages ms (set_conversations cs w_short)))
  ∧ ChatService.getMessages (env_at 3601500 "-" 0%nat) "S" 1 (-1) w_short
    = ChatService.getMessages_store (env_at 3601500 "-" 0%nat) "S" 1 (-1) w_short.
Proof.
  assert (Redis.up (redis w_short) = true) as Hup by reflexivity.
  assert (cache_window (now (env_at 3601500 "-" 0%nat)) "S" w_short ≠ []) as Hne.
  { vm_compute. discriminate. }
  split.
  - intros cs ms.
    refine (proj1 (proj1 (getMessages_cache_path (env_at 3601500 "-" 0%nat) "S" 5 w_short
                            Hup Hne _) _ cs ms)).
    + vm_compute. discriminate.
    + vm_compute. reflexivity.
  - refine (proj2 (getMessages_cache_path (env_at 3601500 "-" 0%nat) "S" (-1) w_short
                     Hup Hne _) _).
    + vm_compute. discriminate.
    + vm_compute. discriminate.
Defined.

(** C9, as stated, fails for a negative limit: with one cached entry and
    the conversation deleted and no longer cached, page 1 with limit -1
    asks the cache for the range 0 .. -2, which is empty, goes on to the
    store path and reports not-found, while limit 5 is served from the
    cache. *)
Lemma getMessages_negative_limit_reaches_store :
  length (cache_window 3601500 "S" w_short) = 1%nat
  ∧ -1 <= 10
  ∧ (ChatService.getMessages (env_at 3601500 "-" 0%nat) "S" 1 (-1) w_short).1
    = Err ConversationNotFound
  ∧ (ChatService.getMessages (env_at 3601500 "-" 0%nat) "S" 1 5 w_short).1
    = Ok (ChatService.FromCache <$> cache_window 3601500 "S" w_short).
Proof.
  split_and!.
  - vm_compute. reflexivity.
  - lia.
  - vm_compute. reflexivity.
  - vm_compute. reflexivity.
Qed.

Global Instance desc_transitive {A : Type} (key : A → Z) : Transitive (desc key).
Proof. unfold desc. intros x y z ??. lia. Qed.

Global Instance desc_total {A : Type} (key : A → Z) : Total (desc key).
Proof. unfold desc. intros x y. lia. Qed.

Lemma paginate_sorted {A : Type} (R : relation A) skip limit (l l' : list A) :
  StronglySorted R l → paginate skip limit l = Ok l' → StronglySorted R l'.
Proof.
  intros Hl. unfold paginate. case_bool_decide; [done|]. intros [= <-].
  assert (StronglySorted R (drop (Z.to_nat skip) l)) as Hdrop.
  { rewrite <- (take_drop (Z.to_nat skip) l) in Hl. by apply StronglySorted_app_1_r in Hl. }
  case_bool_decide; [done|].
  rewrite <- (take_drop (Z.to_nat (Z.abs limit)) (drop (Z.to_nat skip) l)) in Hdrop.
  by apply StronglySorted_app_1_l in Hdrop.
Qed.

(** The store path of getMessages: sort by createdAt descending, skip,
    limit, reverse; what it returns is in chronological ascending order. *)
Lemma getMessages_store_ascending env sid page limit w l w' :
  ChatService.getMessages_store env sid page limit w = (Ok l, w') → ascending l.
Proof.
  unfold ChatService.getMessages_store, bind.
  destruct (ChatService.getConversation env sid w) as [[[c|]|e] w1]; try done.
  destruct (paginate _ _ _) as [ms|e] eqn:Hpage; [|done]. intros [= <- _].
  apply paginate_sorted with (R := desc Message.createdAt) in Hpage;
    [|apply StronglySorted_merge_sort; apply _].
  unfold ascending. rewrite <- list_fmap_compose.
  apply (Sorted_fmap _ (flip (desc Message.createdAt))).
  - intros x y Hxy. exact Hxy.
  - apply Sorted_reverse. by apply StronglySorted_Sorted.
Qed.

(** C1 on the code. In the scenario, after m1 (at 2000) and m2 (at 3000)
    were appended, getMessages for page 1 and limit 10 is served from the
    cache and returns m2 before m1, newest first: the list that LPUSH
    built, as LRANGE returns it, without the reversal that the store path
    applies.  The same request with limit 20 goes to the store and
    returns m1 before m2. *)
Theorem getMessages_cache_path_newest_first :
  ∃ cached stored,
    (ChatService.getMessages (env_at 3500 "-" 0%nat) "S" 1 10 w_two).1 = Ok cached
    ∧ ChatService.view_time <$> cached = [3000; 2000]
    ∧ ¬ ascending cached
    ∧ (ChatService.getMessages (env_at 3500 "-" 0%nat) "S" 1 20 w_two).1 = Ok stored
    ∧ ChatService.view_time <$> stored = [2000; 3000]
    ∧ ascending stored
    ∧ ChatService.view_data <$> cached = reverse (ChatService.view_data <$> stored).
Proof.
  eexists _, _. split_and!.
  - vm_compute. reflexivity.
  - reflexivity.
  - unfold ascending. simpl. intros Hsorted.
    apply Sorted_inv in Hsorted as [_ Hhd]. apply HdRel_inv in Hhd. lia.
  - vm_compute. reflexivity.
  - reflexivity.
  - unfold ascending. simpl. repeat constructor. lia.
  - reflexivity.
Qed.

(** ** After deleteConversation *)

(** C4 on the code. In the scenario the owner deletes the conversation:
    the call succeeds, isActive is false in the store, the listing of the
    user no longer shows it and its two messages are still in the store.
    But the only cache key deleted is session:S; the entries under
    conversation:S and messages:S are still there, and getConversation
    keeps returning the cached conversation instead of not-found. *)
Theorem deleteConversation_leaves_cache_entries :
  ChatService.deleteConversation (env_at 4000 "-" 0%nat) "S" "u1" w_two = (Ok true, w_deleted)
  ∧ (∃ c, conversation_of "S" w_deleted = Some c ∧ Conversation.isActive c = false)
  ∧ active_conversation_of "S" w_deleted = None
  ∧ (ChatService.getUserConversations (env_at 4500 "-" 0%nat) "u1" 1 20 w_deleted).1 = Ok []
  ∧ length (Message.find 1%nat (messages w_deleted)) = 2%nat
  ∧ is_Some (Redis.lookup 4500 (CacheService.conversationKey "S") (Redis.keys (redis w_deleted)))
  ∧ length (cache_window 4500 "S" w_deleted) = 2%nat
  ∧ (ChatService.getConversation (env_at 4500 "-" 0%nat) "S" w_deleted).1
    = Ok (Some {| cc_id := 1%nat; cc_sessionId := "S"; cc_userId := "u1";
                  cc_type := "general"; cc_createdAt := 1000 |}).
Proof.
  split_and!.
  - vm_compute. reflexivity.
  - eexists. split; vm_compute; reflexivity.
  - vm_compute. reflexivity.
  - vm_compute. reflexivity.
  - vm_compute. reflexivity.
  - eexists. vm_compute. reflexivity.
  - vm_compute. reflexivity.
  - vm_compute. reflexivity.
Qed.

(** C6 on the code. After that delete the session has no active
    conversation, yet addMessage on it does not fail: getConversation
    answers from the cache entry the delete left behind, and the message
    is written to the store and pushed to the cache window. *)
Theorem addMessage_after_delete_still_writes :
  active_conversation_of "S" w_deleted = None
  ∧ ∃ m w',
      ChatService.addMessage (env_at 4500 "m3" 4%nat) "S" "user" "late" [] w_deleted = (Ok m, w')
      ∧ messages w' = messages w_deleted ++ [m]
      ∧ cache_window 4500 "S" w' = Message.data m :: cache_window 4500 "S" w_deleted.
Proof.
  split; [vm_compute; reflexivity|].
  eexists _, _. split_and!.
  - vm_compute. reflexivity.
  - vm_compute. reflexivity.
  - vm_compute. reflexivity.
Qed.

(** What C6 says does hold whenever getConversation finds nothing: the
    cache answers, has no entry for the session, and the store has no
    active conversation for it.  Then addMessage fails with 'Conversation
    not found' and the world is unchanged. *)
Lemma addMessage_not_found env sid role content files w :
  Redis.up (redis w) = true →
  Redis.lookup (now env) (CacheService.conversationKey sid) (Redis.keys (redis w)) = None →
  active_conversation_of sid w = None →
  ChatService.addMessage env sid role content files w = (Err ConversationNotFound, w).
Proof.
  intros Hup Hmiss Hnone. unfold ChatService.addMessage, bind.
  rewrite getConversation_spec, Hup, Hmiss, Hnone. done.
Qed.

(** In general: whatever the world, a successful deleteConversation
    leaves the cached conversation and the cached window of the session
    as they were. *)
Lemma deleteConversation_keeps_cache env sid uid w w' :
  ChatService.deleteConversation env sid uid w = (Ok true, w') →
  Redis.keys (redis w') !! CacheService.conversationKey sid
  = Redis.keys (redis w) !! CacheService.conversationKey sid
  ∧ Redis.keys (redis w') !! CacheService.messagesKey sid
    = Redis.keys (redis w) !! CacheService.messagesKey sid.
Proof.
  rewrite deleteConversation_spec.
  destruct (Conversation.findOne _ _) as [c|]; [|done].
  destruct (Redis.up (redis w)); [|done]. intros [= <-]. simpl. split.
  - apply lookup_delete_ne, sessionKey_conversationKey.
  - apply lookup_delete_ne, sessionKey_messagesKey.
Qed.

(** In general: right after a successful append, the first entry that
    getMessages serves from the cache is the message just appended. *)
Lemma getMessages_after_append env sid role content files limit history m w' :
  ChatService.addMessage env sid role content files (run history) = (Ok m, w') →
  1 <= limit <= 10 →
  ∃ rest, ChatService.getMessages env sid 1 limit w'
          = (Ok (ChatService.FromCache (Message.data m) :: rest), w').
Proof.
  intros Hadd [Hlo Hhi].
  destruct (chat_addMessage_Ok _ _ _ _ _ _ _ _ (run_coherent history) Hadd)
    as (cid & _ & _ & _ & _ & Hwin & Hup & Hcoh).
  unfold ChatService.getMessages.
  rewrite bool_decide_eq_true_2 by done. rewrite bool_decide_eq_true_2 by done.
  cbn [andb]. unfold bind.
  rewrite getRecentMessages_spec; [|done|by apply coherent_list_or_absent].
  rewrite Hwin, range_from_0 by lia.
  replace (Z.to_nat (limit - 1 + 1)) with (S (Z.to_nat (limit - 1))) by lia.
  rewrite take_take. cbn [take fmap list_fmap length].
  replace (S (Z.to_nat (limit - 1)) `min` 50)%nat
    with (S (Z.to_nat (limit - 1) `min` 49))%nat by lia.
  cbn [take fmap list_fmap length].
  rewrite bool_decide_eq_true_2 by lia. by eexists.
Qed.

(** * Further properties of the services *)

(** ** The conversation cache *)

Lemma getCachedConversation_spec env sid w :
  CacheService.getCachedConversation env sid w =
  if Redis.up (redis w) then
    match Redis.lookup (now env) (CacheService.conversationKey sid) (Redis.keys (redis w)) with
    | Some e =>
        match Redis.val e with
        | Redis.RString c => (Ok (Some c), w)
        | Redis.RList _ => (Err WrongType, w)
        end
    | None => (Ok None, w)
    end
  else (Err RedisUnavailable, w).
Proof.
  unfold CacheService.getCachedConversation, bind, redis_call.
  destruct (Redis.up (redis w)) eqn:Hup.
  - unfold Redis.call. rewrite Hup. simpl.
    destruct (Redis.lookup _ _ _) as [e|]; [destruct (Redis.val e)|];
      simpl; unfold ret; by rewrite redis_rebuild, set_redis_id.
  - rewrite call_down by done. by rewrite set_redis_id.
Qed.

Lemma lookup_cache_put env now' sid c w :
  Redis.lookup now' (CacheService.conversationKey sid) (Redis.keys (redis (cache_put env sid c w)))
  = if bool_decide (now' < now env + 3600 * 1000) then Some (cached_entry env c) else None.
Proof. unfold Redis.lookup, cache_put. simpl. by rewrite lookup_insert_eq. Qed.

Lemma lookup_cache_put_other env now' sid sid' c w :
  sid' ≠ sid →
  Redis.lookup now' (CacheService.conversationKey sid') (Redis.keys (redis (cache_put env sid c w)))
  = Redis.lookup now' (CacheService.conversationKey sid') (Redis.keys (redis w)).
Proof.
  intros Hne. unfold cache_put. simpl. apply lookup_insert_other.
  intros Heq%conversationKey_inj. by apply Hne.
Qed.

(** X1. Caching a conversation and reading it back. While the cache is
    reachable, cacheConversation succeeds, and afterwards
    getCachedConversation of the same session returns exactly what was
    cached for 3600 s and null from then on; the cached conversations of
    other sessions and all message windows are left as they were. *)
Theorem cacheConversation_round_trip env sid c w :
  Redis.up (redis w) = true →
  ∃ w', CacheService.cacheConversation env sid c w = (Ok (), w')
    ∧ (∀ env', now env' < now env + 3600 * 1000 →
               CacheService.getCachedConversation env' sid w' = (Ok (Some c), w'))
    ∧ (∀ env', now env + 3600 * 1000 <= now env' →
               CacheService.getCachedConversation env' sid w' = (Ok None, w'))
    ∧ (∀ env' sid', sid' ≠ sid →
         (CacheService.getCachedConversation env' sid' w').1
         = (CacheService.getCachedConversation env' sid' w).1)
    ∧ (∀ now' sid', cache_window now' sid' w' = cache_window now' sid' w).
Proof.
  intros Hup. exists (cache_put env sid c w). split_and!.
  - by apply cacheConversation_up.
  - intros env' Hlive. rewrite getCachedConversation_spec, lookup_cache_put.
    by rewrite bool_decide_eq_true_2.
  - intros env' Hdead. rewrite getCachedConversation_spec, lookup_cache_put.
    rewrite bool_decide_eq_false_2 by lia. done.
  - intros env' sid' Hne. rewrite !getCachedConversation_spec.
    rewrite lookup_cache_put_other by done. simpl. rewrite Hup.
    destruct (Redis.lookup _ _ _) as [e|]; [by destruct (Redis.val e)|done].
  - intros now' sid'. apply cache_window_cache_put.
Qed.

Lemma cacheConversation_round_trip_witness :
  ∃ w', CacheService.cacheConversation (env_at 5000 "-" 0%nat) "T"
          {| cc_id := 7%nat; cc_sessionId := "T"; cc_userId := "u2";
             cc_type := "general"; cc_createdAt := 5000 |} w_two = (Ok (), w')
    ∧ CacheService.getCachedConversation (env_at 6000 "-" 0%nat) "T" w'
      = (Ok (Some {| cc_id := 7%nat; cc_sessionId := "T"; cc_userId := "u2";
                     cc_type := "general"; cc_createdAt := 5000 |}), w')
    ∧ CacheService.getCachedConversation (env_at 3605000 "-" 0%nat) "T" w' = (Ok None, w').
Proof.
  destruct (cacheConversation_round_trip (env_at 5000 "-" 0%nat) "T"
              {| cc_id := 7%nat; cc_sessionId := "T"; cc_userId := "u2";
                 cc_type := "general"; cc_createdAt := 5000 |} w_two eq_refl)
    as (w' & Hput & Hlive & Hdead & _).
  exists w'. split_and!.
  - exact Hput.
  - apply (Hlive (env_at 6000 "-" 0%nat)). vm_compute. reflexivity.
  - apply (Hdead (env_at 3605000 "-" 0%nat)). vm_compute. discriminate.
Defined.

(** ** The message window over time *)

Lemma cache_window_put_at env now' sid l w :
  cache_window now' sid (window_put env sid l w)
  = if bool_decide (now' < now env + 3600 * 1000) then l else [].
Proof.
  unfold cache_window, window_put, Redis.window, Redis.lookup. simpl.
  rewrite lookup_insert_eq. unfold window_entry, Redis.live. simpl.
  by case_bool_decide.
Qed.

Lemma window_put_list_or_absent env now' sid l w :
  list_or_absent now' (CacheService.messagesKey sid) (redis (window_put env sid l w)).
Proof.
  intros e c [Hk _]%lookup_Some. simpl in Hk. rewrite lookup_insert_eq in Hk.
  by injection Hk as <-.
Qed.

(** X2. Every append refreshes the lifetime of the whole window. After a
    successful cacheService.addMessage, getRecentMessages of that session
    returns the first [count] entries of the window (the new message
    first) for 3600 s, and the empty list once 3600 s have passed
    without another append, however many entries the window held. *)
Theorem cache_window_expires env sid m w w' :
  CacheService.addMessage env sid m w = (Ok (), w') →
  (∀ env' count, now env' < now env + 3600 * 1000 → 1 <= count →
     CacheService.getRecentMessages env' sid count w'
     = (Ok (take (Z.to_nat count) (take 50 (m :: cache_window (now env) sid w))), w'))
  ∧ (∀ env' count, now env + 3600 * 1000 <= now env' →
       CacheService.getRecentMessages env' sid count w' = (Ok [], w')).
Proof.
  intros Hadd. destruct (addMessage_Ok_inv _ _ _ _ _ Hadd) as [Hup Hlist].
  rewrite addMessage_spec in Hadd by done. injection Hadd as <-.
  split.
  - intros env' count Hlive Hcount.
    rewrite getRecentMessages_spec; [|done|apply window_put_list_or_absent].
    rewrite cache_window_put_at, bool_decide_eq_true_2 by done.
    rewrite range_from_0 by lia. do 3 f_equal. lia.
  - intros env' count Hdead.
    rewrite getRecentMessages_spec; [|done|apply window_put_list_or_absent].
    rewrite cache_window_put_at, bool_decide_eq_false_2 by lia.
    by rewrite range_nil.
Qed.

Lemma cache_window_expires_witness :
  let env := env_at 5000 "-" 0%nat in
  let w := set_redis r_full empty_world in
  let w' := window_put env "S" (message_at 5000 :: take 49 full_window) w in
  CacheService.addMessage env "S" (message_at 5000) w = (Ok (), w')
  ∧ CacheService.getRecentMessages (env_at 6000 "-" 0%nat) "S" 2 w'
    = (Ok (take (Z.to_nat 2) (take 50 (message_at 5000 :: cache_window 5000 "S" w))), w')
  ∧ CacheService.getRecentMessages (env_at 3605000 "-" 0%nat) "S" 2 w' = (Ok [], w').
Proof.
  intros env w w'.
  assert (CacheService.addMessage env "S" (message_at 5000) w = (Ok (), w')) as Hadd.
  { vm_compute. reflexivity. }
  destruct (cache_window_expires env "S" (message_at 5000) w w' Hadd) as [Hlive Hdead].
  split_and!.
  - exact Hadd.
  - apply (Hlive (env_at 6000 "-" 0%nat) 2); [vm_compute; reflexivity | lia].
  - apply (Hdead (env_at 3605000 "-" 0%nat) 2). vm_compute. discriminate.
Defined.

(** ** createConversation *)

(** X3. Creating a conversation and reading it back. A successful
    createConversation returns a conversation that is active, has
    messageCount 0, the default title, the given user and type and the
    uuid drawn as sessionId; it is the conversation the store holds for
    that sessionId; and getConversation of that sessionId returns its
    projection at any later time, from the cache without touching the
    world during the first 3600 s. *)
Theorem createConversation_then_getConversation env uid ty md w c w' :
  ChatService.createConversation env uid ty md w = (Ok c, w') →
  c = Conversation.new env (uuid env 0) uid ty md
  ∧ Conversation.isActive c = true
  ∧ Conversation.messageCount c = 0
  ∧ conversation_of (Conversation.sessionId c) w' = Some c
  ∧ (∀ env', (ChatService.getConversation env' (Conversation.sessionId c) w').1
             = Ok (Some (Conversation.project c)))
  ∧ (∀ env', now env' < now env + 3600 * 1000 →
             ChatService.getConversation env' (Conversation.sessionId c) w'
             = (Ok (Some (Conversation.project c)), w')).
Proof.
  intros Hcreate. rewrite createConversation_spec in Hcreate.
  destruct (Conversation.save _ _) as [cs|e] eqn:Hsave; [|done].
  destruct (Redis.up (redis w)) eqn:Hup; [|done]. injection Hcreate as <- <-.
  apply Conversation_save_Ok in Hsave as (-> & _ & _ & Hsid).
  set (c := Conversation.new env (uuid env 0) uid ty md) in *.
  assert (∀ x, x ∈ conversations w → Conversation.sessionId x ≠ Conversation.sessionId c)
    as Hfresh.
  { intros x Hx Heq. apply Hsid. rewrite <- Heq. apply list_elem_of_fmap. by exists x. }
  assert (active_conversation_of (Conversation.sessionId c)
            (cache_put env (uuid env 0) (Conversation.project c)
               (set_conversations (conversations w ++ [c]) w)) = Some c) as Hactive.
  { unfold active_conversation_of. simpl. apply findOne_snoc.
    - intros x Hx. rewrite bool_decide_eq_false_2; [done|]. by apply Hfresh.
    - rewrite bool_decide_eq_true_2 by done. done. }
  split_and!; try done.
  - unfold conversation_of. simpl. apply findOne_snoc.
    + intros x Hx. apply bool_decide_eq_false_2. by apply Hfresh.
    + by apply bool_decide_eq_true_2.
  - intros env'. rewrite getConversation_spec.
    change (Conversation.sessionId c) with (uuid env 0) in *.
    rewrite lookup_cache_put. simpl. case_bool_decide; [done|]. by rewrite Hactive.
  - intros env' Hlive. rewrite getConversation_spec.
    change (Conversation.sessionId c) with (uuid env 0).
    rewrite lookup_cache_put. simpl. by rewrite bool_decide_eq_true_2.
Qed.

Lemma createConversation_then_getConversation_witness :
  ChatService.createConversation (env_at 1000 "S" 1%nat) "u1" "general" no_metadata empty_world
  = (Ok (Conversation.new (env_at 1000 "S" 1%nat) "S" "u1" "general" no_metadata), w_created)
  ∧ conversation_of "S" w_created
    = Some (Conversation.new (env_at 1000 "S" 1%nat) "S" "u1" "general" no_metadata)
  ∧ ChatService.getConversation (env_at 2000 "-" 0%nat) "S" w_created
    = (Ok (Some (Conversation.project
                   (Conversation.new (env_at 1000 "S" 1%nat) "S" "u1" "general" no_metadata))),
       w_created).
Proof.
  assert (ChatService.createConversation (env_at 1000 "S" 1%nat) "u1" "general" no_metadata
            empty_world
          = (Ok (Conversation.new (env_at 1000 "S" 1%nat) "S" "u1" "general" no_metadata),
             w_created)) as Hcreate.
  { vm_compute. reflexivity. }
  destruct (createConversation_then_getConversation _ _ _ _ _ _ _ Hcreate)
    as (_ & _ & _ & Hstore & _ & Hhit).
  split_and!.
  - exact Hcreate.
  - exact Hstore.
  - apply (Hhit (env_at 2000 "-" 0%nat)). vm_compute. reflexivity.
Defined.

(** X4. What createConversation refuses. It fails with a validation
    error exactly when the type is not one of general, plant_doctor,
    knowledge, or the userId or the drawn sessionId is empty; with
    valid input it fails with a duplicate-key error exactly when the
    sessionId or the _id is already in the store; in both cases neither
    the store nor the cache is written. *)
Theorem createConversation_refusals env uid ty md w :
  ((ChatService.createConversation env uid ty md w).1 = Err ValidationError
   ↔ (uuid env 0 = ""%string ∨ uid = ""%string ∨ ty ∉ Conversation.types))
  ∧ ((ChatService.createConversation env uid ty md w).1 = Err DuplicateKey
     ↔ (¬ (uuid env 0 = ""%string ∨ uid = ""%string ∨ ty ∉ Conversation.types)
        ∧ (objectId env ∈ (Conversation._id <$> conversations w)
           ∨ uuid env 0 ∈ (Conversation.sessionId <$> conversations w))))
  ∧ ((ChatService.createConversation env uid ty md w).1 = Err ValidationError
     ∨ (ChatService.createConversation env uid ty md w).1 = Err DuplicateKey →
     (ChatService.createConversation env uid ty md w).2 = w).
Proof.
  rewrite createConversation_spec. unfold Conversation.save, Conversation.validate.
  cbn [Conversation.new Conversation.sessionId Conversation.userId Conversation.type
       Conversation._id].
  destruct (decide (uuid env 0 = ""%string)) as [Hs|Hs];
    [rewrite (bool_decide_eq_false_2 (uuid env 0 ≠ ""%string)) by tauto; simpl; split_and!;
     [tauto | split; [done | tauto] | done] |].
  rewrite (bool_decide_eq_true_2 (uuid env 0 ≠ ""%string)) by done.
  destruct (decide (uid = ""%string)) as [Hu|Hu];
    [rewrite (bool_decide_eq_false_2 (uid ≠ ""%string)) by tauto; simpl; split_and!;
     [tauto | split; [done | tauto] | done] |].
  rewrite (bool_decide_eq_true_2 (uid ≠ ""%string)) by done.
  destruct (decide (ty ∈ Conversation.types)) as [Ht|Ht].
  - rewrite (bool_decide_eq_true_2 _ Ht). cbn [andb negb].
    case_bool_decide as Hdup.
    + simpl. split_and!; [split; [done | tauto] | split; [tauto | done] | done].
    + destruct (Redis.up (redis w)); simpl;
        (split_and!; [split; [done | tauto] | split; [done | tauto] | by intros [|]]).
  - rewrite (bool_decide_eq_false_2 _ Ht). simpl. split_and!;
      [tauto | split; [done | tauto] | done].
Qed.

(** ** What a call can do to the store *)

Lemma getConversation_frame env sid w :
  conversations (ChatService.getConversation env sid w).2 = conversations w
  ∧ messages (ChatService.getConversation env sid w).2 = messages w
  ∧ s3 (ChatService.getConversation env sid w).2 = s3 w.
Proof.
  rewrite getConversation_spec.
  destruct (Redis.up (redis w)); [|done].
  destruct (Redis.lookup _ _ _) as [e|]; [by destruct (Redis.val e)|].
  by destruct (active_conversation_of sid w).
Qed.

Lemma cache_addMessage_frame env sid m w :
  conversations (CacheService.addMessage env sid m w).2 = conversations w
  ∧ messages (CacheService.addMessage env sid m w).2 = messages w
  ∧ s3 (CacheService.addMessage env sid m w).2 = s3 w.
Proof. by rewrite addMessage_as_commands. Qed.

(** addMessage leaves the conversations as they are or applies its one
    update, and leaves the messages as they are or saves its one
    message. *)
Lemma addMessage_store env sid role content files w :
  (conversations (ChatService.addMessage env sid role content files w).2 = conversations w
   ∨ ∃ id, conversations (ChatService.addMessage env sid role content files w).2
           = Conversation.findByIdAndUpdate id (Conversation.touch (now env)) (conversations w))
  ∧ (messages (ChatService.addMessage env sid role content files w).2 = messages w
     ∨ ∃ m, Message.save m (messages w)
            = Ok (messages (ChatService.addMessage env sid role content files w).2)).
Proof.
  unfold ChatService.addMessage, bind.
  pose proof (getConversation_frame env sid w) as (Hc1 & Hm1 & _).
  destruct (ChatService.getConversation env sid w) as [[[c|]|e] w1]; simpl in *;
    [| by split; left | by split; left].
  pose proof (uploadFiles_frame env sid files 1%nat [] [] w1) as (Hc2 & Hm2 & _).
  destruct (ChatService.uploadFiles env sid 1 files [] [] w1) as [[up|e] w2]; simpl in *;
    [| split; left; congruence].
  unfold Message_save.
  destruct (Message.save _ (messages w2)) as [ms|e] eqn:Hsave;
    [| simpl; split; left; congruence].
  match goal with |- context [CacheService.addMessage env sid ?md ?w3] =>
    pose proof (cache_addMessage_frame env sid md w3) as (Hc4 & Hm4 & _);
    destruct (CacheService.addMessage env sid md w3) as [[[]|e] w4] end; simpl in *.
  - split.
    + right. exists (cc_id c). by rewrite Hc4, Hc2, Hc1.
    + right. eexists. rewrite Hm4. rewrite <- Hm1, <- Hm2. exact Hsave.
  - split.
    + left. by rewrite Hc4, Hc2, Hc1.
    + right. eexists. rewrite Hm4. rewrite <- Hm1, <- Hm2. exact Hsave.
Qed.

Lemma persists_refl c : persists c c.
Proof. split; (done || lia). Qed.

Lemma persists_trans c1 c2 c3 : persists c1 c2 → persists c2 c3 → persists c1 c3.
Proof.
  intros [] []. split; try congruence; [lia | auto].
Qed.

Lemma persists_touch now c : persists c (Conversation.touch now c).
Proof. split; simpl; (done || lia). Qed.

Lemma persists_deactivate c : persists c (Conversation.deactivate c).
Proof. split; simpl; (done || lia). Qed.

Lemma Forall2_persists_refl l : Forall2 persists l l.
Proof. induction l; constructor; [apply persists_refl | done]. Qed.

Lemma Forall2_persists_update id update l :
  (∀ c, persists c (update c)) →
  Forall2 persists l (Conversation.findByIdAndUpdate id update l).
Proof.
  intros Hup. induction l as [|c l IH]; simpl; [constructor|].
  case_bool_decide; constructor; auto using persists_refl, Forall2_persists_refl.
Qed.

(** One step of a history keeps every stored conversation in its place
    (possibly touched or deactivated) and adds at most one new one,
    accepted by [save]; it keeps every stored message and adds at most
    one, accepted by [save]. *)
Lemma step_store w c :
  (∃ l added, conversations (step w c) = l ++ added
              ∧ Forall2 persists (conversations w) l
              ∧ (added = [] ∨ ∃ d, added = [d] ∧ l = conversations w
                                   ∧ Conversation.save d (conversations w) = Ok (l ++ added)))
  ∧ (messages (step w c) = messages w
     ∨ ∃ m, Message.save m (messages w) = Ok (messages (step w c))).
Proof.
  assert (∀ w', conversations w' = conversations w →
                ∃ l added, conversations w' = l ++ added
                           ∧ Forall2 persists (conversations w) l
                           ∧ (added = [] ∨ ∃ d, added = [d] ∧ l = conversations w
                                ∧ Conversation.save d (conversations w) = Ok (l ++ added)))
    as Hsame.
  { intros w' ->. exists (conversations w), []. rewrite app_nil_r.
    split_and!; [done | apply Forall2_persists_refl | by left]. }
  assert (∀ w' id update, (∀ c, persists c (update c)) →
            conversations w' = Conversation.findByIdAndUpdate id update (conversations w) →
            ∃ l added, conversations w' = l ++ added
                       ∧ Forall2 persists (conversations w) l
                       ∧ (added = [] ∨ ∃ d, added = [d] ∧ l = conversations w
                            ∧ Conversation.save d (conversations w) = Ok (l ++ added)))
    as Hupdate.
  { intros w' id update Hup ->. eexists _, []. rewrite app_nil_r.
    split_and!; [done | by apply Forall2_persists_update | by left]. }
  destruct c; simpl.
  - rewrite createConversation_spec.
    destruct (Conversation.save _ _) as [cs|e] eqn:Hsave; [|split; [by apply Hsame | by left]].
    split.
    + apply Conversation_save_Ok in Hsave as Hcs. destruct Hcs as (-> & _).
      eexists (conversations w), [_]. split_and!.
      * by destruct (Redis.up (redis w)).
      * apply Forall2_persists_refl.
      * right. eexists. split_and!; done.
    + left. by destruct (Redis.up (redis w)).
  - destruct (getConversation_frame env sessionId w) as (? & ? & _).
    split; [by apply Hsame | by left].
  - destruct (addMessage_store env sessionId role content files w) as [[Hc|[id Hc]] Hm].
    + split; [by apply Hsame | done].
    + split; [|done]. eapply Hupdate; [|done]. apply persists_touch.
  - destruct (getConversation_frame env sessionId w) as (? & ? & _).
    destruct (getMessages_world env sessionId page limit w) as [-> | ->];
      (split; [by apply Hsame | by left]).
  - unfold ChatService.getUserConversations.
    destruct (paginate _ _ _); (split; [by apply Hsame | by left]).
  - rewrite deleteConversation_spec.
    destruct (Conversation.findOne _ _) as [c|]; [|split; [by apply Hsame | by left]].
    split; [|by destruct (Redis.up (redis w)); left].
    eapply (Hupdate _ (Conversation._id c) Conversation.deactivate).
    + apply persists_deactivate.
    + by destruct (Redis.up (redis w)).
  - split; [by apply Hsame | by left].
  - split; [by apply Hsame | by left].
Qed.

Lemma retained_refl cs : retained cs cs.
Proof. exists cs, []. rewrite app_nil_r. split; [done | apply Forall2_persists_refl]. Qed.

Lemma retained_trans cs1 cs2 cs3 : retained cs1 cs2 → retained cs2 cs3 → retained cs1 cs3.
Proof.
  intros (l1 & a1 & -> & H1) (l2 & a2 & -> & H2).
  apply Forall2_app_inv_l in H2 as (k1 & k2 & Hk1 & Hk2 & ->).
  exists k1, (k2 ++ a2). split; [by rewrite app_assoc|].
  eapply Forall2_trans; [|exact H1|exact Hk1]. apply persists_trans.
Qed.

Lemma run_snoc history c : run (history ++ [c]) = step (run history) c.
Proof. unfold run. by rewrite foldl_app. Qed.

Lemma step_retained w c : retained (conversations w) (conversations (step w c)).
Proof.
  destruct (step_store w c) as [(l & added & Heq & Hl & _) _]. by exists l, added.
Qed.

Lemma step_messages_prefix w c : messages w `prefix_of` messages (step w c).
Proof.
  destruct (step_store w c) as [_ [-> | [m Hsave]]]; [done|].
  apply Message_save_Ok in Hsave as (-> & _). by apply prefix_app_r.
Qed.

Lemma retained_conversation_of sid cs cs' c :
  retained cs cs' →
  Conversation.findOne (λ x, bool_decide (Conversation.sessionId x = sid)) cs = Some c →
  ∃ c', Conversation.findOne (λ x, bool_decide (Conversation.sessionId x = sid)) cs' = Some c'
        ∧ persists c c'.
Proof.
  intros (l & added & -> & Hl). unfold Conversation.findOne.
  induction Hl as [|x y xs ys Hxy _ IH]; [done|]. cbn [List.find app].
  rewrite (p_sessionId _ _ Hxy).
  destruct (bool_decide (Conversation.sessionId x = sid)).
  - intros [= <-]. by exists y.
  - apply IH.
Qed.

Lemma run_app_grows history calls :
  messages (run history) `prefix_of` messages (run (history ++ calls))
  ∧ retained (conversations (run history)) (conversations (run (history ++ calls))).
Proof.
  induction calls as [|c calls IH] using rev_ind.
  - rewrite app_nil_r. split; [done | apply retained_refl].
  - rewrite app_assoc, run_snoc. destruct IH as [IHm IHc]. split.
    + etrans; [exact IHm | apply step_messages_prefix].
    + eapply retained_trans; [exact IHc | apply step_retained].
Qed.

(** X5. The store only grows. Whatever calls follow a history, every
    message stored so far is still stored, unchanged and in the same
    place; every conversation stored so far is still stored in the same
    place with the same _id, sessionId, userId, type, title and
    createdAt, a messageCount that has not decreased, and still
    inactive if it was inactive. In particular no call removes a
    conversation or reactivates a deleted one. *)
Theorem store_only_grows history calls :
  messages (run history) `prefix_of` messages (run (history ++ calls))
  ∧ retained (conversations (run history)) (conversations (run (history ++ calls)))
  ∧ (∀ sid c, conversation_of sid (run history) = Some c →
       ∃ c', conversation_of sid (run (history ++ calls)) = Some c' ∧ persists c c').
Proof.
  destruct (run_app_grows history calls) as [Hm Hc].
  split_and!; [done | done |].
  intros sid c Hc0. by eapply retained_conversation_of.
Qed.

Lemma Message_save_Ok_id m coll ms :
  Message.save m coll = Ok ms → Message._id m ∉ (Message._id <$> coll).
Proof.
  unfold Message.save. destruct (Message.validate m); simpl; [|done].
  case_bool_decide as Hdup; [done|]. intros _. tauto.
Qed.

(** X6. The unique indexes and the ownership of messages hold in every
    world a history leads to: no two conversations share a sessionId or
    an _id (inactive ones included), no two messages share a messageId
    or an _id, and the conversationId of every message is the _id of a
    stored conversation. *)
Theorem unique_indexes_hold history :
  NoDup (Conversation.sessionId <$> conversations (run history))
  ∧ NoDup (Conversation._id <$> conversations (run history))
  ∧ NoDup (Message.messageId <$> messages (run history))
  ∧ NoDup (Message._id <$> messages (run history))
  ∧ (∀ m, m ∈ messages (run history) →
          ∃ c, c ∈ conversations (run history)
               ∧ Conversation._id c = Message.conversationId m).
Proof.
  pose proof (run_coherent history) as Hcoh.
  assert (NoDup (Message.messageId <$> messages (run history))
          ∧ NoDup (Message._id <$> messages (run history))) as [Hmid Hid].
  { clear Hcoh. induction history as [|c history IH] using rev_ind.
    - split; apply NoDup_nil_2.
    - rewrite run_snoc. destruct IH as [IH1 IH2].
      destruct (step_store (run history) c) as [_ [-> | [m Hsave]]]; [done|].
      pose proof (Message_save_Ok_id _ _ _ Hsave) as Hfresh.
      apply Message_save_Ok in Hsave as (-> & _ & Hmfresh).
      rewrite !fmap_app. split; apply NoDup_app; (split; [done|]);
        (split; [|apply NoDup_singleton]);
        intros x Hx [->|[]%elem_of_nil]%elem_of_cons; done. }
  split_and!; try done.
  - apply (coh_sessions _ Hcoh).
  - apply (coh_ids _ Hcoh).
  - intros m Hm. apply (coh_owner _ Hcoh) in Hm.
    apply list_elem_of_fmap in Hm as (c & Heq & Hc). by exists c.
Qed.

(** X7. Only validated documents are stored. In every world a history
    leads to, each conversation has a type among general, plant_doctor
    and knowledge and a non-empty sessionId and userId, and each message
    has a role among user, assistant and system and a non-empty
    sessionId and messageId. *)
Theorem stored_documents_are_valid history :
  (∀ c, c ∈ conversations (run history) →
        Conversation.type c ∈ Conversation.types
        ∧ Conversation.sessionId c ≠ ""%string
        ∧ Conversation.userId c ≠ ""%string)
  ∧ (∀ m, m ∈ messages (run history) →
          md_role (Message.data m) ∈ Message.roles
          ∧ md_sessionId (Message.data m) ≠ ""%string
          ∧ md_messageId (Message.data m) ≠ ""%string).
Proof.
  assert (∀ c, Conversation.validate c = true →
               Conversation.type c ∈ Conversation.types
               ∧ Conversation.sessionId c ≠ ""%string
               ∧ Conversation.userId c ≠ ""%string) as Hvalid.
  { intros c [[H1 H2]%andb_prop H3]%andb_prop.
    apply bool_decide_eq_true_1 in H1, H2, H3. done. }
  assert (∀ m, Message.validate m = true →
               md_role (Message.data m) ∈ Message.roles
               ∧ md_sessionId (Message.data m) ≠ ""%string
               ∧ md_messageId (Message.data m) ≠ ""%string) as Hmvalid.
  { intros m [[H1 H2]%andb_prop H3]%andb_prop.
    apply bool_decide_eq_true_1 in H1, H2, H3. done. }
  induction history as [|call history [IHc IHm]] using rev_ind.
  - split; intros ? []%elem_of_nil.
  - rewrite run_snoc.
    destruct (step_store (run history) call) as [(l & added & -> & Hl & Hadded) Hmsgs].
    split.
    + intros c [Hc|Hc]%elem_of_app.
      * apply list_elem_of_lookup in Hc as [i Hi].
        destruct (Forall2_lookup_r _ _ _ _ _ Hl Hi) as (c0 & Hi0 & Hp).
        destruct (IHc c0) as (? & ? & ?); [by eapply list_elem_of_lookup_2|].
        rewrite (p_type _ _ Hp), (p_sessionId _ _ Hp), (p_userId _ _ Hp). done.
      * destruct Hadded as [-> | (d & -> & _ & Hsave)]; [by apply elem_of_nil in Hc|].
        apply list_elem_of_singleton in Hc as ->.
        apply Conversation_save_Ok in Hsave as (_ & Hv & _). by apply Hvalid.
    + destruct Hmsgs as [-> | [m Hsave]]; [done|].
      apply Message_save_Ok in Hsave as (-> & Hv & _).
      intros m' [Hm'|Hm'%list_elem_of_singleton]%elem_of_app;
        [by apply IHm | subst m'; by apply Hmvalid].
Qed.

(** ** getUserConversations *)

Lemma paginate_Ok {A : Type} skip limit (l l' : list A) :
  paginate skip limit l = Ok l' →
  0 <= skip
  ∧ l' `sublist_of` l
  ∧ (limit ≠ 0 → (length l' ≤ Z.to_nat (Z.abs limit))%nat)
  ∧ (skip = 0 → limit = 0 ∨ (length l ≤ Z.to_nat (Z.abs limit))%nat → l' = l).
Proof.
  unfold paginate. case_bool_decide as Hskip; [done|]. intros [= <-].
  split_and!.
  - lia.
  - case_bool_decide.
    + apply sublist_drop.
    + etrans; [apply sublist_take | apply sublist_drop].
  - intros Hlimit. rewrite bool_decide_eq_false_2 by done. rewrite length_take. lia.
  - intros -> Hall. rewrite drop_0. case_bool_decide; [done|].
    destruct Hall as [?|Hlen]; [done|]. by apply take_ge.
Qed.

Lemma paginate_Err {A : Type} skip limit (l : list A) :
  skip < 0 → paginate skip limit l = Err BadValue.
Proof. intros Hskip. unfold paginate. by rewrite bool_decide_eq_true_2. Qed.

Lemma sort_desc_elem_of {A : Type} (key : A → Z) (l : list A) x :
  x ∈ sort_desc key l ↔ x ∈ l.
Proof. unfold sort_desc. by rewrite merge_sort_Permutation. Qed.

Lemma sort_desc_sorted {A : Type} (key : A → Z) (l : list A) :
  StronglySorted (desc key) (sort_desc key l).
Proof. unfold sort_desc. apply StronglySorted_merge_sort; apply _. Qed.

(** X8. getUserConversations lists the active conversations of the user
    and nothing else. It never changes the world. It fails (bad value)
    when (page-1)*limit is negative. Otherwise every entry it returns is
    the summary of a stored conversation of that userId with isActive
    true, the entries are in descending order of lastActivity, there are
    at most |limit| of them unless limit is 0, and for page 1 with
    limit 0 every active conversation of the user is among them. *)
Theorem getUserConversations_lists_active env uid page limit w :
  (ChatService.getUserConversations env uid page limit w).2 = w
  ∧ ((page - 1) * limit < 0 →
     (ChatService.getUserConversations env uid page limit w).1 = Err BadValue)
  ∧ (∀ l, (ChatService.getUserConversations env uid page limit w).1 = Ok l →
       0 <= (page - 1) * limit
       ∧ (∀ s, s ∈ l → ∃ c, c ∈ conversations w ∧ s = Conversation.select c
                            ∧ Conversation.userId c = uid
                            ∧ Conversation.isActive c = true)
       ∧ StronglySorted (λ a b, Conversation.s_lastActivity b <= Conversation.s_lastActivity a) l
       ∧ (limit ≠ 0 → (length l ≤ Z.to_nat (Z.abs limit))%nat)
       ∧ (page = 1 → limit = 0 →
          ∀ c, c ∈ conversations w → Conversation.userId c = uid →
               Conversation.isActive c = true → Conversation.select c ∈ l)).
Proof.
  unfold ChatService.getUserConversations.
  set (found := List.filter _ (conversations w)).
  assert (∀ c, c ∈ found ↔ c ∈ conversations w ∧ Conversation.userId c = uid
                            ∧ Conversation.isActive c = true) as Hfound.
  { intros c. unfold found. rewrite list_elem_of_In, List.filter_In, <- list_elem_of_In.
    rewrite andb_true_iff, !bool_decide_eq_true. tauto. }
  split_and!.
  - by destruct (paginate _ _ _).
  - intros Hneg. by rewrite paginate_Err.
  - intros l. destruct (paginate _ _ _) as [cs|e] eqn:Hpage; [|done]. intros [= <-].
    pose proof (paginate_sorted _ _ _ _ _ (sort_desc_sorted _ found) Hpage) as Hsorted.
    apply paginate_Ok in Hpage as (Hskip & Hsub & Hlen & Hall).
    split_and!.
    + done.
    + intros s (c & -> & Hc)%list_elem_of_fmap. exists c.
      apply (elem_of_sublist _ _ _ Hc) in Hsub. apply sort_desc_elem_of, Hfound in Hsub.
      tauto.
    + by apply (StronglySorted_fmap _ (desc Conversation.lastActivity)).
    + intros Hlimit. rewrite length_fmap. by apply Hlen.
    + intros -> -> c Hc Hu Ha. rewrite Hall by (by left || done).
      apply list_elem_of_fmap. exists c. split; [done|].
      apply sort_desc_elem_of, Hfound. done.
Qed.

Lemma conversation_of_unique sid (cs : list Conversation.t) c c' :
  NoDup (Conversation.sessionId <$> cs) →
  Conversation.findOne (λ x, bool_decide (Conversation.sessionId x = sid)) cs = Some c →
  c' ∈ cs → Conversation.sessionId c' = sid → c' = c.
Proof.
  unfold Conversation.findOne. induction cs as [|x xs IH]; [done|].
  intros [Hx Hxs]%NoDup_cons. cbn [List.find].
  destruct (decide (Conversation.sessionId x = sid)) as [Hsid|Hsid].
  - rewrite (bool_decide_eq_true_2 _ Hsid). intros [= <-] [->|Hin]%elem_of_cons Hc'; [done|].
    exfalso. apply Hx. rewrite Hsid, <- Hc'. apply list_elem_of_fmap. by exists c'.
  - rewrite (bool_decide_eq_false_2 _ Hsid). intros Hc [->|Hin]%elem_of_cons Hc'; [done|].
    by apply IH.
Qed.

(** X9. A deleted conversation is never listed again. Once
    deleteConversation has succeeded for a session, whatever calls
    follow, no listing of getUserConversations, for any user, page or
    limit, contains that session. *)
Theorem deleted_conversation_is_not_listed history env sid uid w' calls env' uid' page limit l :
  ChatService.deleteConversation env sid uid (run history) = (Ok true, w') →
  (ChatService.getUserConversations env' uid' page limit
     (run (history ++ DeleteConversation env sid uid :: calls))).1 = Ok l →
  ∀ s, s ∈ l → Conversation.s_sessionId s ≠ sid.
Proof.
  intros Hdel Hlist s Hs Hsid.
  pose proof (run_coherent history) as Hcoh.
  assert (∃ c, conversation_of sid (run (history ++ [DeleteConversation env sid uid])) = Some c
               ∧ Conversation.isActive c = false) as (c & Hc & Hinactive).
  { rewrite run_snoc. simpl. rewrite Hdel. simpl.
    rewrite deleteConversation_spec in Hdel.
    destruct (Conversation.findOne (owned_by sid uid) _) as [c|] eqn:Hfound; [|done].
    destruct (Redis.up (redis (run history))); [|done]. injection Hdel as <-.
    destruct (owned_by_found sid uid _ c (coh_sessions _ Hcoh) Hfound) as [Hsidc _].
    exists (Conversation.deactivate c). split; [|done].
    unfold conversation_of. simpl.
    rewrite (findOne_update _ _ _ _ c (coh_ids _ Hcoh)); [|done|done].
    by rewrite bool_decide_eq_true_2. }
  replace (history ++ DeleteConversation env sid uid :: calls)
    with ((history ++ [DeleteConversation env sid uid]) ++ calls) in Hlist
    by (by rewrite <- app_assoc).
  destruct (run_app_grows (history ++ [DeleteConversation env sid uid]) calls) as [_ Hret].
  destruct (retained_conversation_of sid _ _ c Hret Hc) as (c' & Hc' & Hp).
  set (W := run ((history ++ [DeleteConversation env sid uid]) ++ calls)) in *.
  unfold ChatService.getUserConversations in Hlist.
  destruct (paginate _ _ _) as [cs|e] eqn:Hpage; [|done]. injection Hlist as <-.
  apply list_elem_of_fmap in Hs as (d & -> & Hd).
  apply paginate_Ok in Hpage as (_ & Hsub & _).
  apply (elem_of_sublist _ _ _ Hd), sort_desc_elem_of in Hsub.
  apply list_elem_of_In, List.filter_In in Hsub as [Hin Hf].
  apply list_elem_of_In in Hin.
  apply andb_prop in Hf as [_ Hactive%bool_decide_eq_true_1].
  pose proof (conversation_of_unique sid _ c' d (coh_sessions _ (run_coherent _)) Hc' Hin Hsid)
    as ->.
  rewrite (p_inactive _ _ Hp Hinactive) in Hactive. done.
Qed.

Lemma deleted_conversation_is_not_listed_witness :
  let later := [CreateConversation (env_at 4500 "T" 5%nat) "u1" "general" no_metadata] in
  ChatService.deleteConversation (env_at 4000 "-" 0%nat) "S" "u1" (run (take 3 scenario))
  = (Ok true, w_deleted)
  ∧ ∃ l, (ChatService.getUserConversations (env_at 5000 "-" 0%nat) "u1" 1 20
            (run (take 3 scenario
                  ++ DeleteConversation (env_at 4000 "-" 0%nat) "S" "u1" :: later))).1 = Ok l
         ∧ length l = 1%nat
         ∧ ∀ s, s ∈ l → Conversation.s_sessionId s ≠ "S"%string.
Proof.
  intros later.
  assert (ChatService.deleteConversation (env_at 4000 "-" 0%nat) "S" "u1" (run (take 3 scenario))
          = (Ok true, w_deleted)) as Hdel by (vm_compute; reflexivity).
  split; [exact Hdel|].
  assert (∃ l, (ChatService.getUserConversations (env_at 5000 "-" 0%nat) "u1" 1 20
                  (run (take 3 scenario
                        ++ DeleteConversation (env_at 4000 "-" 0%nat) "S" "u1" :: later))).1
               = Ok l ∧ length l = 1%nat) as (l & Hlist & Hlen).
  { eexists. split; vm_compute; reflexivity. }
  exists l. split_and!; [exact Hlist | exact Hlen |].
  exact (deleted_conversation_is_not_listed _ _ _ _ _ _ _ _ _ _ _ Hdel Hlist).
Defined.

(** ** Reading never writes the store *)

Lemma getConversation_keys env sid w k :
  k ≠ CacheService.conversationKey sid →
  Redis.keys (redis (ChatService.getConversation env sid w).2) !! k
  = Redis.keys (redis w) !! k.
Proof.
  intros Hk. rewrite getConversation_spec.
  destruct (Redis.up (redis w)); [|done].
  destruct (Redis.lookup _ _ _) as [e|]; [by destruct (Redis.val e)|].
  destruct (active_conversation_of sid w); [|done]. simpl.
  by rewrite lookup_insert_ne.
Qed.

(** X10. The read operations write nothing but the cached conversation
    of the session they read. getConversation, getMessages and
    getUserConversations leave the conversations, the messages and the
    object storage exactly as they were, whatever they return, and the
    only cache key they can change is conversation:<sessionId>. *)
Theorem reads_leave_the_store env sid uid page limit w w' :
  w' = (ChatService.getConversation env sid w).2
  ∨ w' = (ChatService.getMessages env sid page limit w).2
  ∨ w' = (ChatService.getUserConversations env uid page limit w).2 →
  conversations w' = conversations w
  ∧ messages w' = messages w
  ∧ s3 w' = s3 w
  ∧ (∀ k, k ≠ CacheService.conversationKey sid →
          Redis.keys (redis w') !! k = Redis.keys (redis w) !! k).
Proof.
  assert (w' = w ∨ w' = (ChatService.getConversation env sid w).2 →
          conversations w' = conversations w ∧ messages w' = messages w ∧ s3 w' = s3 w
          ∧ (∀ k, k ≠ CacheService.conversationKey sid →
                  Redis.keys (redis w') !! k = Redis.keys (redis w) !! k)) as Hcases.
  { intros [-> | ->]; [done|].
    destruct (getConversation_frame env sid w) as (? & ? & ?).
    split_and!; try done. intros k Hk. by apply getConversation_keys. }
  intros [-> | [-> | ->]].
  - apply Hcases. by right.
  - apply Hcases. destruct (getMessages_world env sid page limit w) as [-> | ->]; auto.
  - apply Hcases. left. unfold ChatService.getUserConversations. by destruct (paginate _ _ _).
Qed.

Lemma reads_leave_the_store_witness :
  conversations (ChatService.getMessages (env_at 3700000 "-" 0%nat) "S" 2 1 w_two).2
  = conversations w_two
  ∧ messages (ChatService.getMessages (env_at 3700000 "-" 0%nat) "S" 2 1 w_two).2
    = messages w_two
  ∧ (ChatService.getMessages (env_at 3700000 "-" 0%nat) "S" 2 1 w_two).2 ≠ w_two.
Proof.
  destruct (reads_leave_the_store (env_at 3700000 "-" 0%nat) "S" "u1" 2 1 w_two
              (ChatService.getMessages (env_at 3700000 "-" 0%nat) "S" 2 1 w_two).2)
    as (Hc & Hm & _); [right; left; reflexivity|].
  split_and!; [exact Hc | exact Hm |].
  intros Heq. apply (f_equal (λ w, Redis.keys (redis w) !! CacheService.conversationKey "S")) in Heq.
  vm_compute in Heq. discriminate.
Defined.

(** ** The store path of getMessages *)

Lemma getMessages_store_path env sid page limit w :
  page ≠ 1 ∨ 10 < limit →
  ChatService.getMessages env sid page limit w
  = ChatService.getMessages_store env sid page limit w.
Proof.
  intros Hpath. unfold ChatService.getMessages.
  destruct Hpath as [Hpage|Hlimit].
  - by rewrite (bool_decide_eq_false_2 (page = 1)).
  - rewrite (bool_decide_eq_false_2 (limit <= 10)) by lia. by rewrite andb_false_r.
Qed.

Lemma find_elem_of id ms m :
  m ∈ Message.find id ms ↔ m ∈ ms ∧ Message.conversationId m = id.
Proof.
  unfold Message.find. rewrite list_elem_of_In, List.filter_In, <- list_elem_of_In.
  by rewrite bool_decide_eq_true.
Qed.

(** X11. A page of history from the store. On the store path (page other
    than 1, or limit above 10) a successful getMessages found a
    conversation for the session, and returns only stored messages owned
    by that conversation, oldest first, at most |limit| of them unless
    limit is 0; for page 1 with a limit that is at least the number of
    messages the conversation owns it returns every one of them, each
    once. *)
Theorem getMessages_store_page env sid page limit w l w' :
  page ≠ 1 ∨ 10 < limit →
  ChatService.getMessages env sid page limit w = (Ok l, w') →
  ∃ c, (ChatService.getConversation env sid w).1 = Ok (Some c)
    ∧ 0 <= (page - 1) * limit
    ∧ (∀ v, v ∈ l → ∃ m, v = ChatService.FromStore m ∧ m ∈ messages w
                         ∧ Message.conversationId m = cc_id c)
    ∧ ascending l
    ∧ (limit ≠ 0 → (length l ≤ Z.to_nat (Z.abs limit))%nat)
    ∧ (page = 1 →
       (length (Message.find (cc_id c) (messages w)) ≤ Z.to_nat (Z.abs limit))%nat →
       l ≡ₚ ChatService.FromStore <$> Message.find (cc_id c) (messages w)).
Proof.
  intros Hpath Hget. rewrite getMessages_store_path in Hget by done.
  pose proof (getMessages_store_ascending _ _ _ _ _ _ _ Hget) as Hasc.
  unfold ChatService.getMessages_store, bind in Hget.
  destruct (getConversation_frame env sid w) as (_ & Hm1 & _).
  destruct (ChatService.getConversation env sid w) as [[[c|]|e] w1]; try done.
  simpl in Hm1. rewrite Hm1 in Hget.
  destruct (paginate _ _ _) as [ms|e] eqn:Hpage; [|done]. injection Hget as <- _.
  apply paginate_Ok in Hpage as (Hskip & Hsub & Hlen & Hall).
  exists c. split_and!; try done.
  - intros v (m & -> & Hm)%list_elem_of_fmap. exists m.
    rewrite elem_of_reverse in Hm.
    apply (elem_of_sublist _ _ _ Hm), sort_desc_elem_of, find_elem_of in Hsub. tauto.
  - intros Hlimit. rewrite length_fmap, length_reverse. by apply Hlen.
  - intros -> Hcount. rewrite Hall.
    + unfold sort_desc. by rewrite reverse_Permutation, merge_sort_Permutation.
    + lia.
    + right. unfold sort_desc.
      by rewrite (Permutation_length (merge_sort_Permutation _ _)).
Qed.

Lemma getMessages_store_page_witness :
  ∃ l, ChatService.getMessages (env_at 3500 "-" 0%nat) "S" 1 20 w_two = (Ok l, w_two)
       ∧ length l = 2%nat
       ∧ ascending l
       ∧ l ≡ₚ ChatService.FromStore <$> Message.find 1%nat (messages w_two).
Proof.
  assert (∃ l, ChatService.getMessages (env_at 3500 "-" 0%nat) "S" 1 20 w_two = (Ok l, w_two)
               ∧ length l = 2%nat) as (l & Hget & Hlen).
  { eexists. split; vm_compute; reflexivity. }
  destruct (getMessages_store_page (env_at 3500 "-" 0%nat) "S" 1 20 w_two l w_two)
    as (c & Hc & _ & _ & Hasc & _ & Hall); [right; lia | exact Hget |].
  assert (cc_id c = 1%nat) as Hid.
  { vm_compute in Hc. by injection Hc as <-. }
  exists l. split_and!; [exact Hget | exact Hlen | exact Hasc |].
  rewrite <- Hid. apply Hall; [reflexivity|]. rewrite Hid. vm_compute. lia.
Defined.

(** ** addMessage, stage by stage *)

Lemma s3_put_nil w : s3_put [] w = w.
Proof. unfold s3_put, set_s3. rewrite app_nil_r. by destruct w as [? ? ? []]. Qed.

Lemma s3_put_put ks ks' w : s3_put ks' (s3_put ks w) = s3_put (ks ++ ks') w.
Proof. unfold s3_put, set_s3. simpl. by rewrite app_assoc. Qed.

Lemma uploadFile_spec env i file folder w :
  StorageService.uploadFile env i file folder w =
  if S3.up (s3 w) then
    (Ok {| StorageService.key := upload_key env folder i file;
           StorageService.url := upload_url (s3 w) (upload_key env folder i file);
           StorageService.ur_size := size file;
           StorageService.mimeType := mimetype file |},
     s3_put [upload_key env folder i file] w)
  else (Err UploadFailed, w).
Proof. done. Qed.

Lemma images_of_cons s env folder i file rest :
  images_of s env folder i (file :: rest) =
  (if is_image file then [image_of s env folder i file] else [])
  ++ images_of s env folder (S i) rest.
Proof.
  unfold images_of, numbered. cbn [length seq zip zip_with List.filter snd].
  by destruct (is_image file).
Qed.

Lemma attachments_of_cons s env folder i file rest :
  attachments_of s env folder i (file :: rest) =
  (if is_image file then [] else [attachment_of s env folder i file])
  ++ attachments_of s env folder (S i) rest.
Proof.
  unfold attachments_of, numbered. cbn [length seq zip zip_with List.filter snd].
  by destruct (is_image file).
Qed.

Lemma keys_of_cons env folder i file rest :
  keys_of env folder i (file :: rest) =
  upload_key env folder i file :: keys_of env folder (S i) rest.
Proof. done. Qed.

(** The upload loop: with the object storage reachable (or nothing to
    upload) every file is uploaded under its key and routed by its mime
    type; otherwise the first upload fails and nothing is stored. *)
Lemma uploadFiles_spec env sid files : ∀ i images attachments w,
  ChatService.uploadFiles env sid i files images attachments w =
  if S3.up (s3 w) || bool_decide (files = []) then
    (Ok (images ++ images_of (s3 w) env ("conversations/" +:+ sid) i files,
         attachments ++ attachments_of (s3 w) env ("conversations/" +:+ sid) i files),
     s3_put (keys_of env ("conversations/" +:+ sid) i files) w)
  else (Err UploadFailed, w).
Proof.
  induction files as [|file rest IH]; intros i images attachments w.
  - rewrite orb_true_r. unfold images_of, attachments_of, keys_of, numbered. simpl.
    by rewrite !app_nil_r, s3_put_nil.
  - rewrite (bool_decide_eq_false_2 (file :: rest = [])) by done. rewrite orb_false_r.
    cbn [ChatService.uploadFiles]. unfold bind. rewrite uploadFile_spec.
    destruct (S3.up (s3 w)) eqn:Hup; [|done].
    assert (S3.up (s3 (s3_put [upload_key env ("conversations/" +:+ sid) i file] w)) = true)
      as Hup' by done.
    rewrite images_of_cons, attachments_of_cons, keys_of_cons.
    fold (is_image file).
    destruct (is_image file) eqn:Himg;
      rewrite IH, Hup'; cbn [orb]; rewrite s3_put_put; rewrite <- ?app_assoc; reflexivity.
Qed.

Lemma cache_addMessage_outcome env sid md w :
  (∃ e, CacheService.addMessage env sid md w = (Err e, w)
        ∧ ¬ (Redis.up (redis w) = true
             ∧ list_or_absent (now env) (CacheService.messagesKey sid) (redis w)))
  ∨ (Redis.up (redis w) = true
     ∧ list_or_absent (now env) (CacheService.messagesKey sid) (redis w)
     ∧ CacheService.addMessage env sid md w
       = (Ok (), window_put env sid (take 50 (md :: cache_window (now env) sid w)) w)).
Proof.
  destruct (Redis.up (redis w)) eqn:Hup.
  - destruct (Redis.lookup (now env) (CacheService.messagesKey sid) (Redis.keys (redis w)))
      as [[[c|l] t]|] eqn:Hk.
    + left. exists WrongType. split.
      * rewrite addMessage_as_commands. unfold CacheService.addMessage_commands. simpl.
        rewrite (lpush_wrongtype _ _ _ _ _ c Hup Hk eq_refl). simpl. by rewrite set_redis_id.
      * intros [_ Hlist]. by apply (Hlist _ c Hk).
    + right. assert (list_or_absent (now env) (CacheService.messagesKey sid) (redis w)) as Hlist.
      { intros e c. rewrite Hk. by intros [= <-]. }
      split_and!; [done | done | by apply addMessage_spec].
    + right. assert (list_or_absent (now env) (CacheService.messagesKey sid) (redis w)) as Hlist.
      { intros e c. by rewrite Hk. }
      split_and!; [done | done | by apply addMessage_spec].
  - left. exists RedisUnavailable. split; [|by intros [? _]].
    rewrite addMessage_as_commands. unfold CacheService.addMessage_commands. simpl.
    rewrite call_down by done. simpl. by rewrite set_redis_id.
Qed.

(** addMessage as the sequence of its five stages. *)
Lemma addMessage_stages env sid role content files w :
  ChatService.addMessage env sid role content files w =
  match ChatService.getConversation env sid w with
  | (Ok (Some c), w1) =>
      match ChatService.uploadFiles env sid 1 files [] [] w1 with
      | (Ok up, w2) =>
          let m := Message.new env (messageData_of env sid role content c up) in
          match Message.save m (messages w2) with
          | Ok ms =>
              match CacheService.addMessage env sid (Message.data m) (set_messages ms w2) with
              | (Ok _, w4) =>
                  (Ok m, set_conversations
                           (Conversation.findByIdAndUpdate (cc_id c)
                              (Conversation.touch (now env)) (conversations w4)) w4)
              | (Err e, w4) => (Err e, w4)
              end
          | Err e => (Err e, w2)
          end
      | (Err e, w2) => (Err e, w2)
      end
  | (Ok None, w1) => (Err ConversationNotFound, w1)
  | (Err e, w1) => (Err e, w1)
  end.
Proof.
  unfold ChatService.addMessage, bind.
  destruct (ChatService.getConversation env sid w) as [[[c|]|e] w1]; try done.
  destruct (ChatService.uploadFiles env sid 1 files [] [] w1) as [[up|e] w2]; [|done].
  unfold Message_save. simpl.
  destruct (Message.save _ (messages w2)) as [ms|e]; [|done].
  by destruct (CacheService.addMessage _ _ _ _) as [[[]|e] w4].
Qed.

(** What a successful addMessage did, in any world. *)
Lemma addMessage_Ok_world env sid role content files w m w' :
  ChatService.addMessage env sid role content files w = (Ok m, w') →
  ∃ c w1,
    ChatService.getConversation env sid w = (Ok (Some c), w1)
    ∧ (S3.up (s3 w1) = true ∨ files = [])
    ∧ m = Message.new env
            (messageData_of env sid role content c
               (images_of (s3 w1) env ("conversations/" +:+ sid) 1 files,
                attachments_of (s3 w1) env ("conversations/" +:+ sid) 1 files))
    ∧ Message.validate m = true
    ∧ w' = set_conversations
             (Conversation.findByIdAndUpdate (cc_id c) (Conversation.touch (now env))
                (conversations w1))
             (window_put env sid (take 50 (Message.data m :: cache_window (now env) sid w1))
                (set_messages (messages w1 ++ [m])
                   (s3_put (keys_of env ("conversations/" +:+ sid) 1 files) w1))).
Proof.
  rewrite addMessage_stages.
  destruct (ChatService.getConversation env sid w) as [[[c|]|e] w1]; try done.
  rewrite uploadFiles_spec.
  destruct (S3.up (s3 w1) || bool_decide (files = [])) eqn:Hs3; [|done].
  cbn zeta. cbn [app].
  destruct (Message.save _ _) as [ms|e] eqn:Hsave; [|done].
  apply Message_save_Ok in Hsave as (-> & Hvalid & _).
  match goal with |- context [CacheService.addMessage env sid ?md ?w3] =>
    destruct (cache_addMessage_outcome env sid md w3) as [(e & -> & _)|(_ & _ & ->)] end;
    [done|].
  intros [= <- <-]. exists c, w1. split_and!; try done.
  apply orb_true_iff in Hs3 as [?|?%bool_decide_eq_true]; auto.
Qed.

(** What a failed addMessage left behind, in a coherent world: nothing
    in the store and nothing in the cache windows. *)
Lemma addMessage_Err_world env sid role content files w e w' :
  coherent w →
  ChatService.addMessage env sid role content files w = (Err e, w') →
  conversations w' = conversations w
  ∧ messages w' = messages w
  ∧ (∀ now' sid', cache_window now' sid' w' = cache_window now' sid' w).
Proof.
  intros Hcoh. rewrite addMessage_stages.
  destruct (getConversation_coherent env sid w Hcoh)
    as (Hcoh1 & Hc1 & Hm1 & _ & Hup1 & Hok1 & _).
  pose proof (λ n s, getConversation_window env sid n s w) as Hwin.
  destruct (ChatService.getConversation env sid w) as [[[c|]|e1] w1] eqn:Hget; simpl in *;
    [| by intros [= _ <-] | by intros [= _ <-]].
  specialize (Hok1 _ eq_refl).
  pose proof (uploadFiles_frame env sid files 1%nat [] [] w1) as (Hc2 & Hm2 & Hr2).
  destruct (ChatService.uploadFiles env sid 1 files [] [] w1) as [[up|e2] w2]; simpl in *.
  - destruct (Message.save _ (messages w2)) as [ms|e3] eqn:Hsave.
    + match goal with |- context [CacheService.addMessage env sid ?md ?w3] =>
        destruct (cache_addMessage_outcome env sid md w3) as [(e4 & _ & Hno)|(_ & _ & ->)] end;
        [|done].
      exfalso. apply Hno. simpl. rewrite Hr2. split; [congruence|].
      by apply coherent_list_or_absent.
    + intros [= _ <-]. split_and!; [congruence | congruence |].
      intros. rewrite <- Hwin. unfold cache_window. by rewrite Hr2.
  - intros [= _ <-]. split_and!; [congruence | congruence |].
    intros. rewrite <- Hwin. unfold cache_window. by rewrite Hr2.
Qed.

(** ** Files of a message *)

Lemma string_app_assoc (s t u : string) : ((s +:+ t) +:+ u = s +:+ t +:+ u)%string.
Proof.
  induction s as [|a s IH]; [done|].
  change (String a ((s +:+ t) +:+ u) = String a (s +:+ t +:+ u)). by rewrite IH.
Qed.

Lemma prefix_app s t : String.prefix s (s +:+ t) = true.
Proof.
  induction s as [|a s IH].
  - by destruct t.
  - change (String.prefix (String a s) (String a (s +:+ t)) = true). simpl.
    destruct (Ascii.ascii_dec a a); [exact IH | congruence].
Qed.

Lemma upload_key_folder env folder i file :
  String.prefix (folder +:+ "/") (upload_key env folder i file) = true.
Proof. unfold upload_key. rewrite <- string_app_assoc. apply prefix_app. Qed.

Lemma numbered_elem_of i files j f : (j, f) ∈ numbered i files → f ∈ files.
Proof. unfold numbered. apply elem_of_zip_r. Qed.

Lemma images_of_elem_of s env folder i files img :
  img ∈ images_of s env folder i files →
  ∃ j f, (j, f) ∈ numbered i files ∧ is_image f = true ∧ img = image_of s env folder j f.
Proof.
  unfold images_of. intros ([j f] & -> & Hin)%list_elem_of_fmap.
  apply list_elem_of_In, List.filter_In in Hin as [Hin%list_elem_of_In Himg].
  by exists j, f.
Qed.

Lemma attachments_of_elem_of s env folder i files att :
  att ∈ attachments_of s env folder i files →
  ∃ j f, (j, f) ∈ numbered i files ∧ is_image f = false
         ∧ att = attachment_of s env folder j f.
Proof.
  unfold attachments_of. intros ([j f] & -> & Hin)%list_elem_of_fmap.
  apply list_elem_of_In, List.filter_In in Hin as [Hin%list_elem_of_In Himg].
  exists j, f. split_and!; [done | by apply negb_true_iff | done].
Qed.

Lemma keys_of_elem_of env folder i files j f :
  (j, f) ∈ numbered i files → upload_key env folder j f ∈ keys_of env folder i files.
Proof.
  intros Hin. unfold keys_of. apply list_elem_of_fmap. by exists (j, f).
Qed.

Lemma routed_length s env folder files : ∀ i,
  (length (images_of s env folder i files) + length (attachments_of s env folder i files)
   = length files)%nat.
Proof.
  induction files as [|f rest IH]; intros i; [done|].
  rewrite images_of_cons, attachments_of_cons, !length_app.
  specialize (IH (S i)). destruct (is_image f); simpl in *; lia.
Qed.

Lemma keys_of_length env folder i files :
  length (keys_of env folder i files) = length files.
Proof.
  unfold keys_of, numbered. rewrite length_fmap, length_zip, length_seq. lia.
Qed.

(** X12. The files of a message. A successful addMessage has uploaded
    every file, in order, under a key below conversations/<sessionId>/,
    and the stored message lists each file once: under images when its
    mime type starts with image/, under attachments otherwise. The
    message carries the role, the text, the sessionId and the time of
    the call. *)
Theorem addMessage_routes_files env sid role content files w m w' :
  ChatService.addMessage env sid role content files w = (Ok m, w') →
  md_images (Message.data m) = images_of (s3 w) env ("conversations/" +:+ sid) 1 files
  ∧ md_attachments (Message.data m)
    = attachments_of (s3 w) env ("conversations/" +:+ sid) 1 files
  ∧ S3.objects (s3 w') = S3.objects (s3 w) ++ keys_of env ("conversations/" +:+ sid) 1 files
  ∧ (length (md_images (Message.data m)) + length (md_attachments (Message.data m))
     = length files)%nat
  ∧ (length (S3.objects (s3 w')) = length (S3.objects (s3 w)) + length files)%nat
  ∧ (∀ img, img ∈ md_images (Message.data m) →
       String.prefix "image/" (img_mimeType img) = true
       ∧ String.prefix ("conversations/" +:+ sid +:+ "/") (img_cloudStorageKey img) = true
       ∧ img_cloudStorageKey img ∈ S3.objects (s3 w'))
  ∧ (∀ att, att ∈ md_attachments (Message.data m) →
       String.prefix "image/" (att_mimeType att) = false
       ∧ String.prefix ("conversations/" +:+ sid +:+ "/") (att_cloudStorageKey att) = true
       ∧ att_cloudStorageKey att ∈ S3.objects (s3 w'))
  ∧ md_role (Message.data m) = role
  ∧ md_text (Message.data m) = content
  ∧ md_sessionId (Message.data m) = sid
  ∧ md_timestamp (Message.data m) = now env.
Proof.
  intros (c & w1 & Hget & _ & -> & _ & ->)%addMessage_Ok_world.
  pose proof (getConversation_frame env sid w) as (_ & _ & Hs3). rewrite Hget in Hs3.
  simpl in Hs3. simpl. rewrite Hs3.
  assert (∀ j f, String.prefix ("conversations/" +:+ sid +:+ "/")
                   (upload_key env ("conversations/" +:+ sid) j f) = true) as Hfolder.
  { intros j f. apply (upload_key_folder env ("conversations/" +:+ sid)). }
  split_and!; try done.
  - apply routed_length.
  - rewrite length_app, keys_of_length. lia.
  - intros img (j & f & Hin & Himg & ->)%images_of_elem_of. split_and!; [done | apply Hfolder |].
    apply elem_of_app. right. by apply keys_of_elem_of.
  - intros att (j & f & Hin & Himg & ->)%attachments_of_elem_of.
    split_and!; [done | apply Hfolder |].
    apply elem_of_app. right. by apply keys_of_elem_of.
Qed.

Lemma addMessage_routes_files_witness :
  ∃ m w', ChatService.addMessage (env_at 2000 "m1" 2%nat) "S" "user" "hello" two_files w_created
          = (Ok m, w')
    ∧ length (md_images (Message.data m)) = 1%nat
    ∧ length (md_attachments (Message.data m)) = 1%nat
    ∧ S3.objects (s3 w') = ["conversations/S/m1-scan.png"; "conversations/S/m1-report.pdf"]%string.
Proof.
  assert (∃ m w',
            ChatService.addMessage (env_at 2000 "m1" 2%nat) "S" "user" "hello" two_files w_created
            = (Ok m, w')) as (m & w' & Hadd).
  { eexists _, _. vm_compute. reflexivity. }
  destruct (addMessage_routes_files _ _ _ _ _ _ _ _ Hadd) as (Hi & Ha & Ho & _).
  exists m, w'. split_and!; [exact Hadd | by rewrite Hi | by rewrite Ha | by rewrite Ho].
Defined.

(** ** Failed appends *)

(** X13. A failed addMessage stores nothing. Whatever the reason
    (no conversation, cache unreachable, upload failed, message refused
    by the schema or by a unique index), after any history of service
    calls a failing addMessage leaves every conversation (messageCount
    and lastActivity included), every stored message and every cache
    window as they were. The cache is reachable or not for the whole
    call: its reachability changes between service calls only. *)
Theorem failed_addMessage_stores_nothing history env sid role content files e w' :
  ChatService.addMessage env sid role content files (run history) = (Err e, w') →
  conversations w' = conversations (run history)
  ∧ messages w' = messages (run history)
  ∧ (∀ now' sid', cache_window now' sid' w' = cache_window now' sid' (run history)).
Proof. intros Hadd. eapply addMessage_Err_world; [apply run_coherent | exact Hadd]. Qed.

Lemma failed_addMessage_stores_nothing_witness :
  ∃ w', ChatService.addMessage (env_at 3500 "m3" 4%nat) "S" "robot" "beep" [] w_two
        = (Err ValidationError, w')
    ∧ conversations w' = conversations w_two
    ∧ messages w' = messages w_two
    ∧ cache_window 3500 "S" w' = cache_window 3500 "S" w_two.
Proof.
  assert (∃ w', ChatService.addMessage (env_at 3500 "m3" 4%nat) "S" "robot" "beep" []
                  (run (take 3 scenario)) = (Err ValidationError, w')) as (w' & Hadd).
  { eexists. vm_compute. reflexivity. }
  destruct (failed_addMessage_stores_nothing _ _ _ _ _ _ _ _ Hadd) as (Hc & Hm & Hw).
  exists w'. split_and!; [exact Hadd | exact Hc | exact Hm | apply Hw].
Defined.

Lemma save_invalid_role env md coll :
  md_role md ∉ Message.roles → Message.save (Message.new env md) coll = Err ValidationError.
Proof.
  intros Hrole. unfold Message.save, Message.validate. simpl.
  rewrite (bool_decide_eq_false_2 _ Hrole). by rewrite andb_false_r.
Qed.

(** X14. A message refused by the schema leaves its uploads behind. The
    files are uploaded before the message is validated: when the
    conversation is found and the object storage is reachable, an
    addMessage with a role other than user, assistant or system fails
    with a validation error after every file has been put in the object
    storage; no message is stored and none refers to the objects. *)
Theorem rejected_message_leaves_its_uploads env sid role content files w c w1 :
  ChatService.getConversation env sid w = (Ok (Some c), w1) →
  S3.up (s3 w) = true →
  role ∉ Message.roles →
  ChatService.addMessage env sid role content files w
  = (Err ValidationError, s3_put (keys_of env ("conversations/" +:+ sid) 1 files) w1)
  ∧ messages (ChatService.addMessage env sid role content files w).2 = messages w
  ∧ conversations (ChatService.addMessage env sid role content files w).2 = conversations w
  ∧ S3.objects (s3 (ChatService.addMessage env sid role content files w).2)
    = S3.objects (s3 w) ++ keys_of env ("conversations/" +:+ sid) 1 files
  ∧ length (keys_of env ("conversations/" +:+ sid) 1 files) = length files.
Proof.
  intros Hget Hup Hrole.
  pose proof (getConversation_frame env sid w) as (Hc1 & Hm1 & Hs1).
  rewrite Hget in Hc1, Hm1, Hs1. simpl in Hc1, Hm1, Hs1.
  assert (ChatService.addMessage env sid role content files w
          = (Err ValidationError, s3_put (keys_of env ("conversations/" +:+ sid) 1 files) w1))
    as Hadd.
  { rewrite addMessage_stages, Hget, uploadFiles_spec, Hs1, Hup. cbn [orb]. cbv zeta.
    by rewrite save_invalid_role. }
  rewrite Hadd. simpl. rewrite Hs1. split_and!; try done. apply keys_of_length.
Qed.

Lemma rejected_message_leaves_its_uploads_witness :
  ∃ w1, ChatService.addMessage (env_at 2000 "m1" 2%nat) "S" "robot" "beep" two_files w_created
        = (Err ValidationError, w1)
    ∧ messages w1 = []
    ∧ S3.objects (s3 w1) = ["conversations/S/m1-scan.png"; "conversations/S/m1-report.pdf"]%string.
Proof.
  assert (∃ c w1, ChatService.getConversation (env_at 2000 "m1" 2%nat) "S" w_created
                  = (Ok (Some c), w1)) as (c & w1 & Hget).
  { eexists _, _. vm_compute. reflexivity. }
  destruct (rejected_message_leaves_its_uploads (env_at 2000 "m1" 2%nat) "S" "robot" "beep"
              two_files w_created c w1 Hget) as (Hadd & Hm & _ & Ho & _).
  { vm_compute. reflexivity. }
  { vm_compute. intros H. repeat (apply elem_of_cons in H as [H|H]; [discriminate H|]).
    by apply elem_of_nil in H. }
  eexists. split_and!; [exact Hadd | | ].
  - rewrite Hadd in Hm. exact Hm.
  - rewrite Hadd in Ho. exact Ho.
Defined.

(** X15. A failed upload aborts the append. When the conversation is
    found but the object storage is unreachable and the call has files,
    addMessage fails with the upload error of the first file; nothing is
    uploaded, stored, counted or pushed to the cache window. *)
Theorem upload_failure_aborts_addMessage env sid role content files w c w1 :
  ChatService.getConversation env sid w = (Ok (Some c), w1) →
  S3.up (s3 w) = false →
  files ≠ [] →
  ChatService.addMessage env sid role content files w = (Err UploadFailed, w1)
  ∧ s3 w1 = s3 w
  ∧ messages w1 = messages w
  ∧ conversations w1 = conversations w
  ∧ (∀ now' sid', cache_window now' sid' w1 = cache_window now' sid' w).
Proof.
  intros Hget Hup Hfiles.
  pose proof (getConversation_frame env sid w) as (Hc1 & Hm1 & Hs1).
  pose proof (λ n s, getConversation_window env sid n s w) as Hwin.
  rewrite Hget in Hc1, Hm1, Hs1, Hwin. simpl in Hc1, Hm1, Hs1, Hwin.
  split_and!; try done.
  rewrite addMessage_stages, Hget, uploadFiles_spec, Hs1, Hup.
  by rewrite (bool_decide_eq_false_2 _ Hfiles).
Qed.

Lemma upload_failure_aborts_addMessage_witness :
  ∃ w1, ChatService.addMessage (env_at 2000 "m1" 2%nat) "S" "user" "hello" two_files
          (step w_created (SetS3Up false)) = (Err UploadFailed, w1)
    ∧ S3.objects (s3 w1) = []
    ∧ messages w1 = [].
Proof.
  assert (∃ c w1, ChatService.getConversation (env_at 2000 "m1" 2%nat) "S"
                    (step w_created (SetS3Up false)) = (Ok (Some c), w1)) as (c & w1 & Hget).
  { eexists _, _. vm_compute. reflexivity. }
  destruct (upload_failure_aborts_addMessage (env_at 2000 "m1" 2%nat) "S" "user" "hello"
              two_files _ c w1 Hget) as (Hadd & Hs & Hm & _).
  { vm_compute. reflexivity. }
  { discriminate. }
  exists w1. split_and!; [exact Hadd | by rewrite Hs | by rewrite Hm].
Defined.

(** ** The upload filter and the routing of files *)

Lemma allowed_mime_routing f :
  fileFilter f = true →
  (is_image f = true
   ∧ mimetype f ∈ ["image/jpeg"; "image/png"; "image/gif"; "image/webp"]%string)
  ∨ (is_image f = false
     ∧ mimetype f ∈ ["application/pdf"; "text/plain"; "application/json"]%string).
Proof.
  unfold fileFilter, allowedMimes, is_image. intros H%bool_decide_eq_true.
  repeat (apply elem_of_cons in H as [->|H]; [vm_compute; set_solver|]).
  by apply elem_of_nil in H.
Qed.

(** X16. Files accepted by the upload filter are routed by their type.
    When every file of a successful addMessage passed the filter of the
    upload route, the images of the stored message are exactly the
    files of type jpeg, png, gif or webp and its attachments the files
    of type pdf, plain text or json. *)
Theorem filtered_files_are_routed_by_type env sid role content files w m w' :
  Forall (λ f, fileFilter f = true) files →
  ChatService.addMessage env sid role content files w = (Ok m, w') →
  (∀ img, img ∈ md_images (Message.data m) →
     img_mimeType img ∈ ["image/jpeg"; "image/png"; "image/gif"; "image/webp"]%string)
  ∧ (∀ att, att ∈ md_attachments (Message.data m) →
       att_mimeType att ∈ ["application/pdf"; "text/plain"; "application/json"]%string)
  ∧ (length (md_images (Message.data m)) + length (md_attachments (Message.data m))
     = length files)%nat.
Proof.
  intros Hfilter (c & w1 & _ & _ & -> & _ & _)%addMessage_Ok_world.
  rewrite Forall_forall in Hfilter. simpl. split_and!.
  - intros img (j & f & Hin%numbered_elem_of & Himg & ->)%images_of_elem_of. simpl.
    destruct (allowed_mime_routing f (Hfilter f Hin)) as [[_ ?]|[? _]]; [done | congruence].
  - intros att (j & f & Hin%numbered_elem_of & Himg & ->)%attachments_of_elem_of. simpl.
    destruct (allowed_mime_routing f (Hfilter f Hin)) as [[? _]|[_ ?]]; [congruence | done].
  - apply routed_length.
Qed.

Lemma filtered_files_are_routed_by_type_witness :
  ∃ m w', ChatService.addMessage (env_at 2000 "m1" 2%nat) "S" "user" "hello" two_files w_created
          = (Ok m, w')
    ∧ (length (md_images (Message.data m)) + length (md_attachments (Message.data m)) = 2)%nat.
Proof.
  assert (∃ m w',
            ChatService.addMessage (env_at 2000 "m1" 2%nat) "S" "user" "hello" two_files w_created
            = (Ok m, w')) as (m & w' & Hadd).
  { eexists _, _. vm_compute. reflexivity. }
  destruct (filtered_files_are_routed_by_type _ _ _ _ two_files _ _ _
              ltac:(repeat constructor) Hadd) as (_ & _ & Hlen).
  exists m, w'. split; [exact Hadd | exact Hlen].
Defined.

(** ** One session at a time *)

Lemma NoDup_fmap_eq {A B : Type} (f : A → B) (l : list A) x y :
  NoDup (f <$> l) → x ∈ l → y ∈ l → f x = f y → x = y.
Proof.
  induction l as [|a l IH]; [by intros _ ?%elem_of_nil|].
  rewrite fmap_cons, NoDup_cons.
  intros [Hn Hd] [->|Hx]%elem_of_cons [->|Hy]%elem_of_cons Hf; auto.
  - exfalso. apply Hn. rewrite Hf. apply list_elem_of_fmap. by exists y.
  - exfalso. apply Hn. rewrite <- Hf. apply list_elem_of_fmap. by exists x.
Qed.

Lemma ident_elem_of cid sid (cs : list Conversation.t) :
  (cid, sid) ∈ (ident <$> cs) ↔
  ∃ c, c ∈ cs ∧ Conversation._id c = cid ∧ Conversation.sessionId c = sid.
Proof.
  rewrite list_elem_of_fmap. unfold ident. split.
  - intros (c & [= -> ->] & Hc). by exists c.
  - intros (c & Hc & <- & <-). by exists c.
Qed.

Lemma findOne_None filter coll :
  Conversation.findOne filter coll = None ↔ ∀ c, c ∈ coll → filter c = false.
Proof.
  induction coll as [|c cs IH]; simpl.
  - split; [by intros _ ? ?%elem_of_nil | done].
  - destruct (filter c) eqn:Hc.
    + split; [done|]. intros H. specialize (H c ltac:(left)). congruence.
    + rewrite IH. split.
      * intros H x [->|Hx]%elem_of_cons; auto.
      * intros H x Hx. apply H. by right.
Qed.

(** A conversation named by an (id, sessionId) pair of the store is the
    one [findOne({ sessionId })] returns. *)
Lemma ident_conversation_of cid sid w :
  NoDup (Conversation.sessionId <$> conversations w) →
  (cid, sid) ∈ (ident <$> conversations w) →
  ∃ c, conversation_of sid w = Some c ∧ Conversation._id c = cid.
Proof.
  intros Hnd (c0 & Hc0 & Hid & Hsid)%ident_elem_of. unfold conversation_of.
  destruct (Conversation.findOne _ (conversations w)) as [c|] eqn:Hfind.
  - exists c. split; [done|].
    by rewrite <- (conversation_of_unique sid _ c c0 Hnd Hfind Hc0 Hsid).
  - rewrite findOne_None in Hfind. specialize (Hfind c0 Hc0). simpl in Hfind.
    by rewrite bool_decide_eq_true_2 in Hfind.
Qed.

Lemma update_elem_of_ne id update coll c' :
  c' ∈ coll → Conversation._id c' ≠ id →
  c' ∈ Conversation.findByIdAndUpdate id update coll.
Proof.
  induction coll as [|c cs IH]; simpl; [done|].
  intros [->|Hin]%elem_of_cons Hid.
  - rewrite bool_decide_eq_false_2 by done. left.
  - case_bool_decide; right; auto.
Qed.

Lemma cache_window_put_other env now' sid sid' l w :
  sid' ≠ sid → cache_window now' sid' (window_put env sid l w) = cache_window now' sid' w.
Proof.
  intros Hsid. unfold cache_window, window_put, Redis.window. simpl.
  rewrite lookup_insert_other; [done|]. by intros ?%messagesKey_inj.
Qed.

(** X17. An append touches one session. After any history of service
    calls, a successful addMessage for a session replaces the stored
    conversation of that session by the same document with messageCount
    one higher and lastActivity set to the time of the call, and appends
    its message to the store; every conversation of another session,
    and every cache window of another session, is left as it was. *)
Theorem addMessage_touches_one_session history env sid role content files m w' :
  ChatService.addMessage env sid role content files (run history) = (Ok m, w') →
  (∃ c, conversation_of sid (run history) = Some c
        ∧ conversation_of sid w' = Some (Conversation.touch (now env) c)
        ∧ Message.conversationId m = Conversation._id c)
  ∧ messages w' = messages (run history) ++ [m]
  ∧ (∀ c', Conversation.sessionId c' ≠ sid →
       (c' ∈ conversations w' ↔ c' ∈ conversations (run history)))
  ∧ (∀ now' sid', sid' ≠ sid →
       cache_window now' sid' w' = cache_window now' sid' (run history)).
Proof.
  intros Hadd. pose proof (run_coherent history) as Hcoh.
  destruct (chat_addMessage_Ok _ _ _ _ _ _ _ _ Hcoh Hadd)
    as (cid & Hid & Hm & Hms & Hcs & _ & _ & _).
  destruct (ident_conversation_of cid sid _ (coh_sessions _ Hcoh) Hid) as (c & Hc & Hcid).
  destruct (append_counts _ _ _ _ _ _ _ _ _ Hcoh Hc Hadd) as (_ & Hc' & _ & _).
  apply findOne_Some in Hc as Hcin. destruct Hcin as [Hcin Hcsid%bool_decide_eq_true].
  split_and!.
  - exists c. split_and!; [done | done | congruence].
  - done.
  - intros c' Hsid. rewrite Hcs. split.
    + intros [[? _]|(c0 & Hc0 & Hid0 & ->)]%update_elem_of; [done | | apply Hcoh].
      assert (c0 = c) as ->.
      { apply (NoDup_fmap_eq Conversation._id (conversations (run history)));
          [apply Hcoh | done | done | congruence]. }
      by simpl in Hsid.
    + intros Hin. apply update_elem_of_ne; [done|]. intros Hid'. apply Hsid.
      assert (c' = c) as ->; [|done].
      apply (NoDup_fmap_eq Conversation._id (conversations (run history)));
        [apply Hcoh | done | done | congruence].
  - intros now' sid' Hsid.
    apply addMessage_Ok_world in Hadd as (c1 & w1 & Hget & _ & _ & _ & ->).
    rewrite <- (getConversation_window env sid now' sid' (run history)), Hget. simpl.
    etrans; [|apply (cache_window_put_other env now' sid sid'
                       (take 50 (Message.data m :: cache_window (now env) sid w1)) w1 Hsid)].
    reflexivity.
Qed.

Lemma addMessage_touches_one_session_witness :
  let history :=
    [ CreateConversation (env_at 1000 "S" 1%nat) "u1" "general" no_metadata;
      CreateConversation (env_at 1500 "T" 5%nat) "u2" "general" no_metadata ] in
  ∃ m w', ChatService.addMessage (env_at 2000 "m1" 2%nat) "S" "user" "hello" [] (run history)
          = (Ok m, w')
    ∧ messages w' = [m]
    ∧ cache_window 2500 "T" w' = [].
Proof.
  intros history.
  assert (∃ m w', ChatService.addMessage (env_at 2000 "m1" 2%nat) "S" "user" "hello" []
                    (run history) = (Ok m, w')) as (m & w' & Hadd).
  { eexists _, _. vm_compute. reflexivity. }
  destruct (addMessage_touches_one_session _ _ _ _ _ _ _ _ Hadd) as (_ & Hms & _ & Hwin).
  exists m, w'. split_and!; [exact Hadd | exact Hms |].
  rewrite (Hwin 2500 "T"%string) by discriminate. vm_compute. reflexivity.
Defined.

(** ** Reading back what was appended *)

Lemma sort_desc_head {A : Type} (key : A → Z) (l : list A) (m : A) :
  (∀ x, x ∈ l → key x < key m) →
  ∃ rest, sort_desc key (l ++ [m]) = m :: rest.
Proof.
  intros Hlt.
  pose proof (sort_desc_sorted key (l ++ [m])) as Hsorted.
  assert (m ∈ sort_desc key (l ++ [m])) as Hm.
  { apply sort_desc_elem_of, elem_of_app. right. left. }
  assert (∀ x, x ∈ sort_desc key (l ++ [m]) → x ∈ l ∨ x = m) as Hall.
  { intros x Hx%sort_desc_elem_of. apply elem_of_app in Hx as [?|Hx]; [by left|].
    right. by apply list_elem_of_singleton in Hx. }
  destruct (sort_desc key (l ++ [m])) as [|h rest]; [by apply elem_of_nil in Hm|].
  destruct (Hall h ltac:(left)) as [Hh| ->]; [|by exists rest].
  apply elem_of_cons in Hm as [->|Hm]; [by exists rest|].
  apply StronglySorted_inv in Hsorted as [_ Hrest]. rewrite Forall_forall in Hrest.
  specialize (Hrest m Hm). unfold desc in Hrest. specialize (Hlt h Hh). lia.
Qed.

Lemma find_snoc id ms m :
  Message.conversationId m = id → Message.find id (ms ++ [m]) = Message.find id ms ++ [m].
Proof.
  intros Hid. unfold Message.find. rewrite List.filter_app. simpl.
  by rewrite bool_decide_eq_true_2.
Qed.

Lemma ident_functional a b sid (cs : list Conversation.t) :
  NoDup (Conversation.sessionId <$> cs) →
  (a, sid) ∈ (ident <$> cs) → (b, sid) ∈ (ident <$> cs) → a = b.
Proof.
  intros Hnd (x & Hx & <- & Hxs)%ident_elem_of (y & Hy & <- & Hys)%ident_elem_of.
  f_equal. apply (NoDup_fmap_eq Conversation.sessionId cs); [done | done | done | congruence].
Qed.

Lemma read_back_after_getConversation history env sid role content files m w' env' limit c' w1 :
  ChatService.addMessage env sid role content files (run history) = (Ok m, w') →
  (∀ x, x ∈ messages (run history) → Message.createdAt x < now env) →
  10 < limit →
  ChatService.getConversation env' sid w' = (Ok (Some c'), w1) →
  ∃ l, ChatService.getMessages env' sid 1 limit w' = (Ok l, w1)
       ∧ last l = Some (ChatService.FromStore m).
Proof.
  intros Hadd Hnew Hlimit Hget. pose proof (run_coherent history) as Hcoh.
  destruct (chat_addMessage_Ok _ _ _ _ _ _ _ _ Hcoh Hadd)
    as (cid & Hid & Hm & Hms & Hcs & _ & Hup' & Hcoh').
  rewrite getMessages_store_path by (right; lia).
  unfold ChatService.getMessages_store, bind.
  destruct (getConversation_coherent env' sid w' Hcoh') as (_ & _ & Hm1 & _ & _ & _ & Hid1).
  rewrite Hget in Hm1, Hid1 |- *. simpl in Hm1, Hid1. specialize (Hid1 c' eq_refl).
  assert (cc_id c' = cid) as Hc'.
  { apply (ident_functional _ _ sid (conversations (run history)));
      [apply Hcoh | | done].
    rewrite Hcs in Hid1. rewrite update_fmap in Hid1; done. }
  rewrite Hm1, Hms, Hc', (find_snoc cid _ m Hm).
  destruct (sort_desc_head Message.createdAt (Message.find cid (messages (run history))) m)
    as (rest & ->).
  { intros x [Hx _]%find_elem_of.
    apply addMessage_Ok_world in Hadd as (c & w0 & _ & _ & -> & _ & _). simpl. by apply Hnew. }
  unfold paginate. rewrite bool_decide_eq_false_2 by lia.
  rewrite (bool_decide_eq_false_2 (limit = 0)) by lia.
  replace ((1 - 1) * limit) with 0 by lia. rewrite drop_0.
  destruct (Z.to_nat (Z.abs limit)) as [|n] eqn:Hn; [lia|].
  eexists. split; [reflexivity|].
  cbn [take]. rewrite reverse_cons, fmap_app. simpl. by rewrite last_snoc.
Qed.

Lemma active_after_touch sid id now (cs : list Conversation.t) c :
  NoDup (Conversation._id <$> cs) →
  Conversation.findOne
    (λ c, bool_decide (Conversation.sessionId c = sid)
          && bool_decide (Conversation.isActive c = true)) cs = Some c →
  is_Some (Conversation.findOne
             (λ c, bool_decide (Conversation.sessionId c = sid)
                   && bool_decide (Conversation.isActive c = true))
             (Conversation.findByIdAndUpdate id (Conversation.touch now) cs)).
Proof.
  intros Hnd Hfind.
  erewrite (findOne_update _ id (Conversation.touch now) cs c Hnd); [by eexists | done | done].
Qed.

(** X18. An appended message is read back. After any history of service
    calls, when addMessage succeeds at a time later than the creation
    time of every stored message, a following getMessages for the same
    session that takes the store path on page 1 (limit above 10) returns,
    whenever it succeeds, the stored message as its last, i.e. newest,
    entry; and it does succeed when the conversation is active in the
    store. *)
Theorem appended_message_is_read_back history env sid role content files m w' env' limit :
  ChatService.addMessage env sid role content files (run history) = (Ok m, w') →
  (∀ x, x ∈ messages (run history) → Message.createdAt x < now env) →
  10 < limit →
  (∀ l w'', ChatService.getMessages env' sid 1 limit w' = (Ok l, w'') →
            last l = Some (ChatService.FromStore m))
  ∧ (is_Some (active_conversation_of sid (run history)) →
     ∃ l w'', ChatService.getMessages env' sid 1 limit w' = (Ok l, w'')
              ∧ last l = Some (ChatService.FromStore m)).
Proof.
  intros Hadd Hnew Hlimit. pose proof (run_coherent history) as Hcoh.
  split.
  - intros l w'' Hread.
    destruct (ChatService.getConversation env' sid w') as [[[c'|]|e] w1] eqn:Hget.
    + destruct (read_back_after_getConversation _ _ _ _ _ _ _ _ env' limit c' w1
                  Hadd Hnew Hlimit Hget) as (l0 & Hread0 & Hlast).
      rewrite Hread0 in Hread. by injection Hread as <- _.
    + rewrite getMessages_store_path in Hread by (right; lia).
      unfold ChatService.getMessages_store, bind in Hread. by rewrite Hget in Hread.
    + rewrite getMessages_store_path in Hread by (right; lia).
      unfold ChatService.getMessages_store, bind in Hread. by rewrite Hget in Hread.
  - intros [c Hactive].
    destruct (chat_addMessage_Ok _ _ _ _ _ _ _ _ Hcoh Hadd)
      as (cid & _ & _ & _ & Hcs & _ & Hup' & Hcoh').
    assert (∃ c' w1, ChatService.getConversation env' sid w' = (Ok (Some c'), w1))
      as (c' & w1 & Hget).
    { rewrite getConversation_spec, Hup'.
      destruct (Redis.lookup _ _ _) as [e|] eqn:Hk.
      - destruct (Redis.val e) as [cc|ms] eqn:Hval; [by eexists _, _|].
        apply lookup_Some in Hk as [Hk _].
        pose proof (coh_cache _ Hcoh' _ _ Hk) as Hcache. rewrite Hval in Hcache.
        destruct Hcache as [[sid' Hkey] _]. symmetry in Hkey.
        by apply messagesKey_conversationKey in Hkey.
      - unfold active_conversation_of in *. rewrite Hcs.
        destruct (active_after_touch sid cid (now env) _ c (coh_ids _ Hcoh) Hactive)
          as [d ->].
        by eexists _, _. }
    destruct (read_back_after_getConversation _ _ _ _ _ _ _ _ env' limit c' w1
                Hadd Hnew Hlimit Hget) as (l & Hread & Hlast).
    by exists l, w1.
Qed.

Lemma appended_message_is_read_back_witness :
  ∃ m w' l w'',
    ChatService.addMessage (env_at 3000 "m2" 3%nat) "S" "assistant" "hi" [] (run (take 2 scenario))
    = (Ok m, w')
    ∧ ChatService.getMessages (env_at 3500 "-" 0%nat) "S" 1 20 w' = (Ok l, w'')
    ∧ length l = 2%nat
    ∧ last l = Some (ChatService.FromStore m).
Proof.
  assert (∃ m w', ChatService.addMessage (env_at 3000 "m2" 3%nat) "S" "assistant" "hi" []
                    (run (take 2 scenario)) = (Ok m, w')) as (m & w' & Hadd).
  { eexists _, _. vm_compute. reflexivity. }
  assert (∀ x, x ∈ messages (run (take 2 scenario))
               → Message.createdAt x < now (env_at 3000 "m2" 3%nat)) as Hnew.
  { intros x Hx. vm_compute in Hx. apply list_elem_of_singleton in Hx as ->. reflexivity. }
  destruct (appended_message_is_read_back (take 2 scenario) _ _ _ _ _ _ _
              (env_at 3500 "-" 0%nat) 20 Hadd Hnew ltac:(lia)) as [Hlast _].
  assert (∃ l w'', ChatService.getMessages (env_at 3500 "-" 0%nat) "S" 1 20 w' = (Ok l, w'')
                   ∧ length l = 2%nat) as (l & w'' & Hread & Hlen).
  { injection Hadd as <- <-. eexists _, _. split; vm_compute; reflexivity. }
  exists m, w', l, w''. split_and!; [exact Hadd | exact Hread | exact Hlen |].
  exact (Hlast l w'' Hread).
Defined.

(** ** What getConversation returns *)

(** X19. getConversation names a stored conversation of the session.
    After any history of service calls, whatever getConversation returns
    for a session, from the cache or from the store, carries the _id of
    the stored conversation with that sessionId (which may have been
    deactivated since it was cached): a cache entry never outlives its
    document and never names the conversation of another session. *)
Theorem getConversation_names_stored_conversation history env sid c :
  (ChatService.getConversation env sid (run history)).1 = Ok (Some c) →
  ∃ d, conversation_of sid (run history) = Some d
       ∧ d ∈ conversations (run history)
       ∧ Conversation._id d = cc_id c
       ∧ Conversation.sessionId d = sid.
Proof.
  intros Hget. pose proof (run_coherent history) as Hcoh.
  destruct (getConversation_coherent env sid _ Hcoh) as (_ & _ & _ & _ & _ & _ & Hid).
  destruct (ident_conversation_of _ _ _ (coh_sessions _ Hcoh) (Hid c Hget)) as (d & Hd & Hdid).
  exists d. apply findOne_Some in Hd as Hin. destruct Hin as [Hin Hsid%bool_decide_eq_true].
  done.
Qed.

Lemma getConversation_names_stored_conversation_witness :
  ∃ c d, (ChatService.getConversation (env_at 4500 "-" 0%nat) "S" w_deleted).1 = Ok (Some c)
         ∧ conversation_of "S" w_deleted = Some d
         ∧ Conversation._id d = cc_id c
         ∧ Conversation.isActive d = false.
Proof.
  assert (∃ c, (ChatService.getConversation (env_at 4500 "-" 0%nat) "S" (run scenario)).1
               = Ok (Some c)) as (c & Hget).
  { eexists. vm_compute. reflexivity. }
  destruct (getConversation_names_stored_conversation scenario _ _ c Hget)
    as (d & Hd & _ & Hid & _).
  exists c, d. split_and!; [exact Hget | exact Hd | exact Hid |].
  vm_compute in Hd. by injection Hd as <-.
Defined.

(** ** backupConversation *)

Lemma getConversation_again env sid w c w1 :
  ChatService.getConversation env sid w = (Ok (Some c), w1) →
  ChatService.getConversation env sid w1 = (Ok (Some c), w1).
Proof.
  rewrite getConversation_spec.
  destruct (Redis.up (redis w)) eqn:Hup; [|done].
  destruct (Redis.lookup _ _ _) as [e|] eqn:Hk.
  - destruct (Redis.val e) as [cc|l] eqn:Hval; [|done]. intros [= <- <-].
    by rewrite getConversation_spec, Hup, Hk, Hval.
  - destruct (active_conversation_of sid w) as [d|]; [|done]. intros [= <- <-].
    rewrite getConversation_spec, lookup_cache_put.
    by rewrite bool_decide_eq_true_2 by lia.
Qed.

(** The store path of getMessages on page 1, exactly. *)
Lemma getMessages_first_page env sid limit w c w1 :
  10 < limit →
  ChatService.getConversation env sid w = (Ok (Some c), w1) →
  ChatService.getMessages env sid 1 limit w
  = (Ok (ChatService.FromStore
           <$> reverse (take (Z.to_nat limit)
                          (sort_desc Message.createdAt
                             (Message.find (cc_id c) (messages w))))), w1).
Proof.
  intros Hlimit Hget. rewrite getMessages_store_path by (right; lia).
  unfold ChatService.getMessages_store, bind.
  pose proof (getConversation_frame env sid w) as (_ & Hm1 & _).
  rewrite Hget in Hm1 |- *. simpl in Hm1. rewrite Hm1.
  unfold paginate. rewrite bool_decide_eq_false_2 by lia.
  rewrite (bool_decide_eq_false_2 (limit = 0)) by lia.
  replace ((1 - 1) * limit) with 0 by lia. rewrite drop_0.
  by replace (Z.abs limit) with limit by lia.
Qed.

Lemma backupData_spec env sid w :
  ChatService_backupData env sid w =
  match ChatService.getConversation env sid w with
  | (Ok (Some c), w1) =>
      (Ok {| snap_conversation := c;
             snap_messages :=
               ChatService.FromStore
                 <$> reverse (take 1000 (sort_desc Message.createdAt
                                           (Message.find (cc_id c) (messages w))));
             snap_backedUpAt := now env |}, w1)
  | (Ok None, w1) => (Err ConversationNotFound, w1)
  | (Err e, w1) => (Err e, w1)
  end.
Proof.
  unfold ChatService_backupData, bind.
  pose proof (getConversation_frame env sid w) as (_ & Hm1 & _).
  destruct (ChatService.getConversation env sid w) as [[[c|]|e] w1] eqn:Hget; try done.
  simpl in Hm1.
  rewrite (getMessages_first_page env sid 1000 w1 c w1 ltac:(lia)
             (getConversation_again _ _ _ _ _ Hget)).
  by rewrite Hm1.
Qed.

(** X20. backupConversation reads the store and writes at most one
    object. It never changes a conversation or a message. It resolves
    with a key only when getConversation found the conversation and the
    object storage accepted the put; the key is
    backups/conversations/<conversation id>/<time of the call>.json and
    it is the one object added. When getConversation finds nothing it
    fails with not-found, when getConversation fails it fails the same
    way, and when the object storage is unreachable the rejection of the
    storage client is passed on; in all three nothing is written. *)
Theorem backupConversation_outcomes env sid w :
  conversations (ChatService_backupConversation env sid w).2 = conversations w
  ∧ messages (ChatService_backupConversation env sid w).2 = messages w
  ∧ match (ChatService_backupConversation env sid w).1 with
    | BackupKey k =>
        ∃ c, (ChatService.getConversation env sid w).1 = Ok (Some c)
             ∧ S3.up (s3 w) = true
             ∧ k = ("backups/conversations/" +:+ pretty (cc_id c : nat) +:+ "/"
                    +:+ pretty (now env) +:+ ".json")%string
             ∧ S3.objects (s3 (ChatService_backupConversation env sid w).2)
               = S3.objects (s3 w) ++ [k]
    | BackupRejected =>
        (∃ c, (ChatService.getConversation env sid w).1 = Ok (Some c))
        ∧ S3.up (s3 w) = false
        ∧ s3 (ChatService_backupConversation env sid w).2 = s3 w
    | BackupFailed e =>
        ((ChatService.getConversation env sid w).1 = Ok None ∧ e = ConversationNotFound
         ∨ (ChatService.getConversation env sid w).1 = Err e)
        ∧ s3 (ChatService_backupConversation env sid w).2 = s3 w
    end.
Proof.
  unfold ChatService_backupConversation. rewrite backupData_spec.
  pose proof (getConversation_frame env sid w) as (Hc1 & Hm1 & Hs1).
  destruct (ChatService.getConversation env sid w) as [[[c|]|e] w1]; simpl in *.
  - unfold StorageService_backupConversation. rewrite Hs1.
    destruct (S3.up (s3 w)) eqn:Hup; simpl.
    + rewrite Hs1. split_and!; try done. by exists c.
    + split_and!; try done. by exists c.
  - split_and!; try done. by left.
  - split_and!; try done. by right.
Qed.




(** ** The cache window against the store *)

(** A step either leaves the messages and every window alone, or is a
    successful addMessage. *)
Lemma step_quiet_or_append w c :
  coherent w →
  (messages (step w c) = messages w
   ∧ ∀ now sid, cache_window now sid (step w c) = cache_window now sid w)
  ∨ ∃ env sid role content files m,
      c = AddMessage env sid role content files
      ∧ ChatService.addMessage env sid role content files w = (Ok m, step w c).
Proof.
  intros Hcoh. destruct c as [env uid ty md|env sid|env sid role content files
                              |env sid page limit|env uid page limit|env sid uid|b|b]; simpl.
  - left. rewrite createConversation_spec.
    destruct (Conversation.save _ _) as [cs|e]; [|done].
    destruct (Redis.up (redis w)); [|done]. simpl. split; [done|].
    intros. by rewrite cache_window_cache_put.
  - left. split; [apply getConversation_frame | intros; apply getConversation_window].
  - destruct (ChatService.addMessage env sid role content files w) as [[m|e] w'] eqn:Hadd.
    + right. by exists env, sid, role, content, files, m.
    + left. destruct (addMessage_Err_world _ _ _ _ _ _ _ _ Hcoh Hadd) as (_ & ? & ?). done.
  - left. destruct (getMessages_world env sid page limit w) as [-> | ->]; [done|].
    split; [apply getConversation_frame | intros; apply getConversation_window].
  - left. unfold ChatService.getUserConversations. by destruct (paginate _ _ _).
  - left. rewrite deleteConversation_spec.
    destruct (Conversation.findOne _ _) as [c|]; [|done].
    destruct (Redis.up (redis w)); [|done]. simpl. split; [done|].
    intros. unfold cache_window, Redis.window, Redis.lookup. simpl.
    by rewrite lookup_delete_ne by apply sessionKey_messagesKey.
  - by left.
  - by left.
Qed.

Lemma retained_ident cs cs' x :
  retained cs cs' → x ∈ (ident <$> cs) → x ∈ (ident <$> cs').
Proof.
  intros (l & added & -> & Hl) Hx. rewrite fmap_app. apply elem_of_app. left.
  induction Hl as [|c c' cs l Hc Hl IH]; [done|].
  rewrite fmap_cons in Hx |- *. apply elem_of_cons in Hx as [->|Hx].
  - replace (ident c') with (ident c); [left|]. unfold ident. destruct Hc. congruence.
  - right. auto.
Qed.

Lemma session_messages_snoc sid w ms m :
  messages w = ms ++ [m] →
  List.filter (λ m, bool_decide (md_sessionId (Message.data m) = sid)) (messages w)
  = List.filter (λ m, bool_decide (md_sessionId (Message.data m) = sid)) ms
    ++ (if bool_decide (md_sessionId (Message.data m) = sid) then [m] else []).
Proof. intros ->. rewrite List.filter_app. simpl. by case_bool_decide. Qed.

Lemma step_windows w c :
  coherent w → windows_mirror_store w → windows_mirror_store (step w c).
Proof.
  intros Hcoh Hw. pose proof (step_quiet_or_append w c Hcoh) as Hstep.
  revert Hstep. generalize (step w c).
  intros w' [[Hms Hwin]|(env & sid & role & content & files & m & -> & Hadd)] now' sid'.
  - unfold session_messages. rewrite Hms, Hwin. apply Hw.
  - destruct (chat_addMessage_Ok _ _ _ _ _ _ _ _ Hcoh Hadd)
      as (cid & _ & _ & Hms & _ & _ & _ & _).
    apply addMessage_Ok_world in Hadd as Hworld.
    destruct Hworld as (c & w1 & Hget & _ & Hm & _ & Hw').
    assert (md_sessionId (Message.data m) = sid) as Hsid by (by rewrite Hm).
    pose proof (λ n s, getConversation_window env sid n s w) as Hwin1.
    rewrite Hget in Hwin1. simpl in Hwin1.
    unfold session_messages. rewrite (session_messages_snoc sid' _ _ _ Hms).
    rewrite Hsid. destruct (decide (sid' = sid)) as [->|Hne].
    + rewrite bool_decide_eq_true_2 by done. rewrite fmap_app, reverse_app. simpl.
      assert (cache_window now' sid w'
              = if bool_decide (now' < now env + 3600 * 1000)
                then take 50 (Message.data m :: cache_window (now env) sid w) else [])
        as ->.
      { rewrite Hw'. rewrite <- Hwin1.
        etrans; [|apply (cache_window_put_at env now' sid _ w1)]. reflexivity. }
      case_bool_decide; [|apply prefix_nil].
      etrans; [apply prefix_take|]. apply prefix_cons, Hw.
    + rewrite bool_decide_eq_false_2 by done. rewrite app_nil_r.
      assert (cache_window now' sid' w' = cache_window now' sid' w) as ->; [|apply Hw].
      rewrite Hw'. rewrite <- Hwin1.
      etrans; [|apply (cache_window_put_other env now' sid sid'
                         (take 50 (Message.data m :: cache_window (now env) sid w1)) w1 Hne)].
      reflexivity.
Qed.

Lemma step_filed w c : coherent w → filed w → filed (step w c).
Proof.
  intros Hcoh Hf. pose proof (step_quiet_or_append w c Hcoh) as Hstep.
  pose proof (step_retained w c) as Hret. revert Hstep Hret. generalize (step w c).
  intros w' [[Hms _]|(env & sid & role & content & files & m & -> & Hadd)] Hret m' Hm';
    apply (retained_ident (conversations w)); try done.
  - rewrite Hms in Hm'. by apply Hf.
  - destruct (chat_addMessage_Ok _ _ _ _ _ _ _ _ Hcoh Hadd)
      as (cid & Hid & Hcid & Hms & _ & _ & _ & _).
    apply addMessage_Ok_world in Hadd as (c & w1 & _ & _ & Hm & _ & _).
    rewrite Hms in Hm'. apply elem_of_app in Hm' as [Hm'|Hm'].
    + by apply Hf.
    + apply list_elem_of_singleton in Hm' as ->. rewrite Hcid.
      replace (md_sessionId (Message.data m)) with sid by (by rewrite Hm). done.
Qed.

Lemma run_windows history : windows_mirror_store (run history).
Proof.
  induction history as [|c history IH] using rev_ind.
  - intros now' sid. apply prefix_nil.
  - rewrite run_snoc. apply step_windows; [apply run_coherent | done].
Qed.

Lemma run_filed history : filed (run history).
Proof.
  induction history as [|c history IH] using rev_ind.
  - by intros m ?%elem_of_nil.
  - rewrite run_snoc. apply step_filed; [apply run_coherent | done].
Qed.

(** Under the unique indexes, a filed message belongs to a conversation
    exactly when it carries the sessionId of that conversation. *)
Lemma filed_owner w c m :
  coherent w → filed w → c ∈ conversations w → m ∈ messages w →
  (Message.conversationId m = Conversation._id c
   ↔ md_sessionId (Message.data m) = Conversation.sessionId c).
Proof.
  intros Hcoh Hf Hc Hm.
  destruct (proj1 (ident_elem_of _ _ _) (Hf m Hm)) as (c0 & Hc0 & Hid0 & Hsid0).
  split; intros Heq.
  - assert (c0 = c) as ->; [|done].
    apply (NoDup_fmap_eq Conversation._id (conversations w));
      [apply Hcoh | done | done | congruence].
  - assert (c0 = c) as ->; [|done].
    apply (NoDup_fmap_eq Conversation.sessionId (conversations w));
      [apply Hcoh | done | done | congruence].
Qed.

Lemma filter_ext_elem_of {A : Type} (f g : A → bool) (l : list A) :
  (∀ x, x ∈ l → f x = g x) → List.filter f l = List.filter g l.
Proof.
  induction l as [|a l IH]; [done|]. intros H. simpl.
  rewrite (H a) by left. rewrite IH; [done|]. intros x Hx. apply H. by right.
Qed.

(** X22. The cache window mirrors the store. After any history of
    service calls, at any time, the cache window of a session is a
    front part of the messages the store holds for that session, newest
    stored first: it never holds a message that is not stored, never
    skips one and never reorders them. Those stored messages are the
    ones owned by the conversation of the session; a session without a
    conversation has none, and so an empty window. The reachability of
    the cache changes between service calls only. *)
Theorem cache_window_mirrors_the_store history now sid :
  cache_window now sid (run history) `prefix_of` reverse (session_messages sid (run history))
  ∧ match conversation_of sid (run history) with
    | Some c => session_messages sid (run history) = Message.data <$> owned c (run history)
    | None => session_messages sid (run history) = [] ∧ cache_window now sid (run history) = []
    end.
Proof.
  pose proof (run_coherent history) as Hcoh. pose proof (run_filed history) as Hf.
  pose proof (run_windows history now sid) as Hw.
  split; [done|].
  destruct (conversation_of sid (run history)) as [c|] eqn:Hc.
  - apply findOne_Some in Hc as [Hc Hsid%bool_decide_eq_true].
    unfold session_messages, owned, Message.find. f_equal.
    apply filter_ext_elem_of. intros m Hm.
    apply bool_decide_ext. rewrite <- Hsid. symmetry.
    by apply (filed_owner (run history)).
  - assert (session_messages sid (run history) = []) as Hnone.
    { unfold session_messages.
      destruct (List.filter _ _) as [|m ms] eqn:Hfilter; [done|].
      assert (m ∈ List.filter
                    (λ m, bool_decide (md_sessionId (Message.data m) = sid))
                    (messages (run history))) as Hm by (rewrite Hfilter; left).
      apply list_elem_of_In, List.filter_In in Hm as [Hm%list_elem_of_In Hsid%bool_decide_eq_true].
      destruct (proj1 (ident_elem_of _ _ _) (Hf m Hm)) as (c0 & Hc0 & _ & Hsid0).
      unfold conversation_of in Hc. rewrite findOne_None in Hc.
      specialize (Hc c0 Hc0). simpl in Hc.
      rewrite bool_decide_eq_true_2 in Hc by congruence. done. }
    split; [done|]. rewrite Hnone in Hw. by apply prefix_nil_inv in Hw.
Qed.

Lemma range_elem_of {A : Type} (l : list A) (start stop : Z) x :
  x ∈ Redis.range l start stop → x ∈ l.
Proof.
  unfold Redis.range. cbv zeta.
  match goal with |- context [if ?b then [] else _] => destruct b end;
    [by intros ?%elem_of_nil|].
  intros Hx. apply (elem_of_sublist _ _ _ Hx).
  etrans; [apply sublist_take | apply sublist_drop].
Qed.

Lemma session_messages_elem_of sid w md :
  md ∈ session_messages sid w ↔
  ∃ m, m ∈ messages w ∧ md = Message.data m ∧ md_sessionId (Message.data m) = sid.
Proof.
  unfold session_messages. rewrite list_elem_of_fmap. split.
  - intros (m & -> & Hm). apply list_elem_of_In, List.filter_In in Hm as [Hm Hsid].
    exists m. by rewrite list_elem_of_In, <- (bool_decide_eq_true _).
  - intros (m & Hm & -> & Hsid). exists m. split; [done|].
    apply list_elem_of_In, List.filter_In. by rewrite <- list_elem_of_In, bool_decide_eq_true.
Qed.

Lemma getMessages_store_results env sid page limit w l w' :
  coherent w → filed w →
  ChatService.getMessages_store env sid page limit w = (Ok l, w') →
  ∀ v, v ∈ l →
    ∃ m, m ∈ messages w ∧ v = ChatService.FromStore m
         ∧ md_sessionId (Message.data m) = sid.
Proof.
  intros Hcoh Hf. unfold ChatService.getMessages_store, bind.
  destruct (getConversation_coherent env sid w Hcoh) as (_ & _ & Hm1 & _ & _ & _ & Hid).
  destruct (ChatService.getConversation env sid w) as [[[c|]|e] w1]; try done.
  simpl in Hm1, Hid. specialize (Hid c eq_refl). rewrite Hm1.
  destruct (paginate _ _ _) as [ms|e] eqn:Hpage; [|done]. intros [= <- _].
  apply paginate_Ok in Hpage as (_ & Hsub & _ & _).
  intros v (m & -> & Hm)%list_elem_of_fmap. rewrite elem_of_reverse in Hm.
  pose proof (elem_of_sublist _ _ _ Hm Hsub) as Hm'.
  apply sort_desc_elem_of, find_elem_of in Hm' as [Hin Hcid].
  exists m. split_and!; [done | done |].
  apply ident_elem_of in Hid as (c0 & Hc0 & Hid0 & <-).
  apply (filed_owner w c0 m Hcoh Hf Hc0 Hin). congruence.
Qed.

(** X23. getMessages returns stored messages of the session, on either
    path. After any history of service calls, every entry of a
    successful getMessages, whether served from the cache window or
    from the store, is the data of a message the store holds with the
    sessionId asked for. *)
Theorem getMessages_returns_stored_messages history env sid page limit l w' :
  ChatService.getMessages env sid page limit (run history) = (Ok l, w') →
  ∀ v, v ∈ l →
    ∃ m, m ∈ messages (run history)
         ∧ ChatService.view_data v = Message.data m
         ∧ md_sessionId (Message.data m) = sid.
Proof.
  pose proof (run_coherent history) as Hcoh. pose proof (run_filed history) as Hf.
  pose proof (run_windows history (now env) sid) as Hw.
  assert (∀ l w', ChatService.getMessages_store env sid page limit (run history) = (Ok l, w') →
            ∀ v, v ∈ l →
              ∃ m, m ∈ messages (run history)
                   ∧ ChatService.view_data v = Message.data m
                   ∧ md_sessionId (Message.data m) = sid) as Hstore.
  { intros l0 w0 Hget v Hv.
    destruct (getMessages_store_results _ _ _ _ _ _ _ Hcoh Hf Hget v Hv) as (m & ? & -> & ?).
    by exists m. }
  unfold ChatService.getMessages.
  destruct (bool_decide (page = 1) && bool_decide (limit <= 10)); [|apply Hstore].
  unfold bind. destruct (Redis.up (redis (run history))) eqn:Hup.
  - rewrite getRecentMessages_spec by (done || by apply coherent_list_or_absent).
    case_bool_decide; [|apply Hstore].
    unfold ret. intros [= <- _] v (md & -> & Hmd%range_elem_of)%list_elem_of_fmap.
    destruct Hw as [k Hk].
    assert (md ∈ session_messages sid (run history)) as Hin.
    { rewrite <- elem_of_reverse, Hk. apply elem_of_app. by left. }
    apply session_messages_elem_of in Hin as (m & Hm & -> & Hsid). by exists m.
  - unfold CacheService.getRecentMessages, bind, redis_call.
    by rewrite call_down by done.
Qed.

Lemma getMessages_returns_stored_messages_witness :
  ∃ l, ChatService.getMessages (env_at 3500 "-" 0%nat) "S" 1 10 w_two = (Ok l, w_two)
       ∧ length l = 2%nat
       ∧ ∀ v, v ∈ l → ∃ m, m ∈ messages w_two
                           ∧ ChatService.view_data v = Message.data m
                           ∧ md_sessionId (Message.data m) = "S"%string.
Proof.
  assert (∃ l, ChatService.getMessages (env_at 3500 "-" 0%nat) "S" 1 10 (run (take 3 scenario))
               = (Ok l, run (take 3 scenario)) ∧ length l = 2%nat) as (l & Hget & Hlen).
  { eexists. split; vm_compute; reflexivity. }
  exists l. split_and!; [exact Hget | exact Hlen |].
  exact (getMessages_returns_stored_messages (take 3 scenario) _ _ _ _ _ _ Hget).
Defined.

(** ** Writes that survive a cache failure *)

(** X24. A delete that fails on the cache has still deactivated the
    conversation. After any history of service calls, when the owner
    deletes a conversation while the cache is unreachable, the call
    fails with the cache error, yet the conversation is already marked
    inactive in the store; messages and cache are untouched. *)
Theorem deleteConversation_with_cache_down history env sid uid c :
  conversation_of sid (run history) = Some c →
  Conversation.userId c = uid →
  Redis.up (redis (run history)) = false →
  ∃ w', ChatService.deleteConversation env sid uid (run history) = (Err RedisUnavailable, w')
    ∧ conversation_of sid w' = Some (Conversation.deactivate c)
    ∧ active_conversation_of sid w' = None
    ∧ messages w' = messages (run history)
    ∧ redis w' = redis (run history).
Proof.
  intros Hc Huid Hup. pose proof (run_coherent history) as Hcoh.
  rewrite deleteConversation_spec.
  rewrite (owned_by_unique sid uid _ c (coh_sessions _ Hcoh) Hc).
  rewrite bool_decide_eq_true_2 by done. rewrite Hup.
  eexists. split; [reflexivity|].
  apply findOne_Some in Hc as Hin. destruct Hin as [Hin Hsid%bool_decide_eq_true].
  split_and!; try done.
  - unfold conversation_of, deactivated. simpl.
    erewrite (findOne_update _ (Conversation._id c) Conversation.deactivate);
      [| apply Hcoh | done | exact Hc].
    by rewrite bool_decide_eq_true_2.
  - unfold active_conversation_of, deactivated. simpl. apply findOne_None.
    intros x [[Hx Hne]|(c0 & Hc0 & Hid0 & ->)]%update_elem_of; [| | apply Hcoh].
    + apply andb_false_iff. left. apply bool_decide_eq_false. intros Hxs. apply Hne.
      f_equal. apply (NoDup_fmap_eq Conversation.sessionId (conversations (run history)));
        [apply Hcoh | done | done | congruence].
    + apply andb_false_iff. right. by apply bool_decide_eq_false.
Qed.

Lemma deleteConversation_with_cache_down_witness :
  ∃ w', ChatService.deleteConversation (env_at 4000 "-" 0%nat) "S" "u1"
          (run (take 3 scenario ++ [SetRedisUp false])) = (Err RedisUnavailable, w')
    ∧ active_conversation_of "S" w' = None.
Proof.
  assert (∃ c, conversation_of "S" (run (take 3 scenario ++ [SetRedisUp false])) = Some c
               ∧ Conversation.userId c = "u1"%string) as (c & Hc & Hu).
  { eexists. split; vm_compute; reflexivity. }
  destruct (deleteConversation_with_cache_down (take 3 scenario ++ [SetRedisUp false])
              (env_at 4000 "-" 0%nat) "S" "u1" c Hc Hu) as (w' & Hdel & _ & Hact & _).
  { vm_compute. reflexivity. }
  exists w'. split; [exact Hdel | exact Hact].
Defined.

(** X25. A create that fails on the cache has still stored the
    conversation. With a valid type and userId and fresh identifiers,
    createConversation called while the cache is unreachable fails with
    the cache error after the conversation has been saved: it is in the
    store, active, under a sessionId no caller was given. *)
Theorem createConversation_with_cache_down env uid ty md w :
  Redis.up (redis w) = false →
  uuid env 0 ≠ ""%string → uid ≠ ""%string → ty ∈ Conversation.types →
  objectId env ∉ (Conversation._id <$> conversations w) →
  uuid env 0 ∉ (Conversation.sessionId <$> conversations w) →
  ∃ w', ChatService.createConversation env uid ty md w = (Err RedisUnavailable, w')
    ∧ conversations w' = conversations w ++ [Conversation.new env (uuid env 0) uid ty md]
    ∧ active_conversation_of (uuid env 0) w'
      = Some (Conversation.new env (uuid env 0) uid ty md)
    ∧ messages w' = messages w
    ∧ redis w' = redis w.
Proof.
  intros Hup Hs Hu Ht Hid Hsid. rewrite createConversation_spec.
  unfold Conversation.save, Conversation.validate.
  cbn [Conversation.new Conversation.sessionId Conversation.userId Conversation.type
       Conversation._id].
  rewrite (bool_decide_eq_true_2 (uuid env 0 ≠ ""%string)) by done.
  rewrite (bool_decide_eq_true_2 (uid ≠ ""%string)) by done.
  rewrite (bool_decide_eq_true_2 _ Ht). cbn [andb negb].
  rewrite bool_decide_eq_false_2 by tauto. rewrite Hup.
  eexists. split; [reflexivity|]. split_and!; try done.
  unfold active_conversation_of. simpl. apply findOne_snoc.
  - intros x Hx. apply andb_false_iff. left. apply bool_decide_eq_false. intros Hxs.
    apply Hsid. apply list_elem_of_fmap. by exists x.
  - simpl. by rewrite bool_decide_eq_true_2.
Qed.

Lemma createConversation_with_cache_down_witness :
  ∃ w', ChatService.createConversation (env_at 1500 "T" 5%nat) "u2" "general" no_metadata
          w_cache_down = (Err RedisUnavailable, w')
    ∧ length (conversations w') = 2%nat
    ∧ is_Some (active_conversation_of "T" w').
Proof.
  destruct (createConversation_with_cache_down (env_at 1500 "T" 5%nat) "u2" "general"
              no_metadata w_cache_down) as (w' & Hcreate & Hcs & Hact & _).
  - vm_compute. reflexivity.
  - discriminate.
  - discriminate.
  - vm_compute. set_solver.
  - vm_compute. intros H. apply list_elem_of_singleton in H. discriminate H.
  - vm_compute. intros H. apply list_elem_of_singleton in H. discriminate H.
  - exists w'. split_and!; [exact Hcreate | by rewrite Hcs | eexists; exact Hact].
Defined.
